(** * Plan Execution & Recovery Subsystem of home-server-agent

    A shallow embedding of the resilience primitives, the error-recovery
    analyzer, the execution engine with its SQLite state store, and the
    rollback manager, together with the properties the specification
    states about them.

    Conventions of the embedding.
    - A Python [str] is a [string] over the code points 0..255.
    - A Python [float] is the rational it stands for ([Q]), without
      rounding; where a float operation of the code raises on overflow,
      the embedding says so at that operation.
    - A Python exception is a value of an error type; a function that can
      raise returns a sum [exn + A], together with the state it leaves.
    - State that the code mutates (an instance's attributes, SQLite tables,
      the file system, standard input) is passed explicitly. *)

From Stdlib Require Import ZArith QArith Qabs Qminmax Qpower Lia Lqa Ascii String.
From stdpp Require Import base gmap strings list sorting pretty.

Local Open Scope Z_scope.
Set Warnings "-register-all".

(* ===================================================================== *)
(** * Python strings *)
(* ===================================================================== *)

Module PyStr.

Definition code (c : ascii) : nat := nat_of_ascii c.

Definition between (lo hi n : nat) : bool :=
  (Nat.leb lo n && Nat.leb n hi)%bool.

(** [c.lower()]: A-Z and the upper-case letters of Latin-1 move down by
    32; every other code point below 256 is left alone. *)
Definition lower_char (c : ascii) : ascii :=
  let n := code c in
  if (between 65 90 n
      || (between 192 222 n && negb (Nat.eqb n 215)))%bool
  then ascii_of_nat (n + 32)
  else c.

(** [s.lower()] *)
Fixpoint lower (s : string) : string :=
  match s with
  | EmptyString => EmptyString
  | String c s' => String (lower_char c) (lower s')
  end.

(** [pat in s] *)
Fixpoint contains (pat s : string) : bool :=
  if String.prefix pat s then true
  else match s with
       | EmptyString => false
       | String _ s' => contains pat s'
       end.

(** [c.isspace()] on the code points below 256. *)
Definition is_space (c : ascii) : bool :=
  let n := code c in
  (between 9 13 n || between 28 32 n || Nat.eqb n 133 || Nat.eqb n 160)%bool.

Fixpoint lstrip (s : string) : string :=
  match s with
  | EmptyString => EmptyString
  | String c s' => if is_space c then lstrip s' else s
  end.

Fixpoint rstrip (s : string) : string :=
  match s with
  | EmptyString => EmptyString
  | String c s' =>
      match rstrip s' with
      | EmptyString => if is_space c then EmptyString else String c EmptyString
      | r => String c r
      end
  end.

(** [s.strip()] *)
Definition strip (s : string) : string := rstrip (lstrip s).

(** [s[:n]] for [n >= 0] *)
Definition slice_to (n : Z) (s : string) : string :=
  String.substring 0 (Z.to_nat n) s.

(** [sep.join(parts)] *)
Fixpoint join (sep : string) (parts : list string) : string :=
  match parts with
  | [] => ""
  | [x] => x
  | x :: rest => x +:+ sep +:+ join sep rest
  end.

(** The line feed and the double quote. *)
Definition nl : string := String (ascii_of_nat 10) EmptyString.
Definition dq : string := String (ascii_of_nat 34) EmptyString.

End PyStr.

(* ===================================================================== *)
(** * circuit_breaker.py *)
(* ===================================================================== *)

Module CircuitBreaker.

(** [class CircuitState(Enum)] *)
Inductive CircuitState := CLOSED | OPEN | HALF_OPEN.

(** The values stored in the attributes of a [CircuitBreaker] instance. *)
Inductive pyval :=
| PyNone
| PyInt (n : Z)
| PyFloat (x : Q)
| PyStr (s : string)
| PyState (s : CircuitState).

(** Why [CircuitBreakerOpen] was raised (the text of its message). *)
Inductive open_reason :=
| IsOpen (retry_after : Q)   (* "Circuit {name} is OPEN. Retry after {..}s" *)
| HalfOpenLimit.             (* "Circuit {name} HALF_OPEN limit reached" *)

Section Breaker.

(** [W]: the world the wrapped function acts on (it carries the clock);
    [E]: the exceptions the wrapped function raises; [R]: its results. *)
Context {W E R : Type}.

(** [time.time()] *)
Variable time : W -> Q.

Inductive exn :=
| CircuitBreakerOpen (why : open_reason)
| AttributeError (attr : string)
| TypeError
| FuncRaised (e : E).

(** An instance is its attribute dictionary ([self.__dict__]); the class
    itself only defines methods and the properties [state] and [metrics]. *)
Abbreviation obj := (gmap string pyval).

(** Methods run in a state-and-exception monad over [self]: attribute
    writes made before a [raise] stay visible after it. *)
Definition M (A : Type) : Type := obj -> (exn + A) * obj.

Definition ret {A} (a : A) : M A := fun self => (inr a, self).
Definition raise {A} (e : exn) : M A := fun self => (inl e, self).
Definition bind {A B} (m : M A) (k : A -> M B) : M B :=
  fun self =>
    match m self with
    | (inl e, self') => (inl e, self')
    | (inr a, self') => k a self'
    end.

Notation "'do' x <- m ; k" := (bind m (fun x => k))
  (at level 10, x name, m at level 100, k at level 200).
Notation "'run' m ; k" := (bind m (fun _ => k))
  (at level 10, m at level 100, k at level 200).

(** [self.a]: reading an attribute the instance does not have raises
    [AttributeError]. *)
Definition getattr (a : string) : M pyval :=
  fun self =>
    match self !! a with
    | Some v => (inr v, self)
    | None => (inl (AttributeError a), self)
    end.

(** [self.a = v] *)
Definition setattr (a : string) (v : pyval) : M unit :=
  fun self => (inr tt, <[a := v]> self).

(** Numbers: [int] and [float] compare and subtract across the two types. *)
Definition as_num (v : pyval) : option Q :=
  match v with
  | PyInt n => Some (inject_Z n)
  | PyFloat x => Some x
  | _ => None
  end.

(** [a >= b] *)
Definition py_ge (a b : pyval) : M bool :=
  match as_num a, as_num b with
  | Some x, Some y => ret (Qle_bool y x)
  | _, _ => raise TypeError
  end.

(** [a + 1] *)
Definition py_succ (a : pyval) : M pyval :=
  match a with
  | PyInt n => ret (PyInt (n + 1))
  | PyFloat x => ret (PyFloat (x + 1))
  | _ => raise TypeError
  end.

(** [max(0, a - 1)] *)
Definition py_pred_floor0 (a : pyval) : M pyval :=
  match a with
  | PyInt n => ret (PyInt (if 0 <? n - 1 then n - 1 else 0))
  | PyFloat x => ret (if Qle_bool (x - 1) 0 then PyInt 0 else PyFloat (x - 1))
  | _ => raise TypeError
  end.

(** [a - b] on numbers, as a float *)
Definition py_sub (a b : pyval) : M Q :=
  match as_num a, as_num b with
  | Some x, Some y => ret (x - y)%Q
  | _, _ => raise TypeError
  end.

Definition is_state (v : pyval) (s : CircuitState) : bool :=
  match v, s with
  | PyState CLOSED, CLOSED | PyState OPEN, OPEN
  | PyState HALF_OPEN, HALF_OPEN => true
  | _, _ => false
  end.

(** [CircuitBreaker.__init__] *)
Definition __init__ (failure_threshold : Z) (recovery_timeout : Q)
    (half_open_max_calls : Z) (name : string) : obj :=
  <["_half_open_calls" := PyInt 0]>
  (<["_last_failure_time" := PyNone]>
  (<["_success_count" := PyInt 0]>
  (<["_failure_count" := PyInt 0]>
  (<["_state" := PyState CLOSED]>
  (<["name" := PyStr name]>
  (<["half_open_max_calls" := PyInt half_open_max_calls]>
  (<["_recovery_timeout" := PyFloat recovery_timeout]>
  (<["_failure_threshold" := PyInt failure_threshold]> ∅)))))))).

(** [_should_attempt_reset]; [now] is the value of [time.time()]. *)
Definition _should_attempt_reset (now : Q) : M bool :=
  do last <- getattr "_last_failure_time" ;
  match last with
  | PyNone => ret true
  | _ =>
      do elapsed <- py_sub (PyFloat now) last ;
      do timeout <- getattr "recovery_timeout" ;
      py_ge (PyFloat elapsed) timeout
  end.

(** [_get_retry_after] *)
Definition _get_retry_after (now : Q) : M Q :=
  do last <- getattr "_last_failure_time" ;
  match last with
  | PyNone => ret 0%Q
  | _ =>
      do elapsed <- py_sub (PyFloat now) last ;
      do timeout <- getattr "recovery_timeout" ;
      do left <- py_sub timeout (PyFloat elapsed) ;
      ret (Qmax 0 left)
  end.

(** [_reset] *)
Definition _reset : M unit :=
  run setattr "_state" (PyState CLOSED) ;
  run setattr "_failure_count" (PyInt 0) ;
  run setattr "_success_count" (PyInt 0) ;
  run setattr "_half_open_calls" (PyInt 0) ;
  setattr "_last_failure_time" PyNone.

(** [_on_success] *)
Definition _on_success : M unit :=
  do st <- getattr "_state" ;
  if is_state st HALF_OPEN then
    do sc <- getattr "_success_count" ;
    do sc' <- py_succ sc ;
    run setattr "_success_count" sc' ;
    do sc2 <- getattr "_success_count" ;
    do lim <- getattr "half_open_max_calls" ;
    do enough <- py_ge sc2 lim ;
    if enough then _reset else ret tt
  else
    do fc <- getattr "_failure_count" ;
    do fc' <- py_pred_floor0 fc ;
    setattr "_failure_count" fc'.

(** [_on_failure]; [now] is the value of [time.time()]. *)
Definition _on_failure (now : Q) : M unit :=
  do fc <- getattr "_failure_count" ;
  do fc' <- py_succ fc ;
  run setattr "_failure_count" fc' ;
  run setattr "_last_failure_time" (PyFloat now) ;
  do st <- getattr "_state" ;
  if is_state st HALF_OPEN then
    setattr "_state" (PyState OPEN)
  else
    do fc2 <- getattr "_failure_count" ;
    do thr <- getattr "_failure_threshold" ;
    do tripped <- py_ge fc2 thr ;
    if tripped then
      do _rt <- getattr "_recovery_timeout" ;   (* read by the log message *)
      setattr "_state" (PyState OPEN)
    else ret tt.

(** The part of [call] under [with self._lock]: decides whether the
    wrapped function may run. *)
Definition guard_call (now : Q) : M unit :=
  do state <- getattr "_state" ;
  if is_state state OPEN then
    do reset <- _should_attempt_reset now ;
    if reset then
      run setattr "_state" (PyState HALF_OPEN) ;
      setattr "_half_open_calls" (PyInt 0)
    else
      do after <- _get_retry_after now ;
      raise (CircuitBreakerOpen (IsOpen after))
  else if is_state state HALF_OPEN then
    do calls <- getattr "_half_open_calls" ;
    do lim <- getattr "half_open_max_calls" ;
    do full <- py_ge calls lim ;
    if full then raise (CircuitBreakerOpen HalfOpenLimit)
    else
      do calls' <- py_succ calls ;
      setattr "_half_open_calls" calls'
  else ret tt.

(** What a call leaves behind: its outcome, the instance, the world. *)
Record outcome := Outcome {
  result : exn + R;
  self_after : obj;
  world_after : W
}.

(** [CircuitBreaker.call(func)].  The wrapped function is a transition of
    the world that returns or raises; it is applied at most once. *)
Definition call (self : obj) (func : W -> W * (E + R)) (w : W) : outcome :=
  match guard_call (time w) self with
  | (inl e, self1) => Outcome (inl e) self1 w
  | (inr _, self1) =>
      let '(w', r) := func w in
      (* try: result = func(); self._on_success(); return result
         except Exception: self._on_failure(); raise *)
      let attempt :=
        match r with
        | inr v =>
            match _on_success self1 with
            | (inr _, self2) => (inr v, self2)
            | (inl e, self2) => (inl e, self2)
            end
        | inl e => (inl (FuncRaised e), self1)
        end in
      match attempt with
      | (inr v, self2) => Outcome (inr v) self2 w'
      | (inl e, self2) =>
          match _on_failure (time w') self2 with
          | (inr _, self3) => Outcome (inl e) self3 w'
          | (inl e', self3) => Outcome (inl e') self3 w'
          end
      end
  end.

(** The [state] property. *)
Definition state (self : obj) : option pyval := self !! "_state".

(** The instances a program can hold: built by the constructor, then
    changed only through [call]. *)
Inductive reachable (ft : Z) (rt : Q) (hm : Z) (nm : string) : obj -> Prop :=
| reach_init : reachable ft rt hm nm (__init__ ft rt hm nm)
| reach_call self func w :
    reachable ft rt hm nm self ->
    reachable ft rt hm nm (self_after (call self func w)).

(** [self._state.value] *)
Definition state_value (v : pyval) : M string :=
  match v with
  | PyState CLOSED => ret "closed"
  | PyState OPEN => ret "open"
  | PyState HALF_OPEN => ret "half_open"
  | _ => raise (AttributeError "value")
  end.

(** The dict the [metrics] property returns. *)
Record Metrics := {
  m_state : string;
  m_failure_count : pyval;
  m_success_count : pyval;
  m_last_failure : pyval;
  m_retry_after : Q
}.

(** The [metrics] property; [now] is the value of [time.time()]. *)
Definition metrics (now : Q) : M Metrics :=
  do st <- getattr "_state" ;
  do value <- state_value st ;
  do fc <- getattr "_failure_count" ;
  do sc <- getattr "_success_count" ;
  do last <- getattr "_last_failure_time" ;
  do after <- _get_retry_after now ;
  ret {| m_state := value; m_failure_count := fc; m_success_count := sc;
         m_last_failure := last; m_retry_after := after |}.

(** [n] calls of the same function, one after the other. *)
Fixpoint calls (n : nat) (self : obj) (func : W -> W * (E + R)) (w : W)
    : obj * W :=
  match n with
  | O => (self, w)
  | S k =>
      let o := call self func w in
      calls k (self_after o) func (world_after o)
  end.


(** ** Properties *)

(** Whenever [m] starts in a state satisfying [P], it leaves a state
    satisfying [Q], whether it returns or raises. *)
Definition triple (P : obj -> Prop) {A} (m : M A) (Q : obj -> Prop) : Prop :=
  forall self, P self -> Q (m self).2.

Lemma triple_ret P {A} (a : A) : triple P (ret a) P.
Proof. by intros self H. Qed.

Lemma triple_raise P {A} e : triple P (@raise A e) P.
Proof. by intros self H. Qed.

Lemma triple_getattr P a : triple P (getattr a) P.
Proof. intros self H. unfold getattr. by destruct (self !! a). Qed.

Lemma triple_setattr (P Q : obj -> Prop) a v :
  (forall self, P self -> Q (<[a := v]> self)) -> triple P (setattr a v) Q.
Proof. intros HPQ self H. by apply HPQ. Qed.

Lemma triple_bind (P Q S : obj -> Prop) {A B} (m : M A) (f : A -> M B) :
  triple P m Q -> (forall self, Q self -> S self) ->
  (forall a, triple Q (f a) S) -> triple P (bind m f) S.
Proof.
  intros Hm HQS Hf self H. unfold bind.
  specialize (Hm self H). destruct (m self) as [[e|a] self']; simpl in *.
  - by apply HQS.
  - by apply Hf.
Qed.

Lemma triple_weaken (P Q S : obj -> Prop) {A} (m : M A) :
  triple P m Q -> (forall self, Q self -> S self) -> triple P m S.
Proof. intros Hm HQS self H. apply HQS. by apply Hm. Qed.

Lemma triple_py_ge P a b : triple P (py_ge a b) P.
Proof. intros self H. unfold py_ge. by destruct (as_num a), (as_num b). Qed.

Lemma triple_py_sub P a b : triple P (py_sub a b) P.
Proof. intros self H. unfold py_sub. by destruct (as_num a), (as_num b). Qed.

Lemma triple_py_succ P a : triple P (py_succ a) P.
Proof. intros self H. by destruct a. Qed.

Lemma triple_py_pred P a : triple P (py_pred_floor0 a) P.
Proof. intros self H. by destruct a. Qed.

(** Steps that leave an assertion [P] in place: pure steps, and writes
    to attributes [P] is shown not to depend on by [tac]. *)
Ltac stable tac :=
  repeat first
    [ apply triple_ret
    | apply triple_raise
    | apply triple_getattr
    | apply triple_py_ge
    | apply triple_py_sub
    | apply triple_py_succ
    | apply triple_py_pred
    | apply triple_setattr; intros ? ?; tac
    | eapply triple_bind; [| intros ? Hs; exact Hs | intros ?]
    | match goal with |- triple _ (if ?b then _ else _) _ => destruct b end
    | match goal with |- triple _ (match ?v with _ => _ end) _ => destruct v end ].

(** No method ever creates the attribute [recovery_timeout]. *)
Definition no_recovery_timeout (self : obj) : Prop :=
  self !! "recovery_timeout" = None.

Ltac absent := unfold no_recovery_timeout in *; by rewrite lookup_insert_ne.

Lemma guard_call_keeps now :
  triple no_recovery_timeout (guard_call now) no_recovery_timeout.
Proof.
  unfold guard_call, _should_attempt_reset, _get_retry_after. stable absent.
Qed.

Lemma _on_success_keeps :
  triple no_recovery_timeout _on_success no_recovery_timeout.
Proof. unfold _on_success, _reset. stable absent. Qed.

Lemma _on_failure_keeps now :
  triple no_recovery_timeout (_on_failure now) no_recovery_timeout.
Proof. unfold _on_failure. stable absent. Qed.

(** Every method keeps an assertion that [guard_call], [_on_success] and
    [_on_failure] keep. *)
Lemma call_keeps (P : obj -> Prop) self func w :
  (forall now, triple P (guard_call now) P) ->
  triple P _on_success P ->
  (forall now, triple P (_on_failure now) P) ->
  P self -> P (self_after (call self func w)).
Proof.
  intros Hg Hs Hf H. unfold call.
  pose proof (Hg (time w) self H) as H1.
  destruct (guard_call (time w) self) as [[e|[]] self1]; simpl in H1; [done|].
  destruct (func w) as [w' [e|v]].
  - pose proof (Hf (time w') self1 H1) as H2.
    by destruct (_on_failure (time w') self1) as [[?|?] ?].
  - pose proof (Hs self1 H1) as H2.
    destruct (_on_success self1) as [[e|?] self2]; simpl in H2; [|done].
    pose proof (Hf (time w') self2 H2) as H3.
    by destruct (_on_failure (time w') self2) as [[?|?] ?].
Qed.

(** An instance that is open carries the time of its last failure. *)
Definition has_failure_time (self : obj) : Prop :=
  exists t, self !! "_last_failure_time" = Some (PyFloat t).

Definition not_open (self : obj) : Prop :=
  self !! "_state" <> Some (PyState OPEN).

Definition open_has_failure_time (self : obj) : Prop :=
  has_failure_time self \/ not_open self.

Lemma inv_set_other a v self :
  a <> "_state" -> a <> "_last_failure_time" ->
  open_has_failure_time self -> open_has_failure_time (<[a := v]> self).
Proof.
  intros H1 H2 [[t Ht]|Hn]; [left; exists t|right; unfold not_open in *];
    by rewrite lookup_insert_ne.
Qed.

Lemma not_open_set_other a v self :
  a <> "_state" -> not_open self -> not_open (<[a := v]> self).
Proof. intros H1 Hn. unfold not_open in *. by rewrite lookup_insert_ne. Qed.

Lemma has_failure_time_set_other a v self :
  a <> "_last_failure_time" ->
  has_failure_time self -> has_failure_time (<[a := v]> self).
Proof.
  intros H1 [t Ht]. exists t. by rewrite lookup_insert_ne.
Qed.

Ltac inv_other := apply inv_set_other; [discriminate | discriminate | done].
Ltac not_open_other := apply not_open_set_other; [discriminate | done].
Ltac failure_time_other :=
  apply has_failure_time_set_other; [discriminate | done].

(** After [_state] is set to a state other than OPEN, the rest of a
    method that writes no state keeps the instance not open. *)
Lemma _reset_inv : triple open_has_failure_time _reset open_has_failure_time.
Proof.
  unfold _reset.
  eapply triple_bind with (Q := not_open).
  - apply triple_setattr. intros self _.
    unfold not_open. rewrite lookup_insert_eq. congruence.
  - by right.
  - intros _. eapply triple_weaken; [|intros self H; right; exact H].
    stable not_open_other.
Qed.

Lemma guard_call_inv now :
  triple open_has_failure_time (guard_call now) open_has_failure_time.
Proof.
  unfold guard_call, _should_attempt_reset, _get_retry_after.
  eapply triple_bind; [apply triple_getattr | intros ? Hs; exact Hs |].
  intros st. destruct (is_state st OPEN).
  - eapply triple_bind; [stable idtac | intros ? Hs; exact Hs |].
    intros [].
    + eapply triple_bind with (Q := not_open).
      * apply triple_setattr. intros self _.
        unfold not_open. rewrite lookup_insert_eq. congruence.
      * by right.
      * intros _. eapply triple_weaken; [|intros self H; right; exact H].
        stable not_open_other.
    + stable idtac.
  - stable inv_other.
Qed.

Lemma _on_success_inv :
  triple open_has_failure_time _on_success open_has_failure_time.
Proof.
  unfold _on_success.
  eapply triple_bind; [apply triple_getattr | intros ? Hs; exact Hs |].
  intros st. destruct (is_state st HALF_OPEN).
  - do 6 (eapply triple_bind; [stable inv_other | intros ? Hs; exact Hs |];
          intros ?).
    match goal with |- triple _ (if ?b then _ else _) _ => destruct b end.
    + apply _reset_inv.
    + apply triple_ret.
  - stable inv_other.
Qed.

Lemma _on_failure_inv now :
  triple open_has_failure_time (_on_failure now) open_has_failure_time.
Proof.
  unfold _on_failure.
  do 3 (eapply triple_bind; [stable inv_other | intros ? Hs; exact Hs |];
        intros ?).
  eapply triple_bind with (Q := has_failure_time).
  - apply triple_setattr. intros self _. eexists. apply lookup_insert_eq.
  - by left.
  - intros _. eapply triple_weaken; [|intros self H; left; exact H].
    stable failure_time_other.
Qed.

Lemma reachable_inv ft rt hm nm self :
  reachable ft rt hm nm self ->
  no_recovery_timeout self /\ open_has_failure_time self.
Proof.
  induction 1 as [|self func w Hr [IH1 IH2]].
  - split; [done|]. right. unfold not_open, __init__.
    do 4 (rewrite lookup_insert_ne; [|discriminate]).
    rewrite lookup_insert_eq. congruence.
  - split; apply call_keeps;
      auto using guard_call_keeps, _on_success_keeps, _on_failure_keeps,
        guard_call_inv, _on_success_inv, _on_failure_inv.
Qed.

(** What [call] does on an open instance that has a failure time and no
    attribute [recovery_timeout]. *)
Lemma call_open_raises self t func w :
  self !! "_state" = Some (PyState OPEN) ->
  self !! "_last_failure_time" = Some (PyFloat t) ->
  self !! "recovery_timeout" = None ->
  call self func w = Outcome (inl (AttributeError "recovery_timeout")) self w.
Proof.
  intros Hst Hlast Hno. unfold call, guard_call, _should_attempt_reset.
  unfold bind, getattr, py_sub. rewrite Hst; simpl. rewrite Hlast; simpl.
  by rewrite Hno.
Qed.

(** C1 (the code departs from the claim).  On every instance built by the
    constructor and used only through [call], once the state is OPEN every
    further call, whatever the clock says (before or after the recovery
    timeout), raises [AttributeError] for the attribute
    [recovery_timeout]: it is not the breaker-open outcome, the wrapped
    function is not invoked, and the instance stays OPEN, never HALF_OPEN. *)
Theorem call_open_attribute_error ft rt hm nm self func w :
  reachable ft rt hm nm self ->
  state self = Some (PyState OPEN) ->
  call self func w = Outcome (inl (AttributeError "recovery_timeout")) self w.
Proof.
  intros Hr Hst. destruct (reachable_inv _ _ _ _ _ Hr) as [Hno Hinv].
  destruct Hinv as [[t Ht]|Hn]; [|done]. by eapply call_open_raises.
Qed.

(** ** The instances that are reachable *)

(** An instance with the constructor's attributes, in state [st], with
    failure count [fc] and last failure time [last]; the success count
    and the half-open call count are 0. *)
Definition instance (ft : Z) (rt : Q) (hm : Z) (nm : string)
    (st : CircuitState) (fc : Z) (last : pyval) : obj :=
  <["_half_open_calls" := PyInt 0]>
  (<["_last_failure_time" := last]>
  (<["_success_count" := PyInt 0]>
  (<["_failure_count" := PyInt fc]>
  (<["_state" := PyState st]>
  (<["name" := PyStr nm]>
  (<["half_open_max_calls" := PyInt hm]>
  (<["_recovery_timeout" := PyFloat rt]>
  (<["_failure_threshold" := PyInt ft]> ∅)))))))).

Section Instance.

Variables (ft : Z) (rt : Q) (hm : Z) (nm : string).

Lemma instance_state st fc last :
  instance ft rt hm nm st fc last !! "_state" = Some (PyState st).
Proof.
  unfold instance. do 4 (rewrite lookup_insert_ne; [|discriminate]).
  apply lookup_insert_eq.
Qed.

Lemma instance_failure_count st fc last :
  instance ft rt hm nm st fc last !! "_failure_count" = Some (PyInt fc).
Proof.
  unfold instance. do 3 (rewrite lookup_insert_ne; [|discriminate]).
  apply lookup_insert_eq.
Qed.

Lemma instance_success_count st fc last :
  instance ft rt hm nm st fc last !! "_success_count" = Some (PyInt 0).
Proof.
  unfold instance. do 2 (rewrite lookup_insert_ne; [|discriminate]).
  apply lookup_insert_eq.
Qed.

Lemma instance_last_failure_time st fc last :
  instance ft rt hm nm st fc last !! "_last_failure_time" = Some last.
Proof.
  unfold instance. rewrite lookup_insert_ne; [|discriminate].
  apply lookup_insert_eq.
Qed.

Lemma instance_failure_threshold st fc last :
  instance ft rt hm nm st fc last !! "_failure_threshold" = Some (PyInt ft).
Proof.
  unfold instance. do 8 (rewrite lookup_insert_ne; [|discriminate]).
  apply lookup_insert_eq.
Qed.

Lemma instance_recovery_timeout st fc last :
  instance ft rt hm nm st fc last !! "_recovery_timeout" = Some (PyFloat rt).
Proof.
  unfold instance. do 7 (rewrite lookup_insert_ne; [|discriminate]).
  apply lookup_insert_eq.
Qed.

Lemma instance_no_recovery_timeout st fc last :
  instance ft rt hm nm st fc last !! "recovery_timeout" = None.
Proof.
  unfold instance. do 9 (rewrite lookup_insert_ne; [|discriminate]).
  apply lookup_empty.
Qed.

Lemma instance_set_failure_count st fc last fc' :
  <["_failure_count" := PyInt fc']> (instance ft rt hm nm st fc last)
    = instance ft rt hm nm st fc' last.
Proof.
  unfold instance.
  rewrite (insert_insert_ne _ "_failure_count" "_half_open_calls") by done.
  rewrite (insert_insert_ne _ "_failure_count" "_last_failure_time") by done.
  rewrite (insert_insert_ne _ "_failure_count" "_success_count") by done.
  by rewrite insert_insert_eq.
Qed.

Lemma instance_set_last_failure_time st fc last last' :
  <["_last_failure_time" := last']> (instance ft rt hm nm st fc last)
    = instance ft rt hm nm st fc last'.
Proof.
  unfold instance.
  rewrite (insert_insert_ne _ "_last_failure_time" "_half_open_calls") by done.
  by rewrite insert_insert_eq.
Qed.

Lemma instance_set_state st fc last st' :
  <["_state" := PyState st']> (instance ft rt hm nm st fc last)
    = instance ft rt hm nm st' fc last.
Proof.
  unfold instance.
  rewrite (insert_insert_ne _ "_state" "_half_open_calls") by done.
  rewrite (insert_insert_ne _ "_state" "_last_failure_time") by done.
  rewrite (insert_insert_ne _ "_state" "_success_count") by done.
  rewrite (insert_insert_ne _ "_state" "_failure_count") by done.
  by rewrite insert_insert_eq.
Qed.

Lemma ge_threshold (n : Z) : Qle_bool (inject_Z ft) (inject_Z n) = (ft <=? n).
Proof.
  destruct (ft <=? n) eqn:Hle.
  - apply Qle_bool_iff. rewrite <- Zle_Qle. lia.
  - destruct (Qle_bool _ _) eqn:Hq; [|done].
    apply Qle_bool_iff in Hq. rewrite <- Zle_Qle in Hq. lia.
Qed.

(** A call on a closed instance whose function returns. *)
Lemma call_closed_returns fc last func w w' v :
  func w = (w', inr v) ->
  call (instance ft rt hm nm CLOSED fc last) func w
    = Outcome (inr v)
        (instance ft rt hm nm CLOSED (if 0 <? fc - 1 then fc - 1 else 0) last)
        w'.
Proof.
  intros Hf. unfold call, guard_call, bind, getattr.
  rewrite instance_state. cbn [is_state ret]. rewrite Hf.
  unfold _on_success, bind, getattr. rewrite instance_state.
  cbn [is_state]. rewrite instance_failure_count.
  cbn [py_pred_floor0 ret setattr]. by rewrite instance_set_failure_count.
Qed.

(** A call on a closed instance whose function raises. *)
Lemma call_closed_raises fc last func w w' e :
  func w = (w', inl e) ->
  call (instance ft rt hm nm CLOSED fc last) func w
    = Outcome (inl (FuncRaised e))
        (instance ft rt hm nm (if ft <=? fc + 1 then OPEN else CLOSED)
           (fc + 1) (PyFloat (time w')))
        w'.
Proof.
  intros Hf. unfold call, guard_call, bind, getattr.
  rewrite instance_state. cbn [is_state ret]. rewrite Hf.
  unfold _on_failure, bind, getattr. rewrite instance_failure_count.
  cbn [py_succ ret setattr]. rewrite instance_set_failure_count.
  rewrite instance_set_last_failure_time, instance_state.
  cbn [is_state]. rewrite instance_failure_count, instance_failure_threshold.
  cbn [py_ge as_num ret]. rewrite ge_threshold.
  destruct (ft <=? fc + 1); [|done].
  rewrite instance_recovery_timeout. cbn [setattr].
  by rewrite instance_set_state.
Qed.

(** A call on an open instance that has recorded a failure. *)
Lemma call_open_instance fc t func w :
  call (instance ft rt hm nm OPEN fc (PyFloat t)) func w
    = Outcome (inl (AttributeError "recovery_timeout"))
        (instance ft rt hm nm OPEN fc (PyFloat t)) w.
Proof.
  eapply call_open_raises;
    eauto using instance_state, instance_last_failure_time,
      instance_no_recovery_timeout.
Qed.

(** The shape of every reachable instance: closed and never failed, or
    closed or open with the time of its last failure; the failure count
    is not negative. *)
Definition canonical (self : obj) : Prop :=
  exists st fc last,
    self = instance ft rt hm nm st fc last /\
    0 <= fc /\
    (st = CLOSED /\ last = PyNone \/
     (st = CLOSED \/ st = OPEN) /\ exists t, last = PyFloat t).

Lemma call_canonical self func w :
  canonical self -> canonical (self_after (call self func w)).
Proof.
  intros (st & fc & last & -> & Hfc & Hst).
  assert (st = CLOSED \/ st = OPEN /\ exists t, last = PyFloat t)
    as [->|[-> [t ->]]].
  { destruct Hst as [[-> _]|[[->| ->] Ht]]; auto. }
  - destruct (func w) as [w' [e|v]] eqn:Hf.
    + rewrite (call_closed_raises _ _ _ _ _ _ Hf). cbn [self_after].
      exists (if ft <=? fc + 1 then OPEN else CLOSED), (fc + 1),
        (PyFloat (time w')).
      split; [done|]. split; [lia|]. right.
      split; [destruct (ft <=? fc + 1); auto|eauto].
    + rewrite (call_closed_returns _ _ _ _ _ _ Hf). cbn [self_after].
      exists CLOSED, (if 0 <? fc - 1 then fc - 1 else 0), last.
      split; [done|]. split; [destruct (0 <? fc - 1) eqn:Hlt; lia|].
      destruct Hst as [[_ ->]|[_ Ht]]; [left|right]; auto.
  - rewrite call_open_instance. cbn [self_after].
    exists OPEN, fc, (PyFloat t). split; [done|]. split; [done|].
    right. eauto.
Qed.

Lemma reachable_canonical self : reachable ft rt hm nm self -> canonical self.
Proof.
  induction 1 as [|self func w Hr IH].
  - exists CLOSED, 0, PyNone. split; [done|]. split; [done|]. by left.
  - by apply call_canonical.
Qed.

(** X1.  A state machine with two states: no sequence of calls brings an
    instance into HALF_OPEN. *)
Theorem reachable_never_half_open self :
  reachable ft rt hm nm self ->
  state self = Some (PyState CLOSED) \/ state self = Some (PyState OPEN).
Proof.
  intros (st & fc & last & -> & _ & Hst)%reachable_canonical.
  unfold state. rewrite instance_state.
  destruct Hst as [[-> _]|[[->| ->] _]]; auto.
Qed.

(** X2.  While the breaker is closed it is transparent to a call that
    returns: the function runs once, its result is returned, and the
    failure count goes down by one (not below zero, and not to zero). *)
Theorem call_closed_success self fc func w w' v :
  reachable ft rt hm nm self ->
  state self = Some (PyState CLOSED) ->
  self !! "_failure_count" = Some (PyInt fc) ->
  func w = (w', inr v) ->
  call self func w
    = Outcome (inr v) (<["_failure_count" := PyInt (Z.max 0 (fc - 1))]> self) w'.
Proof.
  intros (st & fc0 & last & -> & _ & _)%reachable_canonical Hst Hfc Hf.
  unfold state in Hst. rewrite instance_state in Hst.
  rewrite instance_failure_count in Hfc.
  injection Hst as ->. injection Hfc as ->.
  rewrite (call_closed_returns _ _ _ _ _ _ Hf), instance_set_failure_count.
  do 2 f_equal. destruct (0 <? fc - 1) eqn:Hlt; lia.
Qed.

(** X3.  While the breaker is closed, a call that raises runs the function
    once and passes its exception on; the failure is counted and timed,
    and the breaker opens exactly when the count reaches the threshold. *)
Theorem call_closed_failure self fc func w w' e :
  reachable ft rt hm nm self ->
  state self = Some (PyState CLOSED) ->
  self !! "_failure_count" = Some (PyInt fc) ->
  func w = (w', inl e) ->
  let o := call self func w in
  result o = inl (FuncRaised e) /\
  world_after o = w' /\
  self_after o !! "_failure_count" = Some (PyInt (fc + 1)) /\
  self_after o !! "_last_failure_time" = Some (PyFloat (time w')) /\
  state (self_after o)
    = Some (PyState (if ft <=? fc + 1 then OPEN else CLOSED)).
Proof.
  intros (st & fc0 & last & -> & _ & _)%reachable_canonical Hst Hfc Hf.
  unfold state in Hst. rewrite instance_state in Hst.
  rewrite instance_failure_count in Hfc.
  injection Hst as ->. injection Hfc as ->.
  cbv zeta. rewrite (call_closed_raises _ _ _ _ _ _ Hf).
  cbn [result world_after self_after]. unfold state.
  by rewrite instance_failure_count, instance_last_failure_time,
    instance_state.
Qed.

Lemma calls_open n fc t func w :
  calls n (instance ft rt hm nm OPEN fc (PyFloat t)) func w
    = (instance ft rt hm nm OPEN fc (PyFloat t), w).
Proof.
  induction n as [|n IH]; [done|].
  cbn [calls]. by rewrite call_open_instance.
Qed.

Lemma calls_closed_failing n fc last func w :
  (forall w, exists e, (func w).2 = inl e) ->
  0 <= fc < ft ->
  (calls n (instance ft rt hm nm CLOSED fc last) func w).2
    = Nat.iter (Nat.min n (Z.to_nat (ft - fc))) (fun w => (func w).1) w.
Proof.
  intros Hfail. revert fc last w.
  induction n as [|n IH]; intros fc last w Hfc; [done|].
  destruct (func w) as [w' r] eqn:Hf.
  destruct (Hfail w) as [e He]. rewrite Hf in He. cbn [snd] in He. subst r.
  cbn [calls]. rewrite (call_closed_raises _ _ _ _ _ _ Hf).
  cbn [self_after world_after].
  replace (Z.to_nat (ft - fc)) with (S (Z.to_nat (ft - (fc + 1)))) by lia.
  rewrite <- Nat.succ_min_distr, Nat.iter_succ_r, Hf. cbn [fst].
  destruct (ft <=? fc + 1) eqn:Hle.
  - rewrite calls_open. replace (Z.to_nat (ft - (fc + 1))) with O by lia.
    by rewrite Nat.min_0_r.
  - apply IH. lia.
Qed.

(** X4.  A breaker fresh from the constructor, with a threshold of at least
    one, around a function that raises every time: of [n] calls in a
    row, the first [failure_threshold] run the function, and no later
    one does. *)
Theorem failing_calls_run_threshold_times n func w :
  1 <= ft ->
  (forall w, exists e, (func w).2 = inl e) ->
  (calls n (__init__ ft rt hm nm) func w).2
    = Nat.iter (Nat.min n (Z.to_nat ft)) (fun w => (func w).1) w.
Proof.
  intros Hft Hfail.
  change (__init__ ft rt hm nm) with (instance ft rt hm nm CLOSED 0 PyNone).
  rewrite calls_closed_failing by (done || lia).
  by rewrite Z.sub_0_r.
Qed.

Lemma _get_retry_after_instance now st fc last :
  _get_retry_after now (instance ft rt hm nm st fc last)
    = match last with
      | PyNone => (inr 0%Q, instance ft rt hm nm st fc last)
      | PyFloat _ | PyInt _ =>
          (inl (AttributeError "recovery_timeout"),
           instance ft rt hm nm st fc last)
      | _ => (inl TypeError, instance ft rt hm nm st fc last)
      end.
Proof.
  unfold _get_retry_after, bind, getattr.
  rewrite instance_last_failure_time.
  destruct last; cbn [py_sub as_num ret raise]; try done;
    by rewrite instance_no_recovery_timeout.
Qed.

(** X5.  The [metrics] property works until the first failure is recorded
    (the retry delay is then 0); from then on, reading it raises
    [AttributeError] for [recovery_timeout]. *)
Theorem metrics_after_failure self now :
  reachable ft rt hm nm self ->
  match self !! "_last_failure_time" with
  | Some PyNone =>
      exists m, metrics now self = (inr m, self) /\
                m_retry_after m = 0%Q /\
                m_last_failure m = PyNone
  | _ => metrics now self = (inl (AttributeError "recovery_timeout"), self)
  end.
Proof.
  intros (st & fc & last & -> & _ & Hst)%reachable_canonical.
  rewrite instance_last_failure_time.
  unfold metrics, bind, getattr.
  rewrite instance_state.
  assert (exists value,
    state_value (PyState st) (instance ft rt hm nm st fc last)
      = (inr value, instance ft rt hm nm st fc last)) as [value ->].
  { destruct Hst as [[-> _]|[[->| ->] _]]; by eexists. }
  rewrite instance_failure_count, instance_success_count,
    instance_last_failure_time, _get_retry_after_instance.
  destruct Hst as [[_ ->]|[_ [t ->]]]; [by eexists|done].
Qed.

End Instance.

End Breaker.

(** A concrete run: threshold 1, recovery timeout 60 s.  The world is the
    clock; the wrapped function always raises. *)
Definition always_fails : Q -> Q * (unit + unit) := fun w => (w, inl tt).

Definition tripped_breaker : gmap string pyval :=
  self_after (call id (__init__ 1 60 3 "test") always_fails 0%Q).

Lemma call_open_attribute_error_witness :
  state tripped_breaker = Some (PyState OPEN) /\
  call id tripped_breaker always_fails 10%Q
    = Outcome (inl (AttributeError "recovery_timeout")) tripped_breaker 10%Q /\
  call id tripped_breaker always_fails 100%Q
    = Outcome (inl (AttributeError "recovery_timeout")) tripped_breaker 100%Q.
Proof.
  assert (Hr : reachable id 1 60 3 "test" tripped_breaker)
    by (apply reach_call, reach_init).
  assert (Hst : state tripped_breaker = Some (PyState OPEN))
    by (vm_compute; reflexivity).
  split; [exact Hst|].
  split; exact (call_open_attribute_error id 1 60 3 "test" _ _ _ Hr Hst).
Defined.

(** A breaker with threshold 3 around a function that counts its calls
    in the world and raises, or returns, every time. *)
Definition counts_and_fails : nat -> nat * (unit + unit) :=
  fun n => (S n, inl tt).

Definition counts_and_returns : nat -> nat * (unit + unit) :=
  fun n => (S n, inr tt).

Definition seconds (n : nat) : Q := inject_Z (Z.of_nat n).

Definition fresh_breaker : gmap string pyval := __init__ 3 60 3 "test".

(** After one failure. *)
Definition failed_once : gmap string pyval :=
  self_after (call seconds fresh_breaker counts_and_fails 0%nat).

Lemma reachable_never_half_open_witness :
  state tripped_breaker = Some (PyState CLOSED) \/
  state tripped_breaker = Some (PyState OPEN).
Proof.
  apply (reachable_never_half_open (E := unit) (R := unit) id 1 60 3 "test").
  apply reach_call, reach_init.
Defined.

Lemma call_closed_success_witness :
  call seconds failed_once counts_and_returns 1%nat
    = Outcome (inr tt)
        (<["_failure_count" := PyInt (Z.max 0 (1 - 1))]> failed_once) 2%nat.
Proof.
  apply (call_closed_success seconds 3 60 3 "test").
  - apply reach_call, reach_init.
  - vm_compute. reflexivity.
  - vm_compute. reflexivity.
  - reflexivity.
Defined.

Lemma call_closed_failure_witness :
  result (call seconds failed_once counts_and_fails 1%nat)
    = inl (FuncRaised tt) /\
  world_after (call seconds failed_once counts_and_fails 1%nat) = 2%nat /\
  self_after (call seconds failed_once counts_and_fails 1%nat)
    !! "_failure_count" = Some (PyInt (1 + 1)) /\
  self_after (call seconds failed_once counts_and_fails 1%nat)
    !! "_last_failure_time" = Some (PyFloat (seconds 2)) /\
  state (self_after (call seconds failed_once counts_and_fails 1%nat))
    = Some (PyState (if 3 <=? 1 + 1 then OPEN else CLOSED)).
Proof.
  apply (call_closed_failure seconds 3 60 3 "test").
  - apply reach_call, reach_init.
  - vm_compute. reflexivity.
  - vm_compute. reflexivity.
  - reflexivity.
Defined.

Lemma failing_calls_run_threshold_times_witness :
  (calls seconds 10 fresh_breaker counts_and_fails 0%nat).2 = 3%nat.
Proof.
  apply (failing_calls_run_threshold_times seconds 3 60 3 "test" 10
           counts_and_fails 0%nat).
  - lia.
  - intros w. by exists tt.
Defined.

Lemma metrics_after_failure_witness :
  metrics (E := unit) 10 failed_once
    = (inl (AttributeError "recovery_timeout"), failed_once).
Proof.
  apply (metrics_after_failure seconds 3 60 3 "test" failed_once 10
           (reach_call seconds 3 60 3 "test" _ counts_and_fails 0%nat
              (reach_init seconds 3 60 3 "test"))).
Defined.

End CircuitBreaker.

(* ===================================================================== *)
(** * retry_utils.py *)
(* ===================================================================== *)

Module RetryUtils.

(** ** Floats

    A float is the rational it stands for.  Two operations of this module
    raise [OverflowError] when their result leaves the range of the
    floats, and [time.sleep] raises on a length it cannot hold. *)

(** [sys.float_info.max] *)
Definition float_max : Q := inject_Z ((2 ^ 53 - 1) * 2 ^ 971).

Definition in_float_range (x : Q) : bool := Qle_bool (Qabs x) float_max.

(** [x ** n] for a float [x] and an int [n], [n >= 0]: nothing where
    Python raises [OverflowError] (numerical result out of range). *)
Definition float_pow (x : Q) (n : Z) : option Q :=
  let r := (x ^ n)%Q in
  if in_float_range r then Some r else None.

(** [float(n)], which [x * n] applies to an int [n] when [x] is a float:
    nothing where Python raises [OverflowError] (int too large to convert
    to float). *)
Definition float_of_int (n : Z) : option Q :=
  let r := inject_Z n in
  if in_float_range r then Some r else None.

(** The longest sleep, in seconds: [time.sleep] holds the length as a
    signed 64-bit number of nanoseconds. *)
Definition sleep_max : Q := (2 ^ 63 - 1) # (10 ^ 9).

Section Retry.

(** [S]: the state the wrapped function acts on; [E]: the exceptions it
    raises; [R]: its results. *)
Context {S E R : Type}.

(** What leaves [wrapper] as an exception. *)
Inductive exn :=
| Raised (e : E)           (* [raise last_exception], from the function *)
| CallbackRaised (e : E)   (* raised inside [on_retry] *)
| ValueError               (* [time.sleep] of a negative length *)
| OverflowError            (* a power or a conversion that leaves the
                              floats, or [time.sleep] of too long a length *)
| TypeError.               (* [raise None] *)

(** What the wrapper does, in order. *)
Inductive event :=
| Invoked (attempt : Z)
| Notified (attempt : Z) (e : E) (sleep_time : Q)
| Slept (sleep_time : Q).

(** The decorator's arguments. *)
Variable max_retries : Z.
Variables base_delay max_delay exponential_base : Q.
(** [isinstance(e, exceptions)]: the retriable failure kinds. *)
Variable exceptions : E -> bool.
(** [on_retry]: absent, or a callback that returns ([None]) or raises. *)
Variable on_retry : option (Z -> E -> Q -> option E).
(** [random.uniform(a, b)] as drawn at a given attempt. *)
Variable uniform : Z -> Q -> Q -> Q.
(** The wrapped function: a transition that returns or raises. *)
Variable func : S -> S * (E + R).

Definition raise_last (last_exception : option E) : exn :=
  match last_exception with
  | Some e => Raised e
  | None => TypeError
  end.

(** [time.sleep(t)]: what it raises, if anything.  The length is
    converted to nanoseconds first, then tested for its sign. *)
Definition time_sleep (t : Q) : option exn :=
  if negb (Qle_bool (Qabs t) sleep_max) then Some OverflowError
  else if Qle_bool 0 t then None
  else Some ValueError.

(** [delay = min(base_delay * (exponential_base ** attempt), max_delay)]:
    the power is evaluated first, so it can overflow however small
    [max_delay] is; nothing where it does. *)
Definition delay (attempt : Z) : option Q :=
  match float_pow exponential_base attempt with
  | Some power => Some (Qmin (base_delay * power) max_delay)
  | None => None
  end.

(** [sleep_time = delay + random.uniform(0, delay * 0.1)] *)
Definition sleep_time (attempt : Z) (delay : Q) : Q :=
  (delay + uniform attempt 0 (delay * (1 # 10)))%Q.

(** [if on_retry: on_retry(attempt + 1, e, sleep_time)]: what the
    callback raises, if anything, and the event it leaves. *)
Definition notify (attempt : Z) (e : E) (t : Q) : option E :=
  match on_retry with
  | Some callback => callback (attempt + 1) e t
  | None => None
  end.

Definition notification (attempt : Z) (e : E) (t : Q) : list event :=
  match on_retry with
  | Some _ => [Notified (attempt + 1) e t]
  | None => []
  end.

(** The body of [for attempt in range(max_retries + 1)]; [remaining]
    counts the iterations left in the range. *)
Fixpoint attempts (remaining : nat) (attempt : Z) (last_exception : option E)
    (s : S) (tr : list event) : (exn + R) * S * list event :=
  match remaining with
  | O => (inl (raise_last last_exception), s, tr)   (* after the loop *)
  | Datatypes.S remaining' =>
      let '(s', r) := func s in
      let tr := tr ++ [Invoked attempt] in
      match r with
      | inr v => (inr v, s', tr)
      | inl e =>
          if exceptions e then
            if attempt >=? max_retries then (inl (Raised e), s', tr)
            else
              match delay attempt with
              | None => (inl OverflowError, s', tr)
              | Some d =>
                  let t := sleep_time attempt d in
                  let tr := tr ++ notification attempt e t in
                  match notify attempt e t with
                  | Some e' => (inl (CallbackRaised e'), s', tr)
                  | None =>
                      match time_sleep t with
                      | Some ex => (inl ex, s', tr)
                      | None =>
                          attempts remaining' (attempt + 1) (Some e) s'
                            (tr ++ [Slept t])
                      end
                  end
              end
          else (inl (Raised e), s', tr)
      end
  end.

(** The [wrapper] that [retry_with_backoff(...)(func)] returns, called. *)
Definition wrapper (s : S) : (exn + R) * S * list event :=
  attempts (Z.to_nat (max_retries + 1)) 0 None s [].

Definition is_invoked (ev : event) : bool :=
  match ev with Invoked _ => true | _ => false end.

Definition is_slept (ev : event) : bool :=
  match ev with Slept _ => true | _ => false end.

Definition invocations (tr : list event) : nat :=
  length (filter (fun ev => is_invoked ev = true) tr).

Definition sleeps (tr : list event) : nat :=
  length (filter (fun ev => is_slept ev = true) tr).

(** The state before the [n]-th invocation (counting from 0). *)
Fixpoint state_before (n : nat) (s : S) : S :=
  match n with
  | O => s
  | Datatypes.S n' => state_before n' (func s).1
  end.

(** The durations slept, in order. *)
Definition slept (tr : list event) : list Q :=
  omap (fun ev => match ev with Slept t => Some t | _ => None end) tr.

(** [base_delay * (2 ** k)], the delay of [retry_call] and of
    [RetryContext]: for [k >= 0] the power is an int, which the product
    converts to a float; nothing where the conversion overflows. *)
Definition doubling_delay (k : Z) : option Q :=
  let power := if k <? 0 then Some (2 ^ k)%Q else float_of_int (2 ^ k) in
  match power with
  | Some power => Some (base_delay * power)%Q
  | None => None
  end.

(** [retry_call(func, max_retries=..., base_delay=..., exceptions=...)]:
    the body of its loop.  The delay doubles from [base_delay], with no
    cap and no jitter; a call that falls off the loop returns [None]. *)
Fixpoint call_attempts (remaining : nat) (attempt : Z) (s : S)
    (tr : list event) : (exn + option R) * S * list event :=
  match remaining with
  | O => (inr None, s, tr)
  | Datatypes.S remaining' =>
      let '(s', r) := func s in
      let tr := tr ++ [Invoked attempt] in
      match r with
      | inr v => (inr (Some v), s', tr)
      | inl e =>
          if exceptions e then
            if attempt >=? max_retries then (inl (Raised e), s', tr)
            else
              match doubling_delay attempt with
              | None => (inl OverflowError, s', tr)
              | Some d =>
                  match time_sleep d with
                  | Some ex => (inl ex, s', tr)
                  | None =>
                      call_attempts remaining' (attempt + 1) s'
                        (tr ++ [Slept d])
                  end
              end
          else (inl (Raised e), s', tr)
      end
  end.

Definition retry_call (s : S) : (exn + option R) * S * list event :=
  call_attempts (Z.to_nat (max_retries + 1)) 0 s [].

(** [class RetryContext]: the two attributes that change. *)
Record RetryContext := {
  rc_attempts : Z;
  rc_last_exception : option E
}.

(** [RetryContext.__enter__] *)
Definition __enter__ (self : RetryContext) : RetryContext :=
  {| rc_attempts := 0; rc_last_exception := rc_last_exception self |}.

(** [RetryContext.__exit__(exc_type, exc_val, exc_tb)]: what it returns
    (true: the exception is suppressed), the instance, and the sleep. *)
Definition __exit__ (exc : option E) (self : RetryContext)
    : (exn + bool) * RetryContext * list event :=
  match exc with
  | None => (inr true, self, [])
  | Some e =>
      if negb (exceptions e) then (inr false, self, [])
      else
        let self := {| rc_attempts := rc_attempts self + 1;
                       rc_last_exception := Some e |} in
        if rc_attempts self >? max_retries then (inr false, self, [])
        else
          match doubling_delay (rc_attempts self - 1) with
          | None => (inl OverflowError, self, [])
          | Some d =>
              match time_sleep d with
              | Some ex => (inl ex, self, [])
              | None => (inr true, self, [Slept d])
              end
          end
  end.

(** [with ctx: func()], [n] times in a row (the body of a retry loop):
    the exception that leaves a block, if one does, the instance, the
    state and the sleeps. *)
Fixpoint with_blocks (n : nat) (self : RetryContext) (s : S)
    (tr : list event) : option exn * RetryContext * S * list event :=
  match n with
  | O => (None, self, s, tr)
  | Datatypes.S n' =>
      let self := __enter__ self in
      let '(s', r) := func s in
      let tr := tr ++ [Invoked (Z.of_nat n')] in
      let exc := match r with inl e => Some e | inr _ => None end in
      match __exit__ exc self with
      | (inl ex, self, sl) => (Some ex, self, s', tr ++ sl)
      | (inr true, self, sl) => with_blocks n' self s' (tr ++ sl)
      | (inr false, self, sl) =>
          match exc with
          | Some e => (Some (Raised e), self, s', tr ++ sl)
          | None => with_blocks n' self s' (tr ++ sl)
          end
      end
  end.

(** ** Properties *)

Lemma invocations_app tr1 tr2 :
  invocations (tr1 ++ tr2) = (invocations tr1 + invocations tr2)%nat.
Proof. unfold invocations. by rewrite filter_app, length_app. Qed.

Lemma sleeps_app tr1 tr2 :
  sleeps (tr1 ++ tr2) = (sleeps tr1 + sleeps tr2)%nat.
Proof. unfold sleeps. by rewrite filter_app, length_app. Qed.

Lemma slept_app tr1 tr2 : slept (tr1 ++ tr2) = slept tr1 ++ slept tr2.
Proof. apply omap_app. Qed.

Lemma notification_no_sleep attempt e x t :
  Slept t ∉ notification attempt e x.
Proof.
  unfold notification. destruct on_retry.
  - by intros H%list_elem_of_singleton.
  - apply not_elem_of_nil.
Qed.

Lemma notification_invocations attempt e t :
  invocations (notification attempt e t) = 0%nat.
Proof. unfold notification. by destruct on_retry. Qed.

Lemma notification_sleeps attempt e t :
  sleeps (notification attempt e t) = 0%nat.
Proof. unfold notification. by destruct on_retry. Qed.

Lemma float_pow_in_range x n :
  (0 <= x)%Q -> (x ^ n <= float_max)%Q -> float_pow x n = Some (x ^ n)%Q.
Proof.
  intros Hx Hle. unfold float_pow, in_float_range.
  assert (Qle_bool (Qabs (x ^ n)) float_max = true) as ->; [|done].
  apply Qle_bool_iff. rewrite Qabs_pos; [done|]. by apply Qpower_0_le.
Qed.

Lemma float_pow_overflow x n :
  (0 <= x)%Q -> (float_max < x ^ n)%Q -> float_pow x n = None.
Proof.
  intros Hx Hlt. unfold float_pow, in_float_range.
  destruct (Qle_bool (Qabs (x ^ n)) float_max) eqn:Hle; [|done].
  apply Qle_bool_iff in Hle. rewrite Qabs_pos in Hle by by apply Qpower_0_le.
  by apply Qlt_not_le in Hlt.
Qed.

Lemma pow2_nonneg k : (0 <= inject_Z (2 ^ k))%Q.
Proof.
  replace 0%Q with (inject_Z 0) by done. rewrite <- Zle_Qle.
  apply Z.pow_nonneg. lia.
Qed.

(** The powers of two up to [2 ** 1023] are floats. *)
Lemma float_of_int_pow2 k :
  k <= 1023 -> float_of_int (2 ^ k) = Some (inject_Z (2 ^ k)).
Proof.
  intros Hk. unfold float_of_int, in_float_range.
  assert (Qle_bool (Qabs (inject_Z (2 ^ k))) float_max = true) as ->; [|done].
  apply Qle_bool_iff. rewrite Qabs_pos by apply pow2_nonneg.
  unfold float_max. rewrite <- Zle_Qle.
  destruct (decide (0 <= k)) as [H0|H0].
  - transitivity (2 ^ 1023); [by apply Z.pow_le_mono_r|].
    apply Z.leb_le. by vm_compute.
  - rewrite Z.pow_neg_r by lia. apply Z.leb_le. by vm_compute.
Qed.

(** From [2 ** 1024] on they are not. *)
Lemma float_of_int_pow2_overflow k :
  1024 <= k -> float_of_int (2 ^ k) = None.
Proof.
  intros Hk. unfold float_of_int, in_float_range.
  destruct (Qle_bool (Qabs (inject_Z (2 ^ k))) float_max) eqn:Hle; [|done].
  apply Qle_bool_iff in Hle. rewrite Qabs_pos in Hle by apply pow2_nonneg.
  unfold float_max in Hle. rewrite <- Zle_Qle in Hle.
  assert (2 ^ 1024 <= 2 ^ k) as Hpow by (apply Z.pow_le_mono_r; lia).
  assert ((2 ^ 53 - 1) * 2 ^ 971 < 2 ^ 1024) as Hmax
    by (apply Z.ltb_lt; by vm_compute).
  lia.
Qed.

Lemma time_sleep_accepts t :
  (0 <= t)%Q -> (t <= sleep_max)%Q -> time_sleep t = None.
Proof.
  intros H0 Hmax. unfold time_sleep.
  assert (Qle_bool (Qabs t) sleep_max = true) as ->.
  { apply Qle_bool_iff. by rewrite Qabs_pos. }
  assert (Qle_bool 0 t = true) as -> by by apply Qle_bool_iff.
  done.
Qed.

Lemma time_sleep_nonneg t : time_sleep t = None -> (0 <= t)%Q.
Proof.
  unfold time_sleep. destruct (negb _); [done|].
  destruct (Qle_bool 0 t) eqn:H0; [|done]. intros _. by apply Qle_bool_iff.
Qed.

(** The decorator is used as intended: a retry count that is not
    negative, delays that are not negative, a random source that stays in
    its interval, a callback that returns, and a longest sleep that
    [time.sleep] accepts. *)
Hypothesis max_retries_nonneg : 0 <= max_retries.
Hypothesis base_delay_nonneg : (0 <= base_delay)%Q.
Hypothesis exponential_base_nonneg : (0 <= exponential_base)%Q.
Hypothesis max_delay_nonneg : (0 <= max_delay)%Q.
Hypothesis uniform_lower : forall k a b, (a <= b)%Q -> (a <= uniform k a b)%Q.
Hypothesis uniform_upper : forall k a b, (a <= b)%Q -> (uniform k a b <= b)%Q.
Hypothesis on_retry_returns :
  forall callback, on_retry = Some callback ->
  forall n e t, callback n e t = None.
Hypothesis max_delay_sleepable : (max_delay * (11 # 10) <= sleep_max)%Q.

(** The powers [exponential_base ** attempt] for the attempts below [n]
    are floats. *)
Definition powers_in_range (n : Z) : Prop :=
  forall attempt, 0 <= attempt < n ->
  (exponential_base ^ attempt <= float_max)%Q.

(** [time.sleep] accepts the delays [base_delay * 2 ** i] for [i] below
    [n]. *)
Definition doubling_sleepable (n : Z) : Prop :=
  forall i, 0 <= i < n -> (base_delay * inject_Z (2 ^ i) <= sleep_max)%Q.

Lemma delay_in_range attempt :
  (exponential_base ^ attempt <= float_max)%Q ->
  delay attempt
    = Some (Qmin (base_delay * exponential_base ^ attempt) max_delay).
Proof using exponential_base_nonneg.
  intros Hle. unfold delay. by rewrite float_pow_in_range.
Qed.

Lemma delay_overflow attempt :
  (float_max < exponential_base ^ attempt)%Q -> delay attempt = None.
Proof using exponential_base_nonneg.
  intros Hlt. unfold delay. by rewrite float_pow_overflow.
Qed.

Lemma delay_bounds attempt d :
  delay attempt = Some d -> (0 <= d <= max_delay)%Q.
Proof using base_delay_nonneg exponential_base_nonneg max_delay_nonneg.
  unfold delay, float_pow. destruct (in_float_range _); [|done].
  intros [= <-]. split; [|apply Q.le_min_r].
  apply Q.min_glb; [|done].
  apply Qmult_le_0_compat; [done|]. by apply Qpower_0_le.
Qed.

Lemma sleep_time_lower attempt d :
  (0 <= d)%Q -> (0 <= sleep_time attempt d)%Q.
Proof using uniform_lower.
  intros Hd. unfold sleep_time.
  assert (0 <= uniform attempt 0 (d * (1 # 10)))%Q
    by (apply uniform_lower; lra).
  lra.
Qed.

Lemma sleep_time_upper attempt d :
  (0 <= d <= max_delay)%Q ->
  (sleep_time attempt d <= max_delay * (11 # 10))%Q.
Proof using uniform_upper.
  intros [Hd Hmax]. unfold sleep_time.
  assert (uniform attempt 0 (d * (1 # 10)) <= d * (1 # 10))%Q
    by (apply uniform_upper; lra).
  lra.
Qed.

Lemma sleep_accepted attempt d :
  delay attempt = Some d -> time_sleep (sleep_time attempt d) = None.
Proof using base_delay_nonneg exponential_base_nonneg max_delay_nonneg
  uniform_lower uniform_upper max_delay_sleepable.
  intros Hd%delay_bounds. apply time_sleep_accepts.
  - apply sleep_time_lower. by destruct Hd.
  - eapply Qle_trans; [by apply sleep_time_upper|done].
Qed.

Lemma notify_returns attempt e t : notify attempt e t = None.
Proof using on_retry_returns.
  unfold notify. destruct on_retry as [callback|] eqn:Hcb; [|done].
  by apply on_retry_returns.
Qed.

(** A function that fails with a retriable exception in every state. *)
Definition always_retriable : Prop :=
  forall s, exists e, (func s).2 = inl e /\ exceptions e = true.

(** One turn of the loop whose invocation fails with a retriable
    exception, before the last attempt, with a delay that is a float:
    the wrapper sleeps and goes on. *)
Lemma attempts_retry remaining attempt last s tr e :
  func s = ((func s).1, inl e) ->
  exceptions e = true ->
  0 <= attempt < max_retries ->
  (exponential_base ^ attempt <= float_max)%Q ->
  exists t,
    attempts (Datatypes.S remaining) attempt last s tr
      = attempts remaining (attempt + 1) (Some e) (func s).1
          (((tr ++ [Invoked attempt]) ++ notification attempt e t)
             ++ [Slept t]).
Proof using base_delay_nonneg exponential_base_nonneg max_delay_nonneg
  uniform_lower uniform_upper max_delay_sleepable on_retry_returns.
  intros Hf Hex Hattempt Hpow. cbn [attempts]. rewrite Hf, Hex.
  replace (attempt >=? max_retries) with false
    by (symmetry; rewrite Z.geb_leb; apply Z.leb_gt; lia).
  pose proof (delay_in_range attempt Hpow) as Hd. rewrite Hd.
  rewrite notify_returns, (sleep_accepted attempt _ Hd). by eexists.
Qed.



(** The function fails with a retriable exception on each of its first
    [k] invocations from [s]. *)
Definition fails_first (k : nat) (s : S) : Prop :=
  forall i, (i < k)%nat ->
  exists e, (func (state_before i s)).2 = inl e /\ exceptions e = true.

Lemma fails_first_next k s :
  fails_first (Datatypes.S k) s -> fails_first k (func s).1.
Proof using Type. intros H i Hi. apply (H (Datatypes.S i)). lia. Qed.

Lemma attempts_succeed (k : nat) v :
  forall remaining attempt last s tr,
  (k < remaining)%nat ->
  0 <= attempt ->
  attempt + Z.of_nat k <= max_retries ->
  powers_in_range (attempt + Z.of_nat k) ->
  fails_first k s ->
  (func (state_before k s)).2 = inr v ->
  exists tr',
    attempts remaining attempt last s tr
      = (inr v, state_before (Datatypes.S k) s, tr ++ tr') /\
    invocations tr' = Datatypes.S k /\
    sleeps tr' = k.
Proof.
  induction k as [|k IH];
    intros remaining attempt last s tr Hrem H0 Hk Hpow Hfail Hv;
    (destruct remaining as [|remaining]; [lia|]).
  - cbn [attempts state_before]. cbn [state_before] in Hv.
    destruct (func s) as [s' r]; cbn [fst snd] in *; subst r.
    by exists [Invoked attempt].
  - destruct (Hfail 0%nat ltac:(lia)) as (e & He & Hex).
    cbn [state_before] in He, Hv. apply fails_first_next in Hfail.
    destruct (attempts_retry remaining attempt last s tr e) as [t ->];
      [by destruct (func s) as [s' r]; simpl in *; subst r | done | lia
      | apply Hpow; lia |].
    edestruct (IH remaining (attempt + 1) (Some e) (func s).1)
      as (tr' & Hrun & Hi & Hs); [lia|lia|lia| |done|done|].
    { intros i Hi. apply Hpow. lia. }
    rewrite Hrun. eexists. split.
    { rewrite <- !app_assoc. reflexivity. }
    rewrite !invocations_app, !sleeps_app, Hi, Hs.
    by rewrite notification_invocations, notification_sleeps.
Qed.

(** X6.  A call that fails with retriable exceptions [k] times, with [k]
    within the retry budget, and then returns: the wrapper returns that
    value after [k + 1] invocations and [k] sleeps, and stops there;
    this for powers [exponential_base ** attempt] that stay within the
    floats at the [k] attempts that failed. *)
Theorem retry_returns_first_success (s : S) (k : nat) (v : R) :
  Z.of_nat k <= max_retries ->
  powers_in_range (Z.of_nat k) ->
  fails_first k s ->
  (func (state_before k s)).2 = inr v ->
  exists tr,
    wrapper s = (inr v, state_before (Datatypes.S k) s, tr) /\
    invocations tr = Datatypes.S k /\
    sleeps tr = k.
Proof.
  intros Hk Hpow Hfail Hv. unfold wrapper.
  destruct (attempts_succeed k v (Z.to_nat (max_retries + 1)) 0 None s [])
    as (tr' & Hrun & Hi & Hs); [lia|lia|lia|done|done|done|].
  by exists tr'.
Qed.

Lemma attempts_overflow (a : nat) :
  always_retriable ->
  forall attempt last s tr,
  0 <= attempt ->
  attempt + Z.of_nat a < max_retries ->
  powers_in_range (attempt + Z.of_nat a) ->
  (float_max < exponential_base ^ (attempt + Z.of_nat a))%Q ->
  forall remaining, (a < remaining)%nat ->
  exists tr',
    attempts remaining attempt last s tr
      = (inl OverflowError, state_before (Datatypes.S a) s, tr ++ tr') /\
    invocations tr' = Datatypes.S a /\
    sleeps tr' = a.
Proof.
  intros Hfail. induction a as [|a IH];
    intros attempt last s tr H0 Ha Hpow Hover remaining Hrem;
    (destruct remaining as [|remaining]; [lia|]).
  - destruct (Hfail s) as [e [He Hex]].
    exists [Invoked attempt]. cbn [attempts state_before].
    destruct (func s) as [s' r]; simpl in *; subst r.
    rewrite Hex. replace (attempt >=? max_retries) with false
      by (symmetry; rewrite Z.geb_leb; apply Z.leb_gt; lia).
    rewrite Z.add_0_r in Hover. by rewrite (delay_overflow attempt Hover).
  - destruct (Hfail s) as [e [He Hex]].
    destruct (attempts_retry remaining attempt last s tr e) as [t ->];
      [by destruct (func s) as [s' r]; simpl in *; subst r | done | lia
      | apply Hpow; lia |].
    edestruct (IH (attempt + 1) (Some e) (func s).1)
      as (tr' & Hrun & Hi & Hs); [lia|lia| | |by apply Nat.succ_lt_mono|].
    { intros i Hi. apply Hpow. lia. }
    { by replace (attempt + 1 + Z.of_nat a)
        with (attempt + Z.of_nat (Datatypes.S a)) by lia. }
    rewrite Hrun. eexists. split.
    { rewrite <- !app_assoc. reflexivity. }
    rewrite !invocations_app, !sleeps_app, Hi, Hs.
    by rewrite notification_invocations, notification_sleeps.
Qed.

(** The first power that leaves the floats ends the retries: the caller
    gets [OverflowError] after [a + 1] invocations, whatever [max_delay]
    is, since the power is evaluated before it is capped. *)
Theorem power_overflow_ends_retries (s : S) (a : nat) :
  always_retriable ->
  Z.of_nat a < max_retries ->
  powers_in_range (Z.of_nat a) ->
  (float_max < exponential_base ^ Z.of_nat a)%Q ->
  exists tr,
    wrapper s = (inl OverflowError, state_before (Datatypes.S a) s, tr) /\
    invocations tr = Datatypes.S a /\
    sleeps tr = a.
Proof.
  intros Hfail Ha Hpow Hover. unfold wrapper.
  destruct (attempts_overflow a Hfail 0 None s [] ltac:(lia) ltac:(lia)
              Hpow Hover (Z.to_nat (max_retries + 1)) ltac:(lia))
    as (tr' & Hrun & Hi & Hs).
  by exists tr'.
Qed.

Lemma attempts_sleep_bounds remaining :
  forall attempt last s tr t,
  Slept t ∈ (attempts remaining attempt last s tr).2 ->
  Slept t ∈ tr \/ (0 <= t <= max_delay * (11 # 10))%Q.
Proof using base_delay_nonneg exponential_base_nonneg max_delay_nonneg
  uniform_upper.
  induction remaining as [|remaining IH]; intros attempt last s tr t;
    cbn [attempts]; [by left|].
  destruct (func s) as [s' [e|v]].
  2:{ cbn [snd]. intros [H|H%list_elem_of_singleton]%elem_of_app;
        [by left|done]. }
  assert (Slept t ∈ tr ++ [Invoked attempt] -> Slept t ∈ tr) as Hinv.
  { by intros [H|H%list_elem_of_singleton]%elem_of_app. }
  destruct (exceptions e); [|cbn [snd]; intros H; left; by apply Hinv].
  destruct (attempt >=? max_retries);
    [cbn [snd]; intros H; left; by apply Hinv|].
  destruct (delay attempt) as [d|] eqn:Hd;
    [|cbn [snd]; intros H; left; by apply Hinv].
  assert (Slept t ∈ (tr ++ [Invoked attempt])
                      ++ notification attempt e (sleep_time attempt d)
          -> Slept t ∈ tr) as Hnote.
  { intros [H|H]%elem_of_app; [by apply Hinv|].
    by apply notification_no_sleep in H. }
  destruct (notify attempt e (sleep_time attempt d));
    [cbn [snd]; intros H; left; by apply Hnote|].
  destruct (time_sleep (sleep_time attempt d)) as [ex|] eqn:Hsleep;
    [cbn [snd]; intros H; left; by apply Hnote|].
  intros H. apply IH in H as [H|H]; [|by right].
  apply elem_of_app in H as [H|H%list_elem_of_singleton]; [left; by apply Hnote|].
  injection H as ->. right. split.
  - by apply time_sleep_nonneg.
  - apply sleep_time_upper. by eapply delay_bounds.
Qed.

(** X7.  No sleep is negative, and none is longer than [max_delay] plus the
    ten per cent of jitter, however large the exponential term grows. *)
Theorem sleeps_within_max_delay (s : S) (t : Q) :
  Slept t ∈ (wrapper s).2 -> (0 <= t <= max_delay * (11 # 10))%Q.
Proof.
  unfold wrapper. intros H. apply attempts_sleep_bounds in H as [H|H]; [|done].
  by apply elem_of_nil in H.
Qed.

Lemma doubling_delay_in_range k :
  0 <= k <= 1023 ->
  doubling_delay k = Some (base_delay * inject_Z (2 ^ k))%Q.
Proof using Type.
  intros Hk. unfold doubling_delay.
  replace (k <? 0) with false by (symmetry; apply Z.ltb_ge; lia).
  by rewrite float_of_int_pow2 by lia.
Qed.

Lemma doubling_delay_accepted k :
  (base_delay * inject_Z (2 ^ k) <= sleep_max)%Q ->
  time_sleep (base_delay * inject_Z (2 ^ k)) = None.
Proof using base_delay_nonneg.
  intros Hmax. apply time_sleep_accepts; [|done].
  apply Qmult_le_0_compat; [done|apply pow2_nonneg].
Qed.

Lemma call_attempts_exhaust (k : nat) :
  always_retriable ->
  max_retries <= 1024 ->
  doubling_sleepable max_retries ->
  forall attempt s tr,
  0 <= attempt ->
  attempt + Z.of_nat k = max_retries ->
  exists e tr',
    call_attempts (Datatypes.S k) attempt s tr
      = (inl (Raised e), state_before (Datatypes.S k) s, tr ++ tr') /\
    (func (state_before k s)).2 = inl e /\
    invocations tr' = Datatypes.S k /\
    slept tr'
      = map (fun i => (base_delay * inject_Z (2 ^ (attempt + Z.of_nat i)))%Q)
          (seq 0 k).
Proof.
  intros Hfail Hmax Hsleep.
  induction k as [|k IH]; intros attempt s tr Hpos Hk.
  - destruct (Hfail s) as [e [He Hex]].
    exists e, [Invoked attempt]. simpl in *.
    destruct (func s) as [s' r]; simpl in *; subst r.
    rewrite Hex. replace (attempt >=? max_retries) with true
      by (symmetry; apply Z.geb_le; lia).
    done.
  - destruct (Hfail s) as [e [He Hex]].
    remember (Datatypes.S k) as k1 eqn:Hk1.
    cbn [call_attempts state_before].
    destruct (func s) as [s' r] eqn:Hf; simpl in He; subst r k1.
    rewrite Hex. replace (attempt >=? max_retries) with false
      by (symmetry; rewrite Z.geb_leb; apply Z.leb_gt; lia).
    rewrite doubling_delay_in_range by lia.
    rewrite doubling_delay_accepted by (apply Hsleep; lia).
    edestruct (IH (attempt + 1) s')
      as (e' & tr' & Hrun & Hlast & Hi & Hs); [lia|lia|].
    rewrite Hrun. exists e'. eexists. split.
    { rewrite <- !app_assoc. reflexivity. }
    split; [simpl; by rewrite Hf|].
    split.
    + rewrite !invocations_app, Hi. done.
    + rewrite !slept_app, Hs. cbn [slept omap list_omap app seq map].
      rewrite Z.add_0_r. f_equal.
      rewrite <- seq_shift, map_map. apply List.map_ext. intros i.
      do 3 f_equal. lia.
Qed.

(** X8.  A retriable failure on every call to [retry_call]: the function is
    invoked [max_retries + 1] times, the last exception is re-raised, and
    the sleeps are exactly [base_delay], twice that, four times that, ...
    with no cap and no jitter; this for at most 1024 retries (from
    [2 ** 1024] on the power is no float) and delays that [time.sleep]
    accepts. *)
Theorem retry_call_doubles_delay (s : S) :
  always_retriable ->
  max_retries <= 1024 ->
  doubling_sleepable max_retries ->
  exists e tr,
    retry_call s
      = (inl (Raised e), state_before (Z.to_nat max_retries + 1) s, tr) /\
    (func (state_before (Z.to_nat max_retries) s)).2 = inl e /\
    invocations tr = (Z.to_nat max_retries + 1)%nat /\
    slept tr
      = map (fun i => (base_delay * inject_Z (2 ^ Z.of_nat i))%Q)
          (seq 0 (Z.to_nat max_retries)).
Proof.
  intros Hfail Hmax Hsleep. unfold retry_call.
  replace (Z.to_nat (max_retries + 1)) with (Datatypes.S (Z.to_nat max_retries))
    by lia.
  destruct (call_attempts_exhaust (Z.to_nat max_retries) Hfail Hmax Hsleep
              0 s []) as (e & tr' & Hrun & Hlast & Hi & Hs); [lia|lia|].
  exists e, tr'. rewrite Hrun, Nat.add_1_r. done.
Qed.

(** X9.  Entering the context resets its attempt count, so a retry loop built
    on [with ctx:] never gives up: with a budget of at least one retry,
    every block whose body raises a retriable exception has it
    suppressed, after a sleep of [base_delay] each time; this for a
    [base_delay] that [time.sleep] accepts. *)
Theorem retry_context_never_gives_up (n : nat) (self : RetryContext) (s : S) :
  1 <= max_retries ->
  (base_delay <= sleep_max)%Q ->
  always_retriable ->
  exists self' tr,
    with_blocks n self s [] = (None, self', state_before n s, tr) /\
    invocations tr = n /\
    slept tr = replicate n (base_delay * 2 ^ 0)%Q.
Proof.
  intros Hmax Hsleep Hfail.
  assert (forall tr0, exists self' tr,
    with_blocks n self s tr0 = (None, self', state_before n s, tr0 ++ tr) /\
    invocations tr = n /\
    slept tr = replicate n (base_delay * 2 ^ 0)%Q) as Hgen.
  { revert self s. induction n as [|n IH]; intros self s tr0.
    - exists self, []. by rewrite app_nil_r.
    - destruct (Hfail s) as [e [He Hex]].
      cbn [with_blocks state_before].
      destruct (func s) as [s' r]; cbn [fst snd] in *; subst r.
      unfold __exit__, __enter__. cbn [rc_attempts rc_last_exception].
      rewrite Hex. cbn [negb].
      replace (0 + 1 >? max_retries) with false
        by (symmetry; rewrite Z.gtb_ltb; apply Z.ltb_ge; lia).
      replace (0 + 1 - 1) with 0 by lia.
      rewrite doubling_delay_in_range by lia.
      rewrite doubling_delay_accepted
        by (change (inject_Z (2 ^ 0)) with 1%Q; by rewrite Qmult_1_r).
      destruct (IH {| rc_attempts := 0 + 1; rc_last_exception := Some e |} s'
                  ((tr0 ++ [Invoked (Z.of_nat n)])
                     ++ [Slept (base_delay * inject_Z (2 ^ 0))]))
        as (self' & tr & Hrun & Hi & Hs).
      rewrite Hrun. exists self'. eexists. split.
      { rewrite <- !app_assoc. reflexivity. }
      split.
      + by rewrite !invocations_app, Hi.
      + by rewrite !slept_app, Hs. }
  destruct (Hgen []) as (self' & tr & Hrun & Hi & Hs).
  by exists self', tr.
Qed.

End Retry.

(** In the section that follows nothing is assumed of the arguments. *)
Section RetryEdge.

Context {S E R : Type}.

(** X10.  A negative retry count: the loop body never runs, the function is
    never called, and [raise last_exception] raises [TypeError], since
    [last_exception] is still [None]. *)
Theorem negative_max_retries_raises_type_error
    (max_retries : Z) (base_delay max_delay exponential_base : Q)
    (exceptions : E -> bool) (on_retry : option (Z -> E -> Q -> option E))
    (uniform : Z -> Q -> Q -> Q) (func : S -> S * (E + R)) (s : S) :
  max_retries < 0 ->
  wrapper max_retries base_delay max_delay exponential_base exceptions
    on_retry uniform func s = (inl TypeError, s, []) /\
  retry_call max_retries base_delay exceptions func s = (inr None, s, []).
Proof.
  intros Hneg. unfold wrapper, retry_call.
  by replace (Z.to_nat (max_retries + 1)) with O by lia.
Qed.

End RetryEdge.

(** A concrete run, after the repository's own test: [max_retries=2],
    [base_delay=0.01], every exception retriable, no callback, a function
    that counts its calls and always raises, carrying the call number. *)
Definition counting_failure : nat -> nat * (nat + unit) :=
  fun n => (Datatypes.S n, inl (Datatypes.S n)).


(** With [exponential_base=1e200] the third power is no float: of the
    four invocations that [max_retries=3] allows, three are made. *)
Example retry_with_backoff_overflow :
  exists tr,
    wrapper 3 1 60 (inject_Z (10 ^ 200)) (fun _ => true) None
      (fun _ a _ => a) counting_failure 0%nat
      = (inl OverflowError, 3%nat, tr) /\
    invocations tr = 3%nat /\ sleeps tr = 2%nat.
Proof. eexists. split; [by vm_compute|]. split; reflexivity. Qed.

(** [retry_call] with [base_delay=1.0]: the delay of attempt 34, [2 ** 34]
    seconds, is more than [time.sleep] accepts. *)
Example retry_call_sleep_overflow :
  exists tr,
    retry_call 40 1 (fun _ => true) counting_failure 0%nat
      = (inl OverflowError, 35%nat, tr) /\
    invocations tr = 35%nat.
Proof. eexists. split; [by vm_compute|]. reflexivity. Qed.

(** The repository's test of the decorator: [max_retries=3],
    [base_delay=0.1], a function that raises on its first two calls and
    returns on the third. *)
Definition flaky_function : nat -> nat * (nat + nat) :=
  fun n => (Datatypes.S n,
            if (n <? 2)%nat then inl (Datatypes.S n) else inr (Datatypes.S n)).

Lemma retry_returns_first_success_witness :
  exists tr,
    wrapper 3 (1 # 10) 60 2 (fun _ => true) None (fun _ a _ => a)
      flaky_function 0%nat = (inr 3%nat, 3%nat, tr) /\
    invocations tr = 3%nat /\ sleeps tr = 2%nat.
Proof.
  apply (retry_returns_first_success 3 (1 # 10) 60 2 (fun _ => true) None
           (fun _ a _ => a) flaky_function) with (k := 2%nat).
  - lia.
  - discriminate.
  - discriminate.
  - discriminate.
  - intros _ a b Hab. apply Qle_refl.
  - intros _ a b Hab. exact Hab.
  - discriminate.
  - discriminate.
  - lia.
  - intros attempt Hattempt.
    assert (attempt = 0 \/ attempt = 1) as [-> | ->] by lia; discriminate.
  - intros i Hi. destruct i as [|[|i]]; [by eexists|by eexists|lia].
  - reflexivity.
Defined.

Lemma sleeps_within_max_delay_witness :
  (0 <= sleep_time (fun _ a _ => a) 1 (Qmin ((1 # 100) * 2 ^ 1) 60)
     <= 60 * (11 # 10))%Q.
Proof.
  apply (sleeps_within_max_delay 2 (1 # 100) 60 2 (fun _ => true) None
           (fun _ a _ => a) counting_failure) with (s := 0%nat).
  - discriminate.
  - discriminate.
  - discriminate.
  - intros _ a b Hab. exact Hab.
  - do 3 apply list_elem_of_further. apply list_elem_of_here.
Defined.

Lemma retry_call_doubles_delay_witness :
  exists e tr,
    retry_call 2 (1 # 2) (fun _ => true) counting_failure 0%nat
      = (inl (Raised e), 3%nat, tr) /\
    (counting_failure 2%nat).2 = inl e /\
    invocations tr = 3%nat /\
    slept tr = [((1 # 2) * inject_Z (2 ^ 0))%Q; ((1 # 2) * inject_Z (2 ^ 1))%Q].
Proof.
  apply (retry_call_doubles_delay 2 (1 # 2) (fun _ => true) counting_failure).
  - lia.
  - discriminate.
  - intros n. exists (Datatypes.S n). split; reflexivity.
  - lia.
  - intros i Hi. assert (i = 0 \/ i = 1) as [-> | ->] by lia; discriminate.
Defined.

Lemma retry_context_never_gives_up_witness :
  exists self' tr,
    with_blocks 1 (1 # 2) (fun _ => true) counting_failure 5
      {| rc_attempts := 0; rc_last_exception := None |} 0%nat []
      = (None, self', 5%nat, tr) /\
    invocations tr = 5%nat /\
    slept tr = replicate 5 ((1 # 2) * 2 ^ 0)%Q.
Proof.
  apply (retry_context_never_gives_up 1 (1 # 2) (fun _ => true)
           counting_failure).
  - discriminate.
  - lia.
  - discriminate.
  - intros n. exists (Datatypes.S n). split; reflexivity.
Defined.

(** A [base_delay] of [1e10] seconds is more than [time.sleep] accepts:
    the exception of the block is not suppressed, [__exit__] raises. *)
Example retry_context_sleep_overflow :
  (__exit__ 3 (inject_Z (10 ^ 10)) (fun _ : nat => true) (Some 1%nat)
     {| rc_attempts := 0; rc_last_exception := None |}).1.1
  = inl OverflowError.
Proof. reflexivity. Qed.

Lemma negative_max_retries_raises_type_error_witness :
  wrapper (-1) 1 60 2 (fun _ : nat => true) None (fun _ a _ => a)
    counting_failure 0%nat = (inl TypeError, 0%nat, []).
Proof.
  apply (negative_max_retries_raises_type_error (-1) 1 60 2 (fun _ => true)
           None (fun _ a _ => a) counting_failure 0%nat).
  lia.
Defined.

End RetryUtils.

(* ===================================================================== *)
(** * error_recovery.py *)
(* ===================================================================== *)

Module ErrorRecovery.

Import PyStr.

(** The values [json.loads] produces, which is also what a diagnosis is
    made of.  A [dict] keeps its keys in insertion order. *)
Inductive json :=
| JNull
| JBool (b : bool)
| JNum (x : Q)
| JStr (s : string)
| JList (items : list json)
| JDict (entries : list (string * json)).

(** [d.get(k)] *)
Fixpoint dict_get (k : string) (entries : list (string * json)) : option json :=
  match entries with
  | [] => None
  | (k', v) :: rest => if String.eqb k k' then Some v else dict_get k rest
  end.

(** [d[k] = v]: replaces the value of an existing key in place, appends
    a new key at the end. *)
Fixpoint dict_set (k : string) (v : json) (entries : list (string * json))
    : list (string * json) :=
  match entries with
  | [] => [(k, v)]
  | (k', v') :: rest =>
      if String.eqb k k' then (k, v) :: rest else (k', v') :: dict_set k v rest
  end.

(** [analysis.get(k)] on a diagnosis *)
Definition get (k : string) (d : json) : option json :=
  match d with
  | JDict entries => dict_get k entries
  | _ => None
  end.

(** Exceptions (all of them subclasses of [Exception]). *)
Inductive exn :=
| ApiError (kind : string)   (* raised by the client: unreachable, timeout, ... *)
| IndexError                 (* [response.choices[0]] on no choices *)
| ValueError                 (* "Empty response from GPT" *)
| TypeError
| KeyError.

(** What [client.chat.completions.create] does with a request: it raises,
    or it answers with the [message.content] of each choice. *)
Inductive api_outcome :=
| ApiRaises (kind : string)
| ApiResponse (choices : list (option string)).

(** A configured client ([self.client]), given the user prompt. *)
Definition Client := string -> api_outcome.

(** [self.common_fixes], in insertion order:
    pattern, [fix_type], [suggestion]. *)
Definition common_fixes : list (string * (string * string)) :=
  [ ("command not found",
       ("install_dependency", "Install the missing package with apt"));
    ("permission denied",
       ("modify_command", "Try running with sudo"));
    ("could not resolve host",
       ("retry", "Check internet connection and retry"));
    ("port is already allocated",
       ("modify_command", "Stop the existing service or use a different port"));
    ("bind: address already in use",
       ("modify_command", "Port in use - check with: sudo lsof -i :PORT"));
    ("docker: permission denied",
       ("modify_command",
        "User needs docker group. Run: sudo usermod -aG docker $USER && newgrp docker")) ].

(** A diagnosis as the dict literal the fallback writes. *)
Definition diagnosis (analysis severity suggested_fix fix_type : string)
    (alternative_fixes : list string) (can_auto_retry : bool)
    (explanation_for_user : string) : json :=
  JDict [ ("analysis", JStr analysis);
          ("severity", JStr severity);
          ("suggested_fix", JStr suggested_fix);
          ("fix_type", JStr fix_type);
          ("alternative_fixes", JList (map JStr alternative_fixes));
          ("can_auto_retry", JBool can_auto_retry);
          ("explanation_for_user", JStr explanation_for_user) ].

(** [x in ['retry', 'modify_command']] *)
Definition retry_or_modify (fix_type : string) : bool :=
  (String.eqb fix_type "retry" || String.eqb fix_type "modify_command")%bool.

(** The loop over [self.common_fixes.items()]. *)
Fixpoint match_common_fixes (table : list (string * (string * string)))
    (error_text : string) : option json :=
  match table with
  | [] => None
  | (pattern, (fix_type, suggestion)) :: rest =>
      if contains pattern error_text then
        Some (diagnosis
                ("Detected '" +:+ pattern +:+ "' error")
                "medium"
                suggestion
                fix_type
                []
                (retry_or_modify fix_type)
                ("The system couldn't run the command because " +:+ pattern
                   +:+ ". " +:+ suggestion +:+ "."))
      else match_common_fixes rest error_text
  end.

(** [_analyze_docker_error] *)
Definition _analyze_docker_error (error_text : string) : json :=
  if contains "cannot connect" error_text then
    diagnosis "Docker daemon not running" "high"
      "sudo systemctl start docker" "modify_command"
      ["sudo service docker start"] true
      "The Docker service isn't running. I can try to start it."
  else if (contains "image not found" error_text
           || contains "pull access denied" error_text)%bool then
    diagnosis "Docker image not found or access denied" "medium"
      "Check image name and try again" "retry"
      ["Use alternative image"] true
      "The Docker image could not be downloaded. Let me retry."
  else if contains "container name already in use" error_text then
    diagnosis "Container with this name already exists" "low"
      "docker rm -f CONTAINER_NAME" "modify_command"
      ["Use different container name"] true
      "A container with this name already exists. I can remove it."
  else
    diagnosis "Docker error occurred" "medium"
      "Check Docker status: sudo systemctl status docker" "manual_intervention"
      [] false
      "A Docker error occurred. Check the Docker service status.".

(** [_analyze_apt_error] *)
Definition _analyze_apt_error (error_text : string) : json :=
  if contains "unable to locate package" error_text then
    diagnosis "Package not found in repository" "medium"
      "sudo apt update" "modify_command"
      ["Enable universe/multiverse repositories"] true
      "The package was not found. Updating package lists may fix this."
  else if contains "could not get lock" error_text then
    diagnosis "Another package manager is running" "medium"
      "Wait for other package manager to complete" "retry"
      ["Kill other apt process: sudo killall apt"] true
      "Another package installation is in progress. Let me wait and retry."
  else if contains "broken packages" error_text then
    diagnosis "Package dependencies are broken" "high"
      "sudo apt --fix-broken install" "modify_command"
      ["sudo dpkg --configure -a"] true
      "Package dependencies are broken. I can try to fix them."
  else
    diagnosis "Package manager error occurred" "medium"
      "Check apt status and try again" "manual_intervention"
      [] false
      "A package manager error occurred. You may need to fix it manually.".

(** [_fallback_analyze] *)
Definition _fallback_analyze (command stdout stderr : string) : json :=
  let error_text := lower (stderr +:+ stdout) in
  match match_common_fixes common_fixes error_text with
  | Some d => d
  | None =>
      if contains "docker" (lower command) then
        _analyze_docker_error error_text
      else if ((contains "53" command || contains "adguard" (lower command))
               && (contains "bind" error_text
                   || contains "address already in use" error_text))%bool then
        diagnosis "Port 53 is in use by systemd-resolved" "medium"
          "sudo systemctl stop systemd-resolved && sudo systemctl disable systemd-resolved"
          "modify_command"
          ["Configure AdGuard on different port"] true
          "Another service is using the DNS port. I can stop it to free up the port."
      else if (contains "connection refused" error_text
               || contains "connection timed out" error_text)%bool then
        diagnosis "Network connectivity issue" "medium"
          "Check internet connection and retry" "retry"
          ["Check firewall settings"] true
          "There was a network problem. Let me try again."
      else if (contains "no space left" error_text
               || contains "disk full" error_text)%bool then
        diagnosis "Disk space exhausted" "critical"
          "Free up disk space: df -h" "manual_intervention"
          ["Clean up temporary files"; "Remove old Docker images"] false
          "The disk is full. You need to free up space before continuing."
      else if contains "apt" (lower command) then
        _analyze_apt_error error_text
      else
        diagnosis "Unknown error occurred" "medium"
          "Check error logs for details" "manual_intervention"
          ["Skip this step and continue"; "Rollback and retry"] false
          ("Something went wrong: " +:+ slice_to 100 stderr
             +:+ ". You may need to fix this manually.")
  end.


Section Analyzer.

(** [json.dumps(step_context, indent=2)] and [json.loads]; the latter
    answers [None] where it raises [JSONDecodeError]. *)
Variable json_dumps : json -> string.
Variable json_loads : string -> option json.

Definition MAX_LENGTH : Z := 5000.

(** The f-string of [_gpt_analyze]. *)
Definition prompt (command stdout stderr : string) (step_context : json)
    : string :=
  "Command failed:" +:+ nl +:+ "```" +:+ nl
    +:+ slice_to 2000 command +:+ nl +:+ "```" +:+ nl +:+ nl
    +:+ "stdout:" +:+ nl +:+ "```" +:+ nl
    +:+ slice_to 2000 stdout +:+ nl +:+ "```" +:+ nl +:+ nl
    +:+ "stderr:" +:+ nl +:+ "```" +:+ nl
    +:+ slice_to 2000 stderr +:+ nl +:+ "```" +:+ nl +:+ nl
    +:+ "Step context:" +:+ nl +:+ "```json" +:+ nl
    +:+ slice_to 1000 (json_dumps step_context) +:+ nl +:+ "```" +:+ nl +:+ nl
    +:+ "Analyze the error and suggest a fix.".

(** [k in result]: key membership on a dict, element membership on a
    list, substring test on a string, [TypeError] on anything else. *)
Definition py_contains (k : string) (result : json) : exn + bool :=
  match result with
  | JDict entries => inr (bool_decide (is_Some (dict_get k entries)))
  | JList items =>
      inr (existsb (fun x => match x with
                             | JStr s => String.eqb s k
                             | _ => false
                             end) items)
  | JStr s => inr (contains k s)
  | _ => inl TypeError
  end.

(** [result[k] = v]: only a dict takes a string key. *)
Definition py_setitem (k : string) (v : json) (result : json) : exn + json :=
  match result with
  | JDict entries => inr (JDict (dict_set k v entries))
  | _ => inl TypeError
  end.

(** [result[k]] *)
Definition py_getitem (k : string) (result : json) : exn + json :=
  match result with
  | JDict entries =>
      match dict_get k entries with
      | Some v => inr v
      | None => inl KeyError
      end
  | _ => inl TypeError
  end.

(** [if k not in result: result[k] = default] *)
Definition backfill (k : string) (default : json) (result : json)
    : exn + json :=
  match py_contains k result with
  | inl e => inl e
  | inr true => inr result
  | inr false => py_setitem k default result
  end.

Definition and_then {A B} (r : exn + A) (f : A -> exn + B) : exn + B :=
  match r with
  | inl e => inl e
  | inr a => f a
  end.

(** "Validate required fields in response" *)
Definition validate_fields (result : json) : exn + json :=
  and_then (backfill "analysis" (JStr "Unknown error occurred") result)
  (fun result =>
  and_then (backfill "severity" (JStr "medium") result)
  (fun result =>
  and_then (backfill "suggested_fix" (JStr "Check error logs for details") result)
  (fun result =>
  and_then (backfill "fix_type" (JStr "manual_intervention") result)
  (fun result =>
  and_then (backfill "can_auto_retry" (JBool false) result)
  (fun result =>
  and_then (py_contains "explanation_for_user" result)
  (fun present =>
  if present then inr result
  else and_then (py_getitem "analysis" result)
         (fun a => py_setitem "explanation_for_user" a result))))))).

(** The [except json.JSONDecodeError] branch. *)
Definition parsing_failed (command stdout stderr : string) : exn + json :=
  let result := _fallback_analyze command stdout stderr in
  and_then (py_getitem "analysis" result)
  (fun a =>
     match a with
     | JStr text =>
         py_setitem "analysis" (JStr (text +:+ " (GPT parsing failed)")) result
     | _ => inl TypeError
     end).

(** [_gpt_analyze], on a configured client.  Anything raised in its
    [try] other than [JSONDecodeError] is re-raised. *)
Definition _gpt_analyze (client : Client) (command stdout stderr : string)
    (step_context : json) : exn + json :=
  match client (prompt command stdout stderr step_context) with
  | ApiRaises kind => inl (ApiError kind)
  | ApiResponse [] => inl IndexError
  | ApiResponse (content :: _) =>
      match content with
      | None => inl ValueError
      | Some EmptyString => inl ValueError
      | Some text =>
          match json_loads text with
          | None => parsing_failed command stdout stderr
          | Some result => validate_fields result
          end
      end
  end.

(** [if not isinstance(step_context, dict): step_context = {}] *)
Definition dict_or_empty (step_context : json) : json :=
  match step_context with
  | JDict _ => step_context
  | _ => JDict []
  end.

(** [analyze_error]: the diagnosis (or what is raised), and the requests
    sent to the external classifier, in order. *)
Definition analyze_error (client : option Client)
    (command stdout stderr : string) (step_context : json)
    : (exn + json) * list string :=
  let step_context := dict_or_empty step_context in
  let command := slice_to MAX_LENGTH command in
  let stdout := slice_to MAX_LENGTH stdout in
  let stderr := slice_to MAX_LENGTH stderr in
  match client with
  | Some c =>
      let sent := [prompt command stdout stderr step_context] in
      match _gpt_analyze c command stdout stderr step_context with
      | inr d => (inr d, sent)
      | inl _ =>   (* except Exception: log a warning, use the fallback *)
          (inr (_fallback_analyze command stdout stderr), sent)
      end
  | None => (inr (_fallback_analyze command stdout stderr), [])
  end.

(** The fields [_gpt_analyze] treats as required. *)
Definition required_fields : list string :=
  ["analysis"; "severity"; "suggested_fix"; "fix_type"; "can_auto_retry";
   "explanation_for_user"].

(** A diagnosis: a dict that has every required field. *)
Definition is_diagnosis (d : json) : bool :=
  match d with
  | JDict entries =>
      forallb (fun k => bool_decide (is_Some (dict_get k entries)))
        required_fields
  | _ => false
  end.

(** The truth value of a Python value. *)
Definition py_truthy (v : json) : bool :=
  match v with
  | JNull => false
  | JBool b => b
  | JNum x => negb (Qeq_bool x 0)
  | JStr s => negb (String.eqb s "")
  | JList items => negb (bool_decide (items = []))
  | JDict entries => negb (bool_decide (entries = []))
  end.

(** [v == s] for a string [s] *)
Definition py_eq_str (v : json) (s : string) : bool :=
  match v with
  | JStr x => String.eqb x s
  | _ => false
  end.

(** [attempt_recovery]: what it returns (or raises), and the requests
    sent.  The three [print] calls subscript the analysis; the executor
    argument is not used. *)
Definition attempt_recovery (client : option Client)
    (command stdout stderr : string) (step_context : json)
    : (exn + bool * json) * list string :=
  let '(analyzed, sent) :=
    analyze_error client command stdout stderr step_context in
  (and_then analyzed (fun analysis =>
   and_then (py_getitem "analysis" analysis) (fun _ =>
   and_then (py_getitem "severity" analysis) (fun _ =>
   and_then (py_getitem "suggested_fix" analysis) (fun _ =>
   let fix_type :=
     default (JStr "manual_intervention") (get "fix_type" analysis) in
   let can_auto := default (JBool false) (get "can_auto_retry" analysis) in
   if (py_truthy can_auto && py_eq_str fix_type "modify_command")%bool then
     and_then (py_getitem "suggested_fix" analysis) (fun _ =>
     inr (false, JStr "Auto-fix requires executor integration"))
   else
     and_then (py_getitem "explanation_for_user" analysis) (fun text =>
     inr (false, text)))))),
   sent).

(** ** Properties *)

Lemma is_diagnosis_diagnosis a b c d e f g :
  is_diagnosis (diagnosis a b c d e f g) = true.
Proof. reflexivity. Qed.

Lemma match_common_fixes_diagnosis table text d :
  match_common_fixes table text = Some d -> is_diagnosis d = true.
Proof.
  induction table as [|[pattern [fix_type suggestion]] rest IH]; simpl; [done|].
  destruct (contains pattern text); [|done].
  intros [= <-]. apply is_diagnosis_diagnosis.
Qed.

Lemma _analyze_docker_error_diagnosis text :
  is_diagnosis (_analyze_docker_error text) = true.
Proof.
  unfold _analyze_docker_error.
  repeat (case_match; try apply is_diagnosis_diagnosis).
Qed.

Lemma _analyze_apt_error_diagnosis text :
  is_diagnosis (_analyze_apt_error text) = true.
Proof.
  unfold _analyze_apt_error.
  repeat (case_match; try apply is_diagnosis_diagnosis).
Qed.

(** The fallback always produces a diagnosis. *)
Lemma _fallback_analyze_diagnosis command stdout stderr :
  is_diagnosis (_fallback_analyze command stdout stderr) = true.
Proof.
  unfold _fallback_analyze.
  destruct (match_common_fixes _ _) as [d|] eqn:Hd.
  - by eapply match_common_fixes_diagnosis.
  - repeat (case_match;
            try apply is_diagnosis_diagnosis;
            try apply _analyze_docker_error_diagnosis;
            try apply _analyze_apt_error_diagnosis).
Qed.

Lemma dict_get_set_eq k v entries : dict_get k (dict_set k v entries) = Some v.
Proof.
  induction entries as [|[k' v'] rest IH]; simpl.
  - by rewrite String.eqb_refl.
  - destruct (String.eqb k k') eqn:Hk; simpl.
    + by rewrite String.eqb_refl.
    + by rewrite Hk.
Qed.

Lemma dict_get_set_ne k k' v entries :
  k <> k' -> dict_get k' (dict_set k v entries) = dict_get k' entries.
Proof.
  intros Hne. induction entries as [|[k0 v0] rest IH]; simpl.
  - destruct (String.eqb k' k) eqn:Hk; [|done].
    apply String.eqb_eq in Hk. congruence.
  - destruct (String.eqb k k0) eqn:Hk; simpl.
    + apply String.eqb_eq in Hk. subst k0.
      destruct (String.eqb k' k) eqn:Hk'; [|done].
      apply String.eqb_eq in Hk'. congruence.
    + by rewrite IH.
Qed.

Lemma dict_set_keeps k k' v entries :
  is_Some (dict_get k' entries) -> is_Some (dict_get k' (dict_set k v entries)).
Proof.
  intros H. destruct (decide (k = k')) as [->|Hne].
  - rewrite dict_get_set_eq. by eexists.
  - by rewrite dict_get_set_ne.
Qed.

(** A field that is present: on a dict only. *)
Definition has_field (k : string) (d : json) : Prop :=
  match d with
  | JDict entries => is_Some (dict_get k entries)
  | _ => False
  end.

Lemma backfill_dict k default entries :
  exists entries',
    backfill k default (JDict entries) = inr (JDict entries') /\
    is_Some (dict_get k entries') /\
    forall k', is_Some (dict_get k' entries) -> is_Some (dict_get k' entries').
Proof.
  unfold backfill; simpl. case_bool_decide as Hk.
  - exists entries. done.
  - exists (dict_set k default entries). split; [done|]. split.
    + rewrite dict_get_set_eq. by eexists.
    + intros k'. apply dict_set_keeps.
Qed.

(** On a dict, field validation succeeds and yields a diagnosis. *)
Lemma validate_fields_dict entries :
  exists d, validate_fields (JDict entries) = inr d /\ is_diagnosis d = true.
Proof.
  unfold validate_fields.
  destruct (backfill_dict "analysis" (JStr "Unknown error occurred") entries)
    as (e1 & -> & H1 & K1); simpl.
  destruct (backfill_dict "severity" (JStr "medium") e1)
    as (e2 & -> & H2 & K2); simpl.
  destruct (backfill_dict "suggested_fix" (JStr "Check error logs for details") e2)
    as (e3 & -> & H3 & K3); simpl.
  destruct (backfill_dict "fix_type" (JStr "manual_intervention") e3)
    as (e4 & -> & H4 & K4); simpl.
  destruct (backfill_dict "can_auto_retry" (JBool false) e4)
    as (e5 & -> & H5 & K5); simpl.
  assert (is_Some (dict_get "analysis" e5)) as Ha by auto.
  assert (is_Some (dict_get "severity" e5)) as Hs by auto.
  assert (is_Some (dict_get "suggested_fix" e5)) as Hf by auto.
  assert (is_Some (dict_get "fix_type" e5)) as Ht by auto.
  case_bool_decide as Hx.
  - eexists; split; [done|]. simpl.
    rewrite !bool_decide_eq_true_2 by done. done.
  - destruct Ha as [a Ha']. rewrite Ha'; simpl.
    eexists; split; [done|]. simpl.
    rewrite !bool_decide_eq_true_2;
      try (apply dict_set_keeps; by eauto); try done.
    rewrite dict_get_set_eq. by eexists.
Qed.

Lemma is_diagnosis_dict_set k v entries :
  is_diagnosis (JDict entries) = true ->
  is_diagnosis (JDict (dict_set k v entries)) = true.
Proof.
  unfold is_diagnosis. rewrite !forallb_forall. intros H x Hx.
  specialize (H x Hx). apply bool_decide_eq_true.
  apply bool_decide_eq_true in H. by apply dict_set_keeps.
Qed.

Lemma parsing_failed_diagnosis command stdout stderr d :
  parsing_failed command stdout stderr = inr d -> is_diagnosis d = true.
Proof.
  unfold parsing_failed.
  pose proof (_fallback_analyze_diagnosis command stdout stderr) as Hd.
  destruct (_fallback_analyze command stdout stderr) as [| | | | |entries];
    try done.
  simpl. destruct (dict_get "analysis" entries) as [[| | |text| |]|]; try done.
  simpl. intros [= <-]. by apply is_diagnosis_dict_set.
Qed.

(** [analyze_error] never raises. *)
Lemma analyze_error_returns client command stdout stderr step_context :
  exists d,
    (analyze_error client command stdout stderr step_context).1 = inr d.
Proof.
  unfold analyze_error. destruct client as [c|]; [|by eexists].
  destruct (_gpt_analyze _ _ _ _ _); by eexists.
Qed.

(** Without a client, the analysis is the fallback's, on the truncated
    inputs, whatever the step context, and no request is sent. *)
Lemma analyze_error_no_client command stdout stderr step_context :
  analyze_error None command stdout stderr step_context
  = (inr (_fallback_analyze (slice_to MAX_LENGTH command)
            (slice_to MAX_LENGTH stdout) (slice_to MAX_LENGTH stderr)), []).
Proof. reflexivity. Qed.

(** A field of the diagnosis an analysis returned. *)
Definition field (k : string) (r : (exn + json) * list string) : option json :=
  match r.1 with
  | inr d => get k d
  | inl _ => None
  end.

Lemma match_common_fixes_none table text :
  Forall (fun entry => contains entry.1 text = false) table ->
  match_common_fixes table text = None.
Proof.
  induction 1 as [|[pattern [fix_type suggestion]] rest Hp _ IH]; simpl; [done|].
  simpl in Hp. by rewrite Hp.
Qed.

(** C4 (amended).  Without a client, [analyze_error] is the fallback on
    the inputs cut to 5000 characters: it does not depend on the step
    context and sends no request.  On the lower-cased text of stderr
    followed by stdout: "permission denied" gives [modify_command] with
    [can_auto_retry] when "command not found" does not occur;
    "bind: address already in use" gives [modify_command] when neither
    "command not found" nor "could not resolve host" occurs; "no space
    left" gives [manual_intervention] with severity [critical] when no
    pattern of the table occurs, the command does not mention docker, the
    port-53 rule and the network rule do not apply. *)
Theorem fallback_analysis_table command stdout stderr step_context :
  let result := analyze_error None command stdout stderr step_context in
  let cmd := slice_to MAX_LENGTH command in
  let text :=
    lower (slice_to MAX_LENGTH stderr +:+ slice_to MAX_LENGTH stdout) in
  result = (inr (_fallback_analyze cmd (slice_to MAX_LENGTH stdout)
                   (slice_to MAX_LENGTH stderr)), []) /\
  (contains "permission denied" text = true ->
   contains "command not found" text = false ->
   field "fix_type" result = Some (JStr "modify_command") /\
   field "can_auto_retry" result = Some (JBool true)) /\
  (contains "bind: address already in use" text = true ->
   contains "command not found" text = false ->
   contains "could not resolve host" text = false ->
   field "fix_type" result = Some (JStr "modify_command")) /\
  (contains "no space left" text = true ->
   Forall (fun entry => contains entry.1 text = false) common_fixes ->
   contains "docker" (lower cmd) = false ->
   ((contains "53" cmd || contains "adguard" (lower cmd))
    && (contains "bind" text || contains "address already in use" text))%bool
     = false ->
   (contains "connection refused" text
    || contains "connection timed out" text)%bool = false ->
   field "fix_type" result = Some (JStr "manual_intervention") /\
   field "severity" result = Some (JStr "critical")).
Proof.
  intros result cmd text. subst result. rewrite analyze_error_no_client.
  fold cmd. unfold field, _fallback_analyze. fold text. cbn [fst].
  split; [done|]. split; [|split].
  - intros Hp Hc. unfold common_fixes. cbn [match_common_fixes].
    by rewrite Hc, Hp.
  - intros Hb Hc Hr. unfold common_fixes. cbn [match_common_fixes].
    rewrite Hc, Hr, Hb.
    destruct (contains "permission denied" text); [done|].
    by destruct (contains "port is already allocated" text).
  - intros Hs Htable Hd H53 Hnet.
    rewrite (match_common_fixes_none _ _ Htable), Hd, H53, Hnet, Hs. done.
Qed.

Lemma backfill_non_dict k default j d :
  (forall entries, j <> JDict entries) -> backfill k default j = inr d -> d = j.
Proof.
  intros Hj. unfold backfill.
  destruct (py_contains k j) as [e|[]]; [done| congruence |].
  destruct j as [| | | | |entries]; simpl; try done. by destruct (Hj entries).
Qed.

(** On a value that is not a dict, field validation raises or hands the
    value back unchanged. *)
Lemma validate_fields_non_dict j d :
  (forall entries, j <> JDict entries) -> validate_fields j = inr d -> d = j.
Proof.
  intros Hj. unfold validate_fields, and_then.
  destruct (backfill "analysis" _ j) as [|j1] eqn:H1; [done|].
  apply backfill_non_dict in H1; [subst j1|done].
  destruct (backfill "severity" _ j) as [|j2] eqn:H2; [done|].
  apply backfill_non_dict in H2; [subst j2|done].
  destruct (backfill "suggested_fix" _ j) as [|j3] eqn:H3; [done|].
  apply backfill_non_dict in H3; [subst j3|done].
  destruct (backfill "fix_type" _ j) as [|j4] eqn:H4; [done|].
  apply backfill_non_dict in H4; [subst j4|done].
  destruct (backfill "can_auto_retry" _ j) as [|j5] eqn:H5; [done|].
  apply backfill_non_dict in H5; [subst j5|done].
  destruct (py_contains "explanation_for_user" j) as [|[]]; [done|congruence|].
  destruct (py_getitem "analysis" j); [done|].
  destruct j as [| | | | |entries]; simpl; try done. by destruct (Hj entries).
Qed.

(** What [analyze_error] returns, on every input and every behaviour of
    the classifier: a diagnosis, except that a decoded response that is
    not a dict is handed back as it is when field validation lets it
    through. *)
Lemma analyze_error_shape client command stdout stderr step_context :
  exists d,
    (analyze_error client command stdout stderr step_context).1 = inr d /\
    (is_diagnosis d = true \/
     (exists text, json_loads text = Some d) /\
     forall entries, d <> JDict entries).
Proof.
  unfold analyze_error. destruct client as [c|]; cbn [fst].
  2:{ eexists; split; [done|]. left. apply _fallback_analyze_diagnosis. }
  destruct (_gpt_analyze _ _ _ _ _) as [e|d] eqn:Hg; cbn [fst].
  { eexists; split; [done|]. left. apply _fallback_analyze_diagnosis. }
  exists d. split; [done|]. unfold _gpt_analyze in Hg.
  destruct (c _) as [kind|[|[[|ch text]|] rest]]; try done.
  destruct (json_loads (String ch text)) as [j|] eqn:Hj.
  - destruct j as [| | | | |entries].
    6:{ left. destruct (validate_fields_dict entries) as (d' & Hd' & Hdiag).
        congruence. }
    all: right;
      assert (d = _) as -> by (eapply validate_fields_non_dict; [|exact Hg]; done);
      split; [by eexists | done].
  - left. by eapply parsing_failed_diagnosis.
Qed.

(** C9 (the code departs from the claim).  When the classifier answers
    with JSON text that decodes to the list of the six required field
    names, every [k not in result] test is false on that list, no field is
    written, and [analyze_error] returns the list itself: no exception,
    but no diagnosis either (no dict, no field to read). *)
Theorem analyze_error_echoes_list client text command stdout stderr step_context :
  client (prompt (slice_to MAX_LENGTH command) (slice_to MAX_LENGTH stdout)
            (slice_to MAX_LENGTH stderr) (dict_or_empty step_context))
    = ApiResponse [Some text] ->
  text <> "" ->
  json_loads text = Some (JList (map JStr required_fields)) ->
  (analyze_error (Some client) command stdout stderr step_context).1
    = inr (JList (map JStr required_fields)) /\
  is_diagnosis (JList (map JStr required_fields)) = false /\
  get "fix_type" (JList (map JStr required_fields)) = None.
Proof.
  intros Hc Hne Hl. split; [|done].
  unfold analyze_error, _gpt_analyze. rewrite Hc.
  destruct text as [|ch text]; [done|]. by rewrite Hl.
Qed.

(** ** The fallback table *)

(** What the fallback may answer. *)
Definition fix_types : list string :=
  ["retry"; "modify_command"; "install_dependency"; "manual_intervention"].

Definition severities : list string := ["low"; "medium"; "high"; "critical"].

(** A diagnosis whose fields agree with one another: a known fix type, a
    known severity, and automatic retry offered exactly for the fix
    types [retry] and [modify_command]. *)
Definition coherent (d : json) : Prop :=
  exists fix_type severity,
    get "fix_type" d = Some (JStr fix_type) /\
    fix_type ∈ fix_types /\
    get "severity" d = Some (JStr severity) /\
    severity ∈ severities /\
    get "can_auto_retry" d = Some (JBool (retry_or_modify fix_type)).

Lemma coherent_diagnosis a severity c fix_type e g :
  fix_type ∈ fix_types -> severity ∈ severities ->
  coherent (diagnosis a severity c fix_type e (retry_or_modify fix_type) g).
Proof. intros Hf Hs. by exists fix_type, severity. Qed.

Ltac known := repeat first [apply list_elem_of_here | apply list_elem_of_further].

Lemma match_common_fixes_coherent text d :
  match_common_fixes common_fixes text = Some d -> coherent d.
Proof.
  unfold common_fixes. cbn [match_common_fixes].
  repeat (destruct (contains _ text);
          [intros [= <-]; apply coherent_diagnosis; known|]).
  done.
Qed.

Lemma _analyze_docker_error_coherent text :
  coherent (_analyze_docker_error text).
Proof.
  unfold _analyze_docker_error.
  repeat (case_match;
          try (apply (coherent_diagnosis _ _ _ "modify_command"); known);
          try (apply (coherent_diagnosis _ _ _ "retry"); known);
          try (apply (coherent_diagnosis _ _ _ "manual_intervention"); known)).
Qed.

Lemma _analyze_apt_error_coherent text : coherent (_analyze_apt_error text).
Proof.
  unfold _analyze_apt_error.
  repeat (case_match;
          try (apply (coherent_diagnosis _ _ _ "modify_command"); known);
          try (apply (coherent_diagnosis _ _ _ "retry"); known);
          try (apply (coherent_diagnosis _ _ _ "manual_intervention"); known)).
Qed.

(** X11.  Whatever the command and its output, the fallback answers with a
    complete diagnosis whose fix type and severity are among the known
    ones, and it offers automatic retry exactly when the fix type is
    [retry] or [modify_command]: never for [install_dependency] or
    [manual_intervention]. *)
Theorem fallback_diagnosis_coherent command stdout stderr :
  is_diagnosis (_fallback_analyze command stdout stderr) = true /\
  coherent (_fallback_analyze command stdout stderr).
Proof.
  split; [apply _fallback_analyze_diagnosis|].
  unfold _fallback_analyze.
  destruct (match_common_fixes _ _) as [d|] eqn:Hd.
  - by eapply match_common_fixes_coherent.
  - repeat (case_match;
            try apply _analyze_docker_error_coherent;
            try apply _analyze_apt_error_coherent;
            try (apply (coherent_diagnosis _ _ _ "modify_command"); known);
            try (apply (coherent_diagnosis _ _ _ "retry"); known);
            try (apply (coherent_diagnosis _ _ _ "manual_intervention"); known)).
Qed.

(** ** The classifier path *)

(** The request [analyze_error] sends. *)
Definition request (command stdout stderr : string) (step_context : json)
    : string :=
  prompt (slice_to MAX_LENGTH command) (slice_to MAX_LENGTH stdout)
    (slice_to MAX_LENGTH stderr) (dict_or_empty step_context).

(** The classifier gave nothing to decode: it raised, it answered with no
    choice, or the first choice has no content. *)
Definition no_content (answer : api_outcome) : Prop :=
  match answer with
  | ApiRaises _ => True
  | ApiResponse [] => True
  | ApiResponse (None :: _) => True
  | ApiResponse (Some text :: _) => text = ""
  end.

(** X12.  When the classifier gives nothing to decode, [analyze_error] sends
    its one request and answers exactly as without a classifier: the
    fallback on the truncated inputs. *)
Theorem classifier_failure_falls_back client command stdout stderr
    step_context :
  no_content (client (request command stdout stderr step_context)) ->
  analyze_error (Some client) command stdout stderr step_context
    = ((analyze_error None command stdout stderr step_context).1,
       [request command stdout stderr step_context]).
Proof.
  unfold analyze_error, _gpt_analyze, request, no_content.
  destruct (client _) as [kind|[|[text|] rest]]; try done.
  by intros ->.
Qed.

(** X13.  When the content is not JSON, the answer is the fallback's with
    " (GPT parsing failed)" appended to its [analysis], every other field
    as the fallback gives it. *)
Theorem undecodable_response_marks_fallback client text rest command stdout
    stderr step_context :
  client (request command stdout stderr step_context)
    = ApiResponse (Some text :: rest) ->
  text <> "" ->
  json_loads text = None ->
  exists entries a,
    (analyze_error None command stdout stderr step_context).1
      = inr (JDict entries) /\
    dict_get "analysis" entries = Some (JStr a) /\
    (analyze_error (Some client) command stdout stderr step_context).1
      = inr (JDict (dict_set "analysis" (JStr (a +:+ " (GPT parsing failed)"))
                      entries)) /\
    forall k, k <> "analysis" ->
      dict_get k (dict_set "analysis" (JStr (a +:+ " (GPT parsing failed)"))
                    entries)
      = dict_get k entries.
Proof.
  intros Hc Hne Hl. unfold request in Hc.
  unfold analyze_error, _gpt_analyze. rewrite Hc.
  destruct text as [|ch text]; [done|]. rewrite Hl. cbn [fst].
  unfold parsing_failed.
  set (cmd := slice_to MAX_LENGTH command).
  set (out := slice_to MAX_LENGTH stdout).
  set (err := slice_to MAX_LENGTH stderr).
  assert (exists entries a,
    _fallback_analyze cmd out err = JDict entries /\
    dict_get "analysis" entries = Some (JStr a)) as (entries & a & -> & Ha).
  { unfold _fallback_analyze.
    destruct (match_common_fixes _ _) as [d|] eqn:Hd.
    - unfold common_fixes in Hd. cbn [match_common_fixes] in Hd.
      repeat (destruct (contains _ _) in Hd;
              [injection Hd as <-; by do 2 eexists|]).
      done.
    - unfold _analyze_docker_error, _analyze_apt_error.
      repeat case_match; by do 2 eexists. }
  exists entries, a. split; [done|]. split; [done|].
  cbn [py_getitem and_then]. rewrite Ha. cbn [py_setitem].
  split; [done|]. intros k Hk. by apply dict_get_set_ne.
Qed.

Lemma backfill_dict_exact k default entries :
  exists entries',
    backfill k default (JDict entries) = inr (JDict entries') /\
    dict_get k entries'
      = Some (match dict_get k entries with Some v => v | None => default end) /\
    forall k', k' <> k -> dict_get k' entries' = dict_get k' entries.
Proof.
  unfold backfill; simpl. case_bool_decide as Hk.
  - exists entries. split; [done|]. destruct Hk as [v ->]. done.
  - exists (dict_set k default entries). split; [done|]. split.
    + rewrite dict_get_set_eq.
      destruct (dict_get k entries) as [v|] eqn:Hv; [|done].
      destruct Hk. by eexists.
    + intros k' Hne. by apply dict_get_set_ne.
Qed.

(** X14.  When the content decodes to a dict, every field the classifier gave
    is returned as given (fields the engine does not know included), and
    each required field it left out takes its default: [analysis]
    "Unknown error occurred", [severity] "medium", [suggested_fix] "Check
    error logs for details", [fix_type] "manual_intervention",
    [can_auto_retry] false, [explanation_for_user] the analysis. *)
Theorem decoded_dict_keeps_fields_and_defaults client text rest entries
    command stdout stderr step_context :
  client (request command stdout stderr step_context)
    = ApiResponse (Some text :: rest) ->
  text <> "" ->
  json_loads text = Some (JDict entries) ->
  let given k default :=
    match dict_get k entries with Some v => v | None => default end in
  exists d,
    (analyze_error (Some client) command stdout stderr step_context).1
      = inr (JDict d) /\
    (forall k v, dict_get k entries = Some v -> dict_get k d = Some v) /\
    dict_get "analysis" d
      = Some (given "analysis" (JStr "Unknown error occurred")) /\
    dict_get "severity" d = Some (given "severity" (JStr "medium")) /\
    dict_get "suggested_fix" d
      = Some (given "suggested_fix" (JStr "Check error logs for details")) /\
    dict_get "fix_type" d
      = Some (given "fix_type" (JStr "manual_intervention")) /\
    dict_get "can_auto_retry" d = Some (given "can_auto_retry" (JBool false)) /\
    dict_get "explanation_for_user" d
      = Some (given "explanation_for_user"
                (given "analysis" (JStr "Unknown error occurred"))).
Proof.
  intros Hc Hne Hl given. unfold request in Hc.
  unfold analyze_error, _gpt_analyze. rewrite Hc.
  destruct text as [|ch text]; [done|]. rewrite Hl. cbn [fst].
  unfold validate_fields.
  destruct (backfill_dict_exact "analysis" (JStr "Unknown error occurred")
              entries) as (e1 & -> & H1 & K1); cbn [and_then].
  destruct (backfill_dict_exact "severity" (JStr "medium") e1)
    as (e2 & -> & H2 & K2); cbn [and_then].
  destruct (backfill_dict_exact "suggested_fix"
              (JStr "Check error logs for details") e2)
    as (e3 & -> & H3 & K3); cbn [and_then].
  destruct (backfill_dict_exact "fix_type" (JStr "manual_intervention") e3)
    as (e4 & -> & H4 & K4); cbn [and_then].
  destruct (backfill_dict_exact "can_auto_retry" (JBool false) e4)
    as (e5 & -> & H5 & K5); cbn [and_then].
  assert (dict_get "analysis" e5 = Some (given "analysis"
            (JStr "Unknown error occurred"))) as Ha.
  { rewrite K5, K4, K3, K2 by done. exact H1. }
  assert (dict_get "severity" e5 = Some (given "severity" (JStr "medium")))
    as Hs.
  { rewrite K5, K4, K3 by done. rewrite H2. unfold given.
    by rewrite K1 by done. }
  assert (dict_get "suggested_fix" e5
          = Some (given "suggested_fix" (JStr "Check error logs for details")))
    as Hf.
  { rewrite K5, K4 by done. rewrite H3. unfold given.
    by rewrite K2, K1 by done. }
  assert (dict_get "fix_type" e5
          = Some (given "fix_type" (JStr "manual_intervention"))) as Ht.
  { rewrite K5 by done. rewrite H4. unfold given.
    by rewrite K3, K2, K1 by done. }
  assert (dict_get "can_auto_retry" e5
          = Some (given "can_auto_retry" (JBool false))) as Hr.
  { rewrite H5. unfold given. by rewrite K4, K3, K2, K1 by done. }
  assert (forall k v, dict_get k entries = Some v -> dict_get k e5 = Some v)
    as Hkeep.
  { intros k v Hk.
    destruct (decide (k = "can_auto_retry")) as [->|N5].
    { rewrite Hr. unfold given. by rewrite Hk. }
    rewrite K5 by done.
    destruct (decide (k = "fix_type")) as [->|N4].
    { rewrite H4, K3, K2, K1 by done. by rewrite Hk. }
    rewrite K4 by done.
    destruct (decide (k = "suggested_fix")) as [->|N3].
    { rewrite H3, K2, K1 by done. by rewrite Hk. }
    rewrite K3 by done.
    destruct (decide (k = "severity")) as [->|N2].
    { rewrite H2, K1 by done. by rewrite Hk. }
    rewrite K2 by done.
    destruct (decide (k = "analysis")) as [->|N1].
    { rewrite H1. by rewrite Hk. }
    by rewrite K1. }
  cbn [py_contains].
  assert (dict_get "explanation_for_user" e5
          = dict_get "explanation_for_user" entries) as Hx.
  { by rewrite K5, K4, K3, K2, K1. }
  case_bool_decide as Hp.
  - exists e5. cbn [and_then]. split; [done|]. split; [done|].
    do 5 (split; [done|]).
    rewrite Hx. unfold given. rewrite Hx in Hp. by destruct Hp as [v ->].
  - cbn [and_then py_getitem]. rewrite Ha. cbn [py_setitem].
    exists (dict_set "explanation_for_user"
              (given "analysis" (JStr "Unknown error occurred")) e5).
    split; [done|]. split.
    { intros k v Hk. destruct (decide (k = "explanation_for_user")) as [->|N].
      - destruct Hp. rewrite Hx, Hk. by eexists.
      - rewrite dict_get_set_ne by done. by apply Hkeep. }
    rewrite !dict_get_set_ne by done. do 5 (split; [done|]).
    rewrite dict_get_set_eq. unfold given.
    destruct (dict_get "explanation_for_user" entries) as [v|] eqn:Hv; [|done].
    destruct Hp. rewrite Hx. by eexists.
Qed.

(** X15.  [analyze_error] never raises, whatever the classifier does: it
    returns a complete diagnosis, or hands back a decoded response that
    is not a dict; and it sends one request when a classifier is
    configured (none otherwise), with no second try. *)
Theorem analyze_error_never_raises client command stdout stderr step_context :
  exists d,
    analyze_error client command stdout stderr step_context
      = (inr d,
         match client with
         | Some _ => [request command stdout stderr step_context]
         | None => []
         end) /\
    (is_diagnosis d = true \/
     (exists text, json_loads text = Some d) /\
     forall entries, d <> JDict entries).
Proof.
  destruct (analyze_error_shape client command stdout stderr step_context)
    as (d & Hd & Hshape).
  exists d. split; [|done].
  unfold analyze_error in *. destruct client as [c|]; cbn [fst] in *.
  - destruct (_gpt_analyze _ _ _ _ _); cbn [fst] in Hd; by rewrite Hd.
  - by rewrite Hd.
Qed.

(** X16.  [attempt_recovery] never reports a recovery: it returns [False] with
    a message, whatever the classifier does; it raises only [TypeError],
    and only on a decoded response that is not a dict. *)
Theorem attempt_recovery_never_succeeds client command stdout stderr
    step_context :
  match (attempt_recovery client command stdout stderr step_context).1 with
  | inr (ok, _) => ok = false
  | inl e =>
      e = TypeError /\
      exists d,
        (analyze_error client command stdout stderr step_context).1 = inr d /\
        is_diagnosis d = false
  end.
Proof.
  unfold attempt_recovery.
  destruct (analyze_error_shape client command stdout stderr
              step_context) as (d & Hd & Hshape).
  destruct (analyze_error client command stdout stderr step_context)
    as [analyzed sent]. cbn [fst] in *. subst analyzed. cbn [and_then].
  destruct d as [| | | | |entries]; cbn [py_getitem and_then];
    try (split; [done|]; eexists; split; done).
  destruct Hshape as [Hdiag|[_ Hnd]]; [|by destruct (Hnd entries)].
  unfold is_diagnosis, required_fields in Hdiag. cbn [forallb] in Hdiag.
  repeat (apply andb_prop in Hdiag as [?%bool_decide_eq_true Hdiag]).
  repeat match goal with
         | H : is_Some (dict_get _ entries) |- _ => destruct H as [? ->]
         end.
  cbn [and_then]. by destruct (_ && _)%bool.
Qed.

End Analyzer.

(** Concrete runs.  Without a client neither JSON function is called. *)
Definition no_dumps : json -> string := fun _ => "".
Definition no_loads : string -> option json := fun _ => None.

(** Three failed commands, no client configured: stderr holds both
    "command not found" and "permission denied"; stderr says "Address
    already in use" without the "bind: " prefix; a docker command runs out
    of disk space. *)
Lemma fallback_analysis_counterexample :
  (contains "permission denied"
     (lower "bash: foo: command not found; Permission denied") = true /\
   field "fix_type"
     (analyze_error no_dumps no_loads None "ls" ""
        "bash: foo: command not found; Permission denied" JNull)
     = Some (JStr "install_dependency") /\
   field "can_auto_retry"
     (analyze_error no_dumps no_loads None "ls" ""
        "bash: foo: command not found; Permission denied" JNull)
     = Some (JBool false)) /\
  (contains "address already in use"
     (lower "OSError: [Errno 98] Address already in use") = true /\
   field "fix_type"
     (analyze_error no_dumps no_loads None "python3 -m http.server 8080" ""
        "OSError: [Errno 98] Address already in use" JNull)
     = Some (JStr "manual_intervention")) /\
  (contains "no space left"
     (lower "write /var/lib/docker/tmp/layer: no space left on device") = true /\
   field "severity"
     (analyze_error no_dumps no_loads None "docker pull jellyfin/jellyfin" ""
        "write /var/lib/docker/tmp/layer: no space left on device" JNull)
     = Some (JStr "medium")).
Proof. vm_compute. repeat split. Qed.

(** The test of the repository: [_fallback_analyze] on "permission
    denied" and on "command not found". *)
Example test_error_recovery_fallback :
  get "fix_type" (_fallback_analyze "docker ps" "" "permission denied")
    = Some (JStr "modify_command") /\
  get "fix_type" (_fallback_analyze "ls" "" "command not found")
    = Some (JStr "install_dependency").
Proof. vm_compute. split; reflexivity. Qed.

(** A classifier that answers with the JSON array of the six field names,
    and a decoder that knows that one text. *)
Definition fields_text : string :=
  "[" +:+ join ", " (map (fun k => dq +:+ k +:+ dq) required_fields) +:+ "]".

Definition array_client : Client := fun _ => ApiResponse [Some fields_text].

Definition array_loads : string -> option json :=
  fun text =>
    if String.eqb text fields_text
    then Some (JList (map JStr required_fields))
    else None.

Lemma analyze_error_echoes_list_witness :
  (analyze_error no_dumps array_loads (Some array_client)
     "curl http://example.invalid" "" "curl: (6) Could not resolve host" JNull).1
    = inr (JList (map JStr required_fields)) /\
  is_diagnosis (JList (map JStr required_fields)) = false /\
  get "fix_type" (JList (map JStr required_fields)) = None.
Proof.
  apply (analyze_error_echoes_list no_dumps array_loads array_client fields_text).
  - reflexivity.
  - discriminate.
  - vm_compute. reflexivity.
Defined.

(** A classifier that cannot be reached; one that answers in prose; one
    that answers with a dict that leaves fields out. *)
Definition down_client : Client := fun _ => ApiRaises "APIConnectionError".

Definition prose_client : Client :=
  fun _ => ApiResponse [Some "Sorry, I cannot help with that."].

Definition partial_text : string :=
  "{" +:+ dq +:+ "analysis" +:+ dq +:+ ": " +:+ dq +:+ "Disk is full" +:+ dq
    +:+ ", " +:+ dq +:+ "can_auto_retry" +:+ dq +:+ ": true}".

Definition partial_client : Client := fun _ => ApiResponse [Some partial_text].

Definition partial_loads : string -> option json :=
  fun text =>
    if String.eqb text partial_text
    then Some (JDict [("analysis", JStr "Disk is full");
                      ("can_auto_retry", JBool true)])
    else None.

Lemma classifier_failure_falls_back_witness :
  (analyze_error no_dumps no_loads (Some down_client) "docker ps" ""
     "permission denied" JNull).1
    = inr (_fallback_analyze "docker ps" "" "permission denied").
Proof.
  exact (f_equal fst
           (classifier_failure_falls_back no_dumps no_loads down_client
              "docker ps" "" "permission denied" JNull I)).
Defined.

Lemma undecodable_response_marks_fallback_witness :
  exists entries a,
    (analyze_error no_dumps no_loads None "ls" "" "command not found" JNull).1
      = inr (JDict entries) /\
    dict_get "analysis" entries = Some (JStr a) /\
    (analyze_error no_dumps no_loads (Some prose_client) "ls" ""
       "command not found" JNull).1
      = inr (JDict (dict_set "analysis" (JStr (a +:+ " (GPT parsing failed)"))
                      entries)) /\
    forall k, k <> "analysis" ->
      dict_get k (dict_set "analysis" (JStr (a +:+ " (GPT parsing failed)"))
                    entries)
      = dict_get k entries.
Proof.
  apply (undecodable_response_marks_fallback no_dumps no_loads prose_client
           "Sorry, I cannot help with that." []).
  - reflexivity.
  - discriminate.
  - reflexivity.
Defined.

Lemma decoded_dict_keeps_fields_and_defaults_witness :
  exists d,
    (analyze_error no_dumps partial_loads (Some partial_client) "apt install x"
       "" "E: No space left on device" JNull).1 = inr (JDict d) /\
    dict_get "analysis" d = Some (JStr "Disk is full") /\
    dict_get "fix_type" d = Some (JStr "manual_intervention") /\
    dict_get "can_auto_retry" d = Some (JBool true) /\
    dict_get "explanation_for_user" d = Some (JStr "Disk is full").
Proof.
  destruct (decoded_dict_keeps_fields_and_defaults no_dumps partial_loads
              partial_client partial_text []
              [("analysis", JStr "Disk is full"); ("can_auto_retry", JBool true)]
              "apt install x" "" "E: No space left on device" JNull)
    as (d & Hd & _ & Ha & _ & _ & Ht & Hr & Hx).
  - reflexivity.
  - discriminate.
  - vm_compute. reflexivity.
  - exists d. by repeat split.
Defined.

End ErrorRecovery.

(* ===================================================================== *)
(** * executor.py *)
(* ===================================================================== *)

Module Executor.

Import PyStr.
Import ErrorRecovery.

(** [class ExecutionResult]; [timestamp] is the instant
    [datetime.now()] returned. *)
Record ExecutionResult := {
  success : bool;
  returncode : Z;
  stdout : string;
  stderr : string;
  duration_ms : Z;
  timestamp : Z
}.

(** ** StateManager: the two SQLite tables *)

(** A row of [sessions]. *)
Record SessionRow := {
  s_id : Z;
  s_session_id : string;
  s_hardware_profile : string;
  s_user_requirements : string;
  s_plan_json : string;
  s_current_step : Z;
  s_status : string;
  s_created_at : Z;
  s_updated_at : Z
}.

(** A row of [execution_state]. *)
Record StateRow := {
  e_id : Z;
  e_session_id : string;
  e_step_number : Z;
  e_step_name : string;
  e_status : string;
  e_result_json : option ExecutionResult;
  e_timestamp : Z
}.

Record DB := {
  sessions : list SessionRow;
  execution_state : list StateRow
}.

(** The rowid SQLite gives an inserted row: one more than the largest. *)
Definition next_id (ids : list Z) : Z := 1 + foldr Z.max 0 ids.

(** [create_session]: INSERT OR REPLACE on the UNIQUE [session_id]; the
    columns the statement does not name take their defaults.  The three
    documents are passed as their [json.dumps] text. *)
Definition create_session (now : Z) (session_id : string)
    (hardware requirements plan : string) (d : DB) : DB :=
  let row := {| s_id := next_id (map s_id (sessions d));
                s_session_id := session_id;
                s_hardware_profile := hardware;
                s_user_requirements := requirements;
                s_plan_json := plan;
                s_current_step := 0;
                s_status := "in_progress";
                s_created_at := now;
                s_updated_at := now |} in
  {| sessions :=
       filter (fun r => s_session_id r <> session_id) (sessions d) ++ [row];
     execution_state := execution_state d |}.

(** [get_session] *)
Definition get_session (session_id : string) (d : DB) : option SessionRow :=
  head (filter (fun r => s_session_id r = session_id) (sessions d)).

(** [update_step]: one INSERT into [execution_state], one UPDATE of the
    session's row. *)
Definition update_step (now : Z) (session_id : string) (step_number : Z)
    (step_name status : string) (result : option ExecutionResult) (d : DB)
    : DB :=
  let row := {| e_id := next_id (map e_id (execution_state d));
                e_session_id := session_id;
                e_step_number := step_number;
                e_step_name := step_name;
                e_status := status;
                e_result_json := result;
                e_timestamp := now |} in
  {| sessions :=
       map (fun r =>
              if decide (s_session_id r = session_id)
              then {| s_id := s_id r;
                      s_session_id := s_session_id r;
                      s_hardware_profile := s_hardware_profile r;
                      s_user_requirements := s_user_requirements r;
                      s_plan_json := s_plan_json r;
                      s_current_step := step_number;
                      s_status := s_status r;
                      s_created_at := s_created_at r;
                      s_updated_at := now |}
              else r) (sessions d);
     execution_state := execution_state d ++ [row] |}.

(** SELECT DISTINCT: each value once, at the place of its first
    occurrence. *)
Definition distinct (l : list Z) : list Z :=
  reverse (remove_dups (reverse l)).

(** [get_completed_steps]: SELECT DISTINCT step_number ... WHERE
    session_id = ? AND status = 'completed'. *)
Definition get_completed_steps (session_id : string) (d : DB) : list Z :=
  distinct
    (map e_step_number
       (filter (fun r => e_session_id r = session_id /\ e_status r = "completed")
          (execution_state d))).

(** [complete_session] *)
Definition complete_session (now : Z) (session_id : string) (ok : bool)
    (d : DB) : DB :=
  {| sessions :=
       map (fun r =>
              if decide (s_session_id r = session_id)
              then {| s_id := s_id r;
                      s_session_id := s_session_id r;
                      s_hardware_profile := s_hardware_profile r;
                      s_user_requirements := s_user_requirements r;
                      s_plan_json := s_plan_json r;
                      s_current_step := s_current_step r;
                      s_status := if ok then "completed" else "failed";
                      s_created_at := s_created_at r;
                      s_updated_at := now |}
              else r) (sessions d);
     execution_state := execution_state d |}.

(** ** ExecutionEngine *)

(** A plan step: the keys the engine reads from the step's dict, each
    absent ([None]) or present. *)
Record Step := {
  step_number : option Z;
  name : option string;
  description : option string;
  command : option string;
  commands : list string;
  requires_sudo : bool;
  check_command : option string
}.

(** What is handed to [subprocess.run]: a string for the shell, or an
    argument vector. *)
Inductive cmdline :=
| Shell (text : string)
| Argv (args : list string).

(** What the engine does to the outside, in order. *)
Inductive event :=
| EnterStep (step : Step)                   (* [execute_step] is entered *)
| Spawn (c : cmdline) (timeout : Z)         (* [subprocess.run] *)
| Input (prompt : string)                   (* [input] *)
| Request (prompt : string).                (* sent to the classifier *)

(** What [subprocess.run] does. *)
Inductive proc_outcome :=
| Completed (code : Z) (out err : string)
| TimeoutExpired
| OSError (msg : string)
| OtherError (msg : string).

(** The world of the engine: the database, the clock (milliseconds),
    the lines still to be read from standard input, and what was done so
    far. *)
Record World := {
  db : DB;
  clock : Z;
  stdin : list string;
  trace : list event
}.

Definition set_db (d : DB) (w : World) : World :=
  {| db := d; clock := clock w; stdin := stdin w; trace := trace w |}.

Definition log (ev : event) (w : World) : World :=
  {| db := db w; clock := clock w; stdin := stdin w;
     trace := trace w ++ [ev] |}.

(** Exceptions that leave the engine. *)
Inductive exn :=
| NoActiveSession     (* ValueError("No active session. ...") *)
| EOFError            (* [input] at the end of standard input *)
| JoinTypeError       (* [' '.join] of a list that holds a non-string *)
| AttributeError      (* [.get] on an analysis that is not a dict *)
| AnalyzerRaised (e : ErrorRecovery.exn).

Record Engine := {
  dry_run : bool;
  auto_approve : bool;
  session_id : option string
}.

(** [DANGEROUS_PATTERNS] *)
Definition DANGEROUS_PATTERNS : list string :=
  [ "rm -rf /";
    "rm -rf /*";
    "mkfs";
    "dd if=/dev/zero";
    ":(){ :|:& };:";
    "> /dev/sda";
    ">/dev/sda";
    "mv /* /dev/null";
    "chmod -R 777 /";
    "chmod -R 777 /*";
    "mkfs.ext4 /dev/sda";
    "mkfs.xfs /dev/sda";
    "mkfs.btrfs /dev/sda";
    "dd of=/dev/sda";
    "dd if=/dev/random of=/dev/sda";
    "dd if=/dev/urandom of=/dev/sda";
    "shred /dev/sda";
    "echo " +:+ dq +:+ "* * * * * rm -rf /" +:+ dq +:+ " | crontab" ].

(** [validate_command] *)
Definition validate_command (cmd : string) : bool * string :=
  if decide (cmd = "" \/ strip cmd = "") then (false, "Empty command")
  else
    let cmd_lower := lower cmd in
    match filter (fun pattern => contains pattern cmd_lower = true)
            DANGEROUS_PATTERNS with
    | pattern :: _ =>
        (false, "Command contains dangerous pattern: " +:+ pattern)
    | [] => (true, "OK")
    end.

Section Engine.

(** [subprocess.run] on a command and a timeout, after what was done
    before: its outcome and the milliseconds it took. *)
Variable subprocess_run : list event -> cmdline -> Z -> proc_outcome * Z.

(** The classifier client the environment configures (OPENAI_API_KEY),
    with the two JSON functions the analyzer uses. *)
Variable client : option Client.
Variable json_dumps : json -> string.
Variable json_loads : string -> option json.

Definition result_now (ok : bool) (code : Z) (out err : string) (ms : Z)
    (w : World) : ExecutionResult :=
  {| success := ok; returncode := code; stdout := out; stderr := err;
     duration_ms := ms; timestamp := clock w |}.

(** [subprocess.run(...)] inside the [try] of [_run_command]. *)
Definition run_process (c : cmdline) (timeout : Z) (w : World)
    : ExecutionResult * World :=
  let '(outcome, ms) := subprocess_run (trace w) c timeout in
  let w := log (Spawn c timeout) w in
  let w := {| db := db w; clock := clock w + ms; stdin := stdin w;
              trace := trace w |} in
  match outcome with
  | Completed code out err =>
      (result_now (code =? 0) code out err ms w, w)
  | TimeoutExpired =>
      (result_now false (-1) ""
         ("Command timed out after " +:+ pretty timeout +:+ "s") ms w, w)
  | OSError msg =>
      (result_now false (-1) "" ("OS error: " +:+ msg) ms w, w)
  | OtherError msg =>
      (result_now false (-1) "" ("Unexpected error: " +:+ msg) ms w, w)
  end.

(** The strings of a list, if all its items are strings. *)
Fixpoint strings_of (items : list json) : option (list string) :=
  match items with
  | [] => Some []
  | JStr s :: rest =>
      match strings_of rest with
      | Some l => Some (s :: l)
      | None => None
      end
  | _ :: _ => None
  end.

(** [_run_command]; the command is any Python value. *)
Definition _run_command (cmd : json) (timeout : Z) (w : World)
    : (exn + ExecutionResult) * World :=
  let timeout :=
    if ((timeout <=? 0) || (3600 <? timeout))%bool then 300 else timeout in
  match cmd with
  | JList items =>
      match strings_of items with
      | Some args =>
          let '(r, w') := run_process (Argv args) timeout w in (inr r, w')
      | None => (inl JoinTypeError, w)
      end
  | JStr text =>
      if decide (strip text = "")
      then (inr (result_now false (-1) "" "Empty command provided" 0 w), w)
      else let '(r, w') := run_process (Shell text) timeout w in (inr r, w')
  | _ => (inr (result_now false (-1) "" "Invalid command type" 0 w), w)
  end.

(** [input(prompt)] *)
Definition input (prompt : string) (w : World) : (exn + string) * World :=
  let w := log (Input prompt) w in
  match stdin w with
  | [] => (inl EOFError, w)
  | line :: rest =>
      (inr line, {| db := db w; clock := clock w; stdin := rest;
                    trace := trace w |})
  end.

(** [self.state.update_step(self.session_id, ...)] *)
Definition record_step (sid : string) (number : Z) (nm status : string)
    (r : ExecutionResult) (w : World) : World :=
  set_db (update_step (clock w) sid number nm status (Some r) (db w)) w.

(** [step.get(k)] is truthy: present and not empty. *)
Definition truthy_str (v : option string) : option string :=
  match v with
  | Some "" => None
  | other => other
  end.

(** The list [commands] that [execute_step] builds. *)
Definition commands_of (step : Step) : list string :=
  match truthy_str (command step) with
  | Some c => c :: commands step
  | None => commands step
  end.

(** [x in ['y', 'yes']] *)
Definition is_yes (x : string) : bool :=
  (String.eqb x "y" || String.eqb x "yes")%bool.

(** The body of [for cmd in commands] in [execute_step], from the
    commands still to run; [last] is the result of the command before. *)
Fixpoint run_commands (e : Engine) (sid : string) (step : Step)
    (number : Z) (nm : string) (timeout : Z) (cmds : list string)
    (last : ExecutionResult) (w : World)
    : (exn + (bool * ExecutionResult)) * World :=
  match cmds with
  | [] => (inr (true, last), w)
  | cmd :: rest =>
      let '(safe, reason) := validate_command cmd in
      if negb safe then
        let r := result_now false (-1) "" ("Validation failed: " +:+ reason)
                   0 w in
        (inr (false, r), record_step sid number nm "failed" r w)
      else
        let asked :=
          if (negb (auto_approve e) && requires_sudo step)%bool then
            match input "This step requires sudo. Execute? [Y/n]: " w with
            | (inl ex, w1) => (inl ex, w1)
            | (inr line, w1) =>
                let confirm := lower (strip line) in
                (inr (negb (String.eqb confirm "") && negb (is_yes confirm))%bool,
                 w1)
            end
          else (inr false, w) in
        match asked with
        | (inl ex, w1) => (inl ex, w1)
        | (inr true, w1) =>
            let r := result_now false (-1) "" "User cancelled" 0 w1 in
            (inr (false, r), record_step sid number nm "cancelled" r w1)
        | (inr false, w1) =>
            let ran :=
              if dry_run e
              then (inr (result_now true 0 "[DRY RUN]" "" 0 w1), w1)
              else _run_command (JStr cmd) timeout w1 in
            match ran with
            | (inl ex, w2) => (inl ex, w2)
            | (inr r, w2) =>
                if negb (success r)
                then (inr (false, r), record_step sid number nm "failed" r w2)
                else run_commands e sid step number nm timeout rest r w2
            end
        end
  end.

(** [execute_step] *)
Definition execute_step (e : Engine) (step : Step) (timeout : Z) (w : World)
    : (exn + ExecutionResult) * World :=
  let w := log (EnterStep step) w in
  match truthy_str (session_id e) with
  | None => (inl NoActiveSession, w)
  | Some sid =>
      let number := default 0 (step_number step) in
      let nm := default "Unknown" (name step) in
      match commands_of step with
      | [] =>
          let r := result_now true 0 "" "" 0 w in
          (inr r, record_step sid number nm "completed" r w)
      | cmds =>
          match run_commands e sid step number nm timeout cmds
                  (result_now true 0 "" "" 0 w) w with
          | (inl ex, w1) => (inl ex, w1)
          | (inr (false, r), w1) => (inr r, w1)
          | (inr (true, r), w1) =>
              let w2 :=
                match truthy_str (check_command step) with
                | Some check =>
                    if dry_run e then w1
                    else (_run_command (JStr check) 30 w1).2
                | None => w1
                end in
              (inr r, record_step sid number nm "completed" r w2)
          end
      end
  end.

(** [step.get('step_number', i)] in [execute_plan] *)
Definition step_num (i : nat) (step : Step) : Z :=
  default (Z.of_nat i) (step_number step).

(** [analysis.get(k)] *)
Definition analysis_get (k : string) (analysis : json) : exn + option json :=
  match analysis with
  | JDict entries => inr (dict_get k entries)
  | _ => inl AttributeError
  end.

(** The truth value of what [.get] returned. *)
Definition truthy (v : option json) : bool :=
  match v with
  | None | Some JNull => false
  | Some (JBool b) => b
  | Some (JNum x) => negb (Qeq_bool x 0)
  | Some (JStr s) => negb (String.eqb s "")
  | Some (JList items) => negb (bool_decide (items = []))
  | Some (JDict entries) => negb (bool_decide (entries = []))
  end.

(** What [.get] returned, as the Python value it is. *)
Definition value_of (v : option json) : json :=
  match v with
  | Some x => x
  | None => JNull
  end.

(** [results[-1] = result] *)
Definition set_last (r : ExecutionResult) (results : list ExecutionResult)
    : list ExecutionResult :=
  match results with
  | [] => []
  | _ => take (length results - 1) results ++ [r]
  end.

(** [step_context] of the recovery block *)
Definition step_context (sid : string) (step : Step) (num : Z) : json :=
  JDict [ ("step_number", JNum (inject_Z num));
          ("step_name", match name step with
                        | Some n => JStr n
                        | None => JNull
                        end);
          ("session_id", JStr sid) ].

(** [step.get('command') or ' '.join(step.get('commands', []))] *)
Definition command_text (step : Step) : string :=
  match truthy_str (command step) with
  | Some c => c
  | None => join " " (commands step)
  end.

(** [recovery.analyze_error(command, result.stdout, result.stderr,
    step_context)] *)
Definition analyze (sid : string) (step : Step) (num : Z)
    (result : ExecutionResult) : (ErrorRecovery.exn + json) * list string :=
  analyze_error json_dumps json_loads client (command_text step)
    (stdout result) (stderr result) (step_context sid step num).

(** The requests the analyzer sent, put on the trace. *)
Definition log_requests (sent : list string) (w : World) : World :=
  foldl (fun w p => log (Request p) w) w sent.

(** The "Attempt error recovery" block of [execute_plan], entered with
    the failed [result] of [step]: the result of a successful retry
    ([continue]), or nothing ([break]). *)
Definition recover (e : Engine) (step : Step) (num : Z)
    (result : ExecutionResult) (w : World)
    : (exn + option ExecutionResult) * World :=
  match truthy_str (session_id e) with
  | None => (inr None, w)
  | Some sid =>
      let '(analyzed, sent) := analyze sid step num result in
      let w := log_requests sent w in
      match analyzed with
      | inl ex => (inl (AnalyzerRaised ex), w)
      | inr analysis =>
          match analysis_get "can_auto_retry" analysis,
                analysis_get "suggested_fix" analysis with
          | inr can_auto_retry, inr suggested_fix =>
              if (truthy can_auto_retry && negb (dry_run e))%bool then
                match input (nl +:+ "   Attempt automatic fix? [Y/n]: ") w with
                | (inl ex, w1) => (inl ex, w1)
                | (inr line, w1) =>
                    let retry := lower (strip line) in
                    if (String.eqb retry "" || is_yes retry)%bool then
                      match _run_command (value_of suggested_fix) 60 w1 with
                      | (inl ex, w2) => (inl ex, w2)
                      | (inr fix_result, w2) =>
                          if success fix_result then
                            match execute_step e step 300 w2 with
                            | (inl ex, w3) => (inl ex, w3)
                            | (inr again, w3) =>
                                if success again
                                then (inr (Some again), w3)
                                else (inr None, w3)
                            end
                          else (inr None, w2)
                      end
                    else (inr None, w1)
                end
              else (inr None, w)
          | _, _ => (inl AttributeError, w)
          end
      end
  end.

(** The loop [for i, step in enumerate(steps)] of [execute_plan], from
    index [i] on. *)
Fixpoint run_steps (e : Engine) (completed : list Z) (resume_from : Z)
    (i : nat) (steps : list Step) (results : list ExecutionResult)
    (w : World) : (exn + list ExecutionResult) * World :=
  match steps with
  | [] => (inr results, w)
  | step :: rest =>
      let num := step_num i step in
      if decide (num ∈ completed) then
        run_steps e completed resume_from (S i) rest results w
      else if num <? resume_from then
        run_steps e completed resume_from (S i) rest results w
      else
        match execute_step e step 300 w with
        | (inl ex, w1) => (inl ex, w1)
        | (inr result, w1) =>
            let results := results ++ [result] in
            if success result then
              run_steps e completed resume_from (S i) rest results w1
            else
              match recover e step num result w1 with
              | (inl ex, w2) => (inl ex, w2)
              | (inr (Some again), w2) =>
                  run_steps e completed resume_from (S i) rest
                    (set_last again results) w2
              | (inr None, w2) => (inr results, w2)
              end
        end
  end.

(** [execute_plan] *)
Definition execute_plan (e : Engine) (steps : list Step) (resume_from : Z)
    (w : World) : (exn + list ExecutionResult) * World :=
  let completed :=
    match truthy_str (session_id e) with
    | Some sid => get_completed_steps sid (db w)
    | None => []
    end in
  match run_steps e completed resume_from 0 steps [] w with
  | (inl ex, w1) => (inl ex, w1)
  | (inr results, w1) =>
      match truthy_str (session_id e) with
      | Some sid =>
          (inr results,
           set_db (complete_session (clock w1) sid (forallb success results)
                     (db w1)) w1)
      | None => (inr results, w1)
      end
  end.

(** ** Reading the trace *)

(** The steps [execute_step] was entered with, in order. *)
Definition entered (tr : list event) : list Step :=
  omap (fun ev => match ev with EnterStep s => Some s | _ => None end) tr.

(** The commands handed to [subprocess.run], in order. *)
Definition spawned (tr : list event) : list cmdline :=
  omap (fun ev => match ev with Spawn c _ => Some c | _ => None end) tr.

(** The completed steps [execute_plan] reads when it starts. *)
Definition completed_at_start (e : Engine) (w : World) : list Z :=
  match truthy_str (session_id e) with
  | Some sid => get_completed_steps sid (db w)
  | None => []
  end.

(** ** Properties of the state store *)

Lemma filter_other_then_same (sid : string) (rows : list SessionRow) :
  filter (fun r => s_session_id r = sid)
    (filter (fun r => s_session_id r <> sid) rows) = [].
Proof.
  induction rows as [|r rows IH]; [done|].
  rewrite filter_cons. case_decide as Hr; [|done].
  rewrite filter_cons. by case_decide.
Qed.

Lemma filter_other_idem (sid : string) (rows : list SessionRow) :
  filter (fun r => s_session_id r <> sid)
    (filter (fun r => s_session_id r <> sid) rows)
  = filter (fun r => s_session_id r <> sid) rows.
Proof.
  induction rows as [|r rows IH]; [done|].
  rewrite filter_cons. case_decide as Hr; [|done].
  rewrite filter_cons. case_decide; [|done]. by rewrite IH.
Qed.

Lemma next_id_above (ids : list Z) : Forall (fun i => i < next_id ids) ids.
Proof.
  unfold next_id. induction ids as [|i ids IH]; constructor; simpl.
  - lia.
  - eapply Forall_impl; [exact IH|]. simpl. lia.
Qed.

(** C10.  [create_session] on an id that is already in [sessions] leaves
    exactly one row with that id, a new one (its rowid is above every old
    rowid): [current_step] 0, status [in_progress], [created_at] and
    [updated_at] the current instant, the documents as given; the row
    that held the id before is gone.  The rows of other sessions and the
    whole of [execution_state] are unchanged. *)
Theorem create_session_replaces now sid hardware requirements plan d :
  sid ∈ map s_session_id (sessions d) ->
  let d' := create_session now sid hardware requirements plan d in
  (exists row,
     filter (fun r => s_session_id r = sid) (sessions d') = [row] /\
     get_session sid d' = Some row /\
     s_current_step row = 0 /\
     s_status row = "in_progress" /\
     s_created_at row = now /\
     s_updated_at row = now /\
     s_hardware_profile row = hardware /\
     s_user_requirements row = requirements /\
     s_plan_json row = plan /\
     Forall (fun old => s_id old < s_id row) (sessions d)) /\
  filter (fun r => s_session_id r <> sid) (sessions d')
    = filter (fun r => s_session_id r <> sid) (sessions d) /\
  (exists old,
     old ∈ sessions d /\ s_session_id old = sid /\ (old ∉ sessions d')) /\
  execution_state d' = execution_state d /\
  get_completed_steps sid d' = get_completed_steps sid d.
Proof.
  intros Hin d'. subst d'. unfold create_session, get_session; simpl.
  split; [|split; [|split; [|done]]].
  3:{ apply list_elem_of_fmap in Hin as (old & Hsid & Hold).
      exists old. split; [done|]. split; [done|].
      intros Hnew. apply elem_of_app in Hnew as [Hnew|Hnew].
      - apply list_elem_of_filter in Hnew as [Hne _]. done.
      - apply list_elem_of_singleton in Hnew.
        pose proof (next_id_above (map s_id (sessions d))) as H.
        rewrite Forall_map, Forall_forall in H. specialize (H old Hold).
        rewrite Hnew in H. simpl in H. lia. }
  - eexists. rewrite filter_app, filter_other_then_same. simpl.
    rewrite filter_cons, decide_True by done. simpl.
    repeat (split; [reflexivity|]).
    pose proof (next_id_above (map s_id (sessions d))) as H.
    by rewrite Forall_map in H.
  - rewrite filter_app, filter_other_idem.
    rewrite filter_cons, decide_False by (simpl; auto). simpl.
    by rewrite app_nil_r.
Qed.

(** ** Properties of the engine: which steps are entered *)

Lemma entered_app tr1 tr2 : entered (tr1 ++ tr2) = entered tr1 ++ entered tr2.
Proof. apply omap_app. Qed.

Lemma spawned_app tr1 tr2 : spawned (tr1 ++ tr2) = spawned tr1 ++ spawned tr2.
Proof. apply omap_app. Qed.

Lemma input_entered p w : entered (trace (input p w).2) = entered (trace w).
Proof.
  unfold input. destruct (stdin _); simpl;
    by rewrite entered_app, app_nil_r.
Qed.

Lemma run_process_entered c t w :
  entered (trace (run_process c t w).2) = entered (trace w).
Proof.
  unfold run_process. destruct (subprocess_run _ _ _) as [[] ms]; simpl;
    by rewrite entered_app, app_nil_r.
Qed.

Lemma _run_command_entered cmd t w :
  entered (trace (_run_command cmd t w).2) = entered (trace w).
Proof.
  unfold _run_command. destruct cmd as [| | |text|items|]; try done.
  - case_decide as Hblank; [done|].
    pose proof (run_process_entered (Shell text)
      (if ((t <=? 0) || (3600 <? t))%bool then 300 else t) w) as H.
    by destruct (run_process _ _ _).
  - destruct (strings_of items) as [args|]; [|done].
    pose proof (run_process_entered (Argv args)
      (if ((t <=? 0) || (3600 <? t))%bool then 300 else t) w) as H.
    by destruct (run_process _ _ _).
Qed.

Lemma run_commands_entered e sid step number nm timeout cmds last w :
  entered (trace (run_commands e sid step number nm timeout cmds last w).2)
  = entered (trace w).
Proof.
  revert last w. induction cmds as [|cmd rest IH]; intros last w; [done|].
  cbn [run_commands]. destruct (validate_command cmd) as [[] reason]; [|done].
  cbn [negb].
  assert (forall asked : (exn + bool) * World,
    entered (trace asked.2) = entered (trace w) ->
    entered (trace
      (match asked with
       | (inl ex, w1) => (inl ex, w1)
       | (inr true, w1) =>
           (inr (false, result_now false (-1) "" "User cancelled" 0 w1),
            record_step sid number nm "cancelled"
              (result_now false (-1) "" "User cancelled" 0 w1) w1)
       | (inr false, w1) =>
           match (if dry_run e
                  then (inr (result_now true 0 "[DRY RUN]" "" 0 w1), w1)
                  else _run_command (JStr cmd) timeout w1) with
           | (inl ex, w2) => (inl ex, w2)
           | (inr r, w2) =>
               if negb (success r)
               then (inr (false, r), record_step sid number nm "failed" r w2)
               else run_commands e sid step number nm timeout rest r w2
           end
       end).2) = entered (trace w)) as Hcont.
  { intros [[ex|[]] w1] Hw1; simpl in Hw1; [done|done|].
    destruct (dry_run e).
    - simpl. by rewrite IH.
    - pose proof (_run_command_entered (JStr cmd) timeout w1) as Hr.
      destruct (_run_command (JStr cmd) timeout w1) as [[ex|r] w2];
        simpl in Hr |- *; [congruence|].
      destruct (success r); simpl; [rewrite IH|]; congruence. }
  apply Hcont.
  destruct (negb (auto_approve e) && requires_sudo step)%bool; [|done].
  pose proof (input_entered "This step requires sudo. Execute? [Y/n]: " w) as Hi.
  by destruct (input _ w) as [[ex|line] w1].
Qed.

Lemma execute_step_entered e step timeout w :
  entered (trace (execute_step e step timeout w).2)
  = entered (trace w) ++ [step].
Proof.
  unfold execute_step.
  assert (entered (trace (log (EnterStep step) w)) = entered (trace w) ++ [step])
    as Hlog by (simpl; by rewrite entered_app).
  destruct (truthy_str (session_id e)) as [sid|]; [|done].
  destruct (commands_of step) as [|cmd cmds]; [done|].
  pose proof (run_commands_entered e sid step (default 0 (step_number step))
    (default "Unknown" (name step)) timeout (cmd :: cmds)
    (result_now true 0 "" "" 0 (log (EnterStep step) w))
    (log (EnterStep step) w)) as Hrun.
  destruct (run_commands _ _ _ _ _ _ _ _ _) as [[ex|[[] r]] w1];
    cbn [snd record_step set_db trace] in Hrun |- *; try congruence.
  destruct (truthy_str (check_command step)) as [check|]; [|congruence].
  destruct (dry_run e); [congruence|].
  rewrite _run_command_entered. congruence.
Qed.

Lemma log_requests_entered (sent : list string) w :
  entered (trace (log_requests sent w)) = entered (trace w).
Proof.
  unfold log_requests.
  revert w. induction sent as [|p sent IH]; intros w; [done|].
  simpl. rewrite IH. simpl. by rewrite entered_app, app_nil_r.
Qed.

(** The recovery block enters the failed step again at most once, and no
    other step. *)
Lemma recover_entered e step num result w :
  exists again,
    entered (trace (recover e step num result w).2)
      = entered (trace w) ++ again /\
    (again = [] \/ again = [step]).
Proof.
  unfold recover.
  destruct (truthy_str (session_id e)) as [sid|];
    [|exists []; by rewrite app_nil_r; auto].
  destruct (analyze _ _ _ _) as [[ex|analysis] sent].
  { exists []. simpl. rewrite log_requests_entered, app_nil_r. auto. }
  set (w0 := log_requests sent w).
  assert (entered (trace w0) = entered (trace w)) as H0
    by apply log_requests_entered.
  destruct (analysis_get "can_auto_retry" analysis) as [|can];
    [exists []; simpl; rewrite app_nil_r; auto|].
  destruct (analysis_get "suggested_fix" analysis) as [|sfix];
    [exists []; simpl; rewrite app_nil_r; auto|].
  destruct (truthy can && negb (dry_run e))%bool;
    [|exists []; simpl; rewrite app_nil_r; auto].
  pose proof (input_entered (nl +:+ "   Attempt automatic fix? [Y/n]: ") w0)
    as Hi.
  destruct (input _ w0) as [[ex|line] w1]; simpl in Hi;
    [exists []; simpl; rewrite app_nil_r; split; [congruence|auto]|].
  destruct (String.eqb _ "" || is_yes _)%bool;
    [|exists []; simpl; rewrite app_nil_r; split; [congruence|auto]].
  pose proof (_run_command_entered (value_of sfix) 60 w1) as Hf.
  destruct (_run_command (value_of sfix) 60 w1) as [[ex|fix_result] w2];
    simpl in Hf;
    [exists []; simpl; rewrite app_nil_r; split; [congruence|auto]|].
  destruct (success fix_result);
    [|exists []; simpl; rewrite app_nil_r; split; [congruence|auto]].
  pose proof (execute_step_entered e step 300 w2) as He.
  exists [step]. split; [|auto].
  destruct (execute_step e step 300 w2) as [[ex|again] w3]; simpl in He |- *;
    [congruence|].
  destruct (success again); simpl; congruence.
Qed.

(** Every step the loop enters stands in the plan at an index whose
    step number is neither completed nor below the resume cursor. *)
Definition may_run (completed : list Z) (resume_from : Z)
    (plan : list Step) (step : Step) : Prop :=
  exists i, plan !! i = Some step /\
            (step_num i step ∉ completed) /\
            resume_from <= step_num i step.

Lemma run_steps_entered e completed resume_from plan steps i results w :
  (forall k step, steps !! k = Some step -> plan !! (i + k)%nat = Some step) ->
  exists new,
    entered (trace (run_steps e completed resume_from i steps results w).2)
      = entered (trace w) ++ new /\
    Forall (may_run completed resume_from plan) new.
Proof.
  revert i results w.
  induction steps as [|step rest IH]; intros i results w Hplan.
  { exists []. by rewrite app_nil_r. }
  assert (forall k s, rest !! k = Some s -> plan !! (S i + k)%nat = Some s)
    as Hrest.
  { intros k s Hk. specialize (Hplan (S k) s Hk).
    by replace (S i + k)%nat with (i + S k)%nat by lia. }
  cbn [run_steps]. case_decide as Hdone; [by apply IH|].
  destruct (step_num i step <? resume_from) eqn:Hcur; [by apply IH|].
  assert (may_run completed resume_from plan step) as Hmay.
  { exists i. split; [|split; [done|]].
    - specialize (Hplan 0%nat step eq_refl).
      by replace (i + 0)%nat with i in Hplan by lia.
    - by apply Z.ltb_ge. }
  pose proof (execute_step_entered e step 300 w) as He.
  destruct (execute_step e step 300 w) as [[ex|result] w1]; simpl in He.
  { exists [step]. split; [done|]. by constructor. }
  destruct (success result).
  - destruct (IH (S i) (results ++ [result]) w1 Hrest) as (new & Hnew & Hall).
    exists (step :: new). split; [|by constructor].
    rewrite Hnew, He. by rewrite <- app_assoc.
  - destruct (recover_entered e step (step_num i step) result w1)
      as (again & Hagain & Hcases).
    assert (Forall (may_run completed resume_from plan) (step :: again))
      as Hboth.
    { constructor; [done|]. destruct Hcases as [->| ->]; repeat constructor.
      done. }
    destruct (recover e step (step_num i step) result w1)
      as [[ex|[r|]] w2]; simpl in Hagain.
    + exists (step :: again). split; [|done].
      simpl. rewrite Hagain, He. by rewrite <- app_assoc.
    + destruct (IH (S i) (set_last r (results ++ [result])) w2 Hrest)
        as (new & Hnew & Hall).
      exists (step :: again ++ new). split.
      * rewrite Hnew, Hagain, He. by rewrite <- !app_assoc.
      * rewrite app_comm_cons. by apply Forall_app.
    + exists (step :: again). split; [|done].
      simpl. rewrite Hagain, He. by rewrite <- app_assoc.
Qed.

(** C3.  Whatever the plan, the resume cursor and the state of the
    store, every step that [execute_plan] enters stands in the plan at an
    index whose step number is not among the completed steps the store
    held for the session when the run started (and is not below the
    cursor): a step recorded as completed is never executed again. *)
Theorem execute_plan_skips_completed e steps resume_from w :
  exists new,
    entered (trace (execute_plan e steps resume_from w).2)
      = entered (trace w) ++ new /\
    Forall (may_run (completed_at_start e w) resume_from steps) new.
Proof.
  unfold execute_plan. fold (completed_at_start e w).
  destruct (run_steps_entered e (completed_at_start e w) resume_from steps
              steps 0 [] w) as (new & Hnew & Hall); [done|].
  exists new. split; [|done].
  destruct (run_steps _ _ _ _ _ _ _) as [[ex|results] w1]; simpl in Hnew;
    [done|].
  by destruct (truthy_str (session_id e)).
Qed.

(** ** Properties of the engine: validation and execution *)

(** A command [validate_command] has a reason to refuse: empty or blank,
    or holding, once lower-cased, a pattern of the list as it is
    written. *)
Definition denied (cmd : string) : Prop :=
  cmd = "" \/ strip cmd = "" \/
  exists pattern, pattern ∈ DANGEROUS_PATTERNS /\
                  contains pattern (lower cmd) = true.

Lemma denied_rejected cmd : denied cmd -> (validate_command cmd).1 = false.
Proof using Type.
  intros Hd. unfold validate_command. case_decide as Hblank; [done|].
  destruct Hd as [He|[Hs|(pattern & Hin & Hc)]];
    [destruct Hblank; by left | destruct Hblank; by right |].
  destruct (filter _ DANGEROUS_PATTERNS) as [|p ps] eqn:Hf; [|done].
  assert (pattern ∈ filter (fun q => contains q (lower cmd) = true)
            DANGEROUS_PATTERNS) as Hp by by apply list_elem_of_filter.
  rewrite Hf in Hp. by apply elem_of_nil in Hp.
Qed.

Lemma accepted_not_blank cmd :
  (validate_command cmd).1 = true -> strip cmd <> "".
Proof using Type.
  unfold validate_command. case_decide as Hblank; [done|].
  intros _ Hs. apply Hblank. by right.
Qed.

Lemma input_spawned p w : spawned (trace (input p w).2) = spawned (trace w).
Proof.
  unfold input. destruct (stdin _); simpl;
    by rewrite spawned_app, app_nil_r.
Qed.

Lemma input_raises p w ex w1 : input p w = (inl ex, w1) -> ex = EOFError.
Proof. unfold input. destruct (stdin _); by intros [= <- _]. Qed.

Lemma run_process_spawned c t w :
  spawned (trace (run_process c t w).2) = spawned (trace w) ++ [c].
Proof.
  unfold run_process. destruct (subprocess_run _ _ _) as [[] ms]; simpl;
    by rewrite spawned_app.
Qed.

(** [_run_command] on a string that is not blank spawns that string,
    and returns. *)
Lemma _run_command_shell text t w :
  strip text <> "" ->
  exists r w',
    _run_command (JStr text) t w = (inr r, w') /\
    spawned (trace w') = spawned (trace w) ++ [Shell text].
Proof.
  intros Hs. unfold _run_command. rewrite decide_False by done.
  pose proof (run_process_spawned (Shell text)
    (if ((t <=? 0) || (3600 <? t))%bool then 300 else t) w) as H.
  destruct (run_process _ _ _) as [r w']. by exists r, w'.
Qed.

(** The commands of a step are taken in order: each is validated, then
    confirmed, then executed, before the next one is looked at.  So what
    is executed is a prefix of the list, made of accepted commands only,
    and the loop completes only if the prefix is the whole list. *)
Lemma run_commands_spawned e sid step number nm timeout cmds last w :
  exists k,
    (k <= length cmds)%nat /\
    Forall (fun c => (validate_command c).1 = true) (take k cmds) /\
    spawned (trace (run_commands e sid step number nm timeout cmds last w).2)
      = spawned (trace w)
          ++ (if dry_run e then [] else Shell <$> take k cmds) /\
    match (run_commands e sid step number nm timeout cmds last w).1 with
    | inl ex => ex = EOFError
    | inr (true, _) => k = length cmds
    | inr (false, r) => success r = false
    end.
Proof.
  assert (forall tr : list cmdline,
            tr = tr ++ (if dry_run e then [] else Shell <$> take 0 cmds))
    as Hnone by (intros tr; simpl; destruct (dry_run e); by rewrite app_nil_r).
  revert last w Hnone. induction cmds as [|cmd rest IH]; intros last w Hnone.
  { exists 0%nat. repeat split; [done | constructor | apply Hnone]. }
  cbn [run_commands].
  destruct (validate_command cmd) as [safe reason] eqn:Hv.
  destruct safe; cbn [negb].
  2:{ exists 0%nat. cbn [fst snd record_step set_db trace].
      repeat split; [simpl; lia | constructor | apply Hnone]. }
  assert ((validate_command cmd).1 = true) as Hok by by rewrite Hv.
  assert (forall tr : list cmdline,
            tr = tr ++ (if dry_run e then [] else Shell <$> take 0 rest))
    as Hnone' by (intros tr; simpl; destruct (dry_run e); by rewrite app_nil_r).
  (* the confirmation *)
  set (asked := if (negb (auto_approve e) && requires_sudo step)%bool
                then _ else _).
  assert (spawned (trace asked.2) = spawned (trace w) /\
          forall ex, asked.1 = inl ex -> ex = EOFError) as [Ha Hex].
  { subst asked.
    destruct (negb (auto_approve e) && requires_sudo step)%bool; [|done].
    pose proof (input_spawned "This step requires sudo. Execute? [Y/n]: " w)
      as Hi.
    destruct (input _ w) as [[ex|line] w1] eqn:Hin; cbn [fst snd] in *.
    - split; [done|]. intros ex' [= <-]. by eapply input_raises.
    - done. }
  destruct asked as [[ex|[]] w1]; cbn [fst snd] in *.
  - exists 0%nat.
    repeat split; [simpl; lia | constructor | | by apply Hex].
    rewrite Ha. apply Hnone.
  - exists 0%nat. cbn [fst snd record_step set_db trace].
    repeat split; [simpl; lia | constructor | ].
    rewrite Ha. apply Hnone.
  - destruct (dry_run e) eqn:Hdry.
    + cbn [success result_now negb].
      destruct (IH (result_now true 0 "[DRY RUN]" "" 0 w1) w1 Hnone')
        as (k & Hk & Hall & Hsp & Hres).
      exists (S k). repeat split; [simpl; lia | by constructor | |].
      * rewrite Hsp, Ha. by rewrite !app_nil_r.
      * destruct (run_commands _ _ _ _ _ _ _ _ _).1 as [|[[] r]]; try done.
        by rewrite Hres.
    + destruct (_run_command_shell cmd timeout w1 (accepted_not_blank _ Hok))
        as (r & w2 & -> & Hsp2).
      destruct (success r) eqn:Hr; cbn [negb].
      * destruct (IH r w2 Hnone') as (k & Hk & Hall & Hsp & Hres).
        exists (S k). repeat split; [simpl; lia | by constructor | |].
        -- rewrite Hsp, Hsp2, Ha. by rewrite <- app_assoc.
        -- destruct (run_commands _ _ _ _ _ _ _ _ _).1 as [|[[] r']];
             try done. by rewrite Hres.
      * exists 1%nat. cbn [fst snd record_step set_db trace].
        repeat split; [simpl; lia | by repeat constructor | | done].
        by rewrite Hsp2, Ha.
Qed.

(** X30.  Validation is applied command by command, in order, just before
    each command would run.  For a step that has, among the commands it
    runs (a non-empty [command], then those of [commands]), one that
    [validate_command] has a reason to refuse: the step does not succeed
    (a failed or cancelled result, or the end of standard input at a
    confirmation, or no session); what was executed is a prefix of the
    step's commands made of accepted commands only, which stops before
    the refused command, and is empty in dry-run; and when the refused
    command is the first one, nothing is executed, nothing is asked, and
    the result is the validation failure. *)
Theorem execute_step_fail_closed e step timeout w cmd :
  cmd ∈ commands_of step ->
  denied cmd ->
  let run := execute_step e step timeout w in
  match run.1 with
  | inl ex => ex = EOFError \/ ex = NoActiveSession
  | inr r => success r = false
  end /\
  (exists k,
     Forall (fun c => (validate_command c).1 = true)
       (take k (commands_of step)) /\
     (cmd ∉ take k (commands_of step)) /\
     spawned (trace run.2)
       = spawned (trace w)
           ++ (if dry_run e then [] else Shell <$> take k (commands_of step))) /\
  (head (commands_of step) = Some cmd ->
     spawned (trace run.2) = spawned (trace w) /\
     stdin run.2 = stdin w /\
     (is_Some (truthy_str (session_id e)) ->
      exists r, run.1 = inr r /\
                success r = false /\
                returncode r = -1 /\
                stderr r = "Validation failed: " +:+ (validate_command cmd).2)).
Proof.
  intros Hin Hden run. subst run.
  pose proof (denied_rejected cmd Hden) as Hrej.
  assert (forall k,
    Forall (fun c => (validate_command c).1 = true) (take k (commands_of step)) ->
    cmd ∉ take k (commands_of step)) as Hnot.
  { intros k Hall Hk. rewrite Forall_forall in Hall.
    specialize (Hall cmd Hk). congruence. }
  unfold execute_step.
  assert (spawned (trace (log (EnterStep step) w)) = spawned (trace w)) as Hlog
    by (simpl; by rewrite spawned_app, app_nil_r).
  destruct (truthy_str (session_id e)) as [sid|] eqn:Hsid.
  2:{ cbn [fst snd]. split; [auto|]. split.
      - exists 0%nat. rewrite take_0. split; [constructor|].
        split; [apply not_elem_of_nil|].
        rewrite Hlog. simpl. destruct (dry_run e); by rewrite app_nil_r.
      - intros _. split; [done|]. split; [done|]. by intros [? ?]. }
  destruct (commands_of step) as [|c0 cmds] eqn:Hcmds;
    [by apply elem_of_nil in Hin|].
  assert (forall k,
    Forall (fun c => (validate_command c).1 = true) (take k (c0 :: cmds)) ->
    k <> length (c0 :: cmds)) as Hshort.
  { intros k Hall ->. apply (Hnot _ Hall). by rewrite firstn_all. }
  split; [|split].
  - destruct (run_commands_spawned e sid step (default 0 (step_number step))
      (default "Unknown" (name step)) timeout (c0 :: cmds)
      (result_now true 0 "" "" 0 (log (EnterStep step) w))
      (log (EnterStep step) w)) as (k & Hk & Hall & _ & Hres).
    destruct (run_commands _ _ _ _ _ _ _ _ _) as [[ex|[[] r]] w1];
      cbn [fst snd] in *; [auto| |done].
    by destruct (Hshort k Hall).
  - destruct (run_commands_spawned e sid step (default 0 (step_number step))
      (default "Unknown" (name step)) timeout (c0 :: cmds)
      (result_now true 0 "" "" 0 (log (EnterStep step) w))
      (log (EnterStep step) w)) as (k & Hk & Hall & Hsp & Hres).
    exists k. split; [done|]. split; [by apply Hnot|].
    rewrite <- Hlog, <- Hsp.
    destruct (run_commands _ _ _ _ _ _ _ _ _) as [[ex|[[] r]] w1];
      cbn [fst snd] in *; [done| |done].
    by destruct (Hshort k Hall).
  - intros [= ->]. cbn [run_commands].
    destruct (validate_command cmd) as [safe reason]; simpl in Hrej; subst safe.
    cbn [negb fst snd record_step set_db trace stdin log].
    split; [by rewrite spawned_app, app_nil_r|]. split; [done|].
    intros _. by eexists.
Qed.

(** ** Properties of the engine: the automatic fix *)

Lemma log_requests_spawned sent w :
  spawned (trace (log_requests sent w)) = spawned (trace w).
Proof.
  unfold log_requests.
  revert w. induction sent as [|p sent IH]; intros w; [done|].
  simpl. rewrite IH. simpl. by rewrite spawned_app, app_nil_r.
Qed.

Lemma log_requests_stdin sent w : stdin (log_requests sent w) = stdin w.
Proof.
  unfold log_requests.
  revert w. induction sent as [|p sent IH]; intros w; [done|].
  simpl. by rewrite IH.
Qed.

Lemma _run_command_spawned_extends cmd t w :
  exists more,
    spawned (trace (_run_command cmd t w).2) = spawned (trace w) ++ more.
Proof.
  unfold _run_command.
  destruct cmd as [| | |text|items|]; try (exists []; by rewrite app_nil_r).
  - case_decide as Hblank; [exists []; by rewrite app_nil_r|].
    pose proof (run_process_spawned (Shell text)
      (if ((t <=? 0) || (3600 <? t))%bool then 300 else t) w) as H.
    destruct (run_process _ _ _). by eexists.
  - destruct (strings_of items) as [args|]; [|exists []; by rewrite app_nil_r].
    pose proof (run_process_spawned (Argv args)
      (if ((t <=? 0) || (3600 <? t))%bool then 300 else t) w) as H.
    destruct (run_process _ _ _). by eexists.
Qed.

Lemma execute_step_spawned_extends e step timeout w :
  exists more,
    spawned (trace (execute_step e step timeout w).2)
      = spawned (trace w) ++ more.
Proof.
  unfold execute_step.
  assert (spawned (trace (log (EnterStep step) w)) = spawned (trace w)) as Hlog
    by (simpl; by rewrite spawned_app, app_nil_r).
  destruct (truthy_str (session_id e)) as [sid|];
    [|exists []; cbn [snd]; by rewrite Hlog, app_nil_r].
  destruct (commands_of step) as [|c0 cmds];
    [exists []; cbn [snd record_step set_db trace]; by rewrite Hlog, app_nil_r|].
  destruct (run_commands_spawned e sid step (default 0 (step_number step))
    (default "Unknown" (name step)) timeout (c0 :: cmds)
    (result_now true 0 "" "" 0 (log (EnterStep step) w))
    (log (EnterStep step) w)) as (k & _ & _ & Hsp & _).
  rewrite Hlog in Hsp.
  destruct (run_commands _ _ _ _ _ _ _ _ _) as [[ex|[[] r]] w1];
    cbn [fst snd record_step set_db trace] in *; try by eexists.
  destruct (truthy_str (check_command step)) as [check|]; [|by eexists].
  destruct (dry_run e); [by eexists|].
  destruct (_run_command_spawned_extends (JStr check) 30 w1) as [more Hmore].
  rewrite Hmore, Hsp. rewrite <- app_assoc. by eexists.
Qed.

(** C2 (the code departs from the claim).  The recovery block never reads
    [fix_type].  Whenever the analysis of a failed step has a truthy
    [can_auto_retry] and a suggested fix that is a non-blank string,
    dry-run is off and the user accepts the prompt, the suggested fix is
    executed, also when [fix_type] is not [modify_command]. *)
Theorem recover_runs_fix_of_any_type e step num result w sid entries sent
    fix_type suggested line rest :
  truthy_str (session_id e) = Some sid ->
  analyze sid step num result = (inr (JDict entries), sent) ->
  dict_get "fix_type" entries = Some (JStr fix_type) ->
  fix_type <> "modify_command" ->
  truthy (dict_get "can_auto_retry" entries) = true ->
  dict_get "suggested_fix" entries = Some (JStr suggested) ->
  strip suggested <> "" ->
  dry_run e = false ->
  stdin w = line :: rest ->
  (String.eqb (lower (strip line)) "" || is_yes (lower (strip line)))%bool
    = true ->
  exists more,
    spawned (trace (recover e step num result w).2)
      = spawned (trace w) ++ Shell suggested :: more.
Proof.
  intros Hsid Han _ _ Hcan Hfix Hstrip Hdry Hin Hyes.
  unfold recover. rewrite Hsid, Han. cbn [analysis_get].
  rewrite Hcan, Hdry, Hfix. cbn [negb andb value_of].
  unfold input. cbn [stdin log]. rewrite log_requests_stdin, Hin.
  rewrite Hyes.
  match goal with |- context [_run_command _ _ ?w1] => set (w1' := w1) end.
  assert (spawned (trace w1') = spawned (trace w)) as Hw1.
  { subst w1'. cbn [trace log].
    by rewrite spawned_app, log_requests_spawned, app_nil_r. }
  destruct (_run_command_shell suggested 60 w1' Hstrip) as (r & w2 & -> & Hsp).
  destruct (success r); [|exists []; cbn [snd]; by rewrite Hsp, Hw1].
  destruct (execute_step_spawned_extends e step 300 w2) as [more Hmore].
  exists more.
  destruct (execute_step e step 300 w2) as [[ex|again] w3]; cbn [snd] in *.
  - rewrite Hmore, Hsp, Hw1. by rewrite <- app_assoc.
  - destruct (success again); cbn [snd];
      rewrite Hmore, Hsp, Hw1; by rewrite <- app_assoc.
Qed.

(** X17.  The fix is attempted only if [can_auto_retry] is truthy and dry-run
    is off: otherwise the recovery block executes nothing and enters no
    step. *)
Lemma recover_gated e step num result w sid analysis sent :
  truthy_str (session_id e) = Some sid ->
  analyze sid step num result = (inr analysis, sent) ->
  (truthy (get "can_auto_retry" analysis) && negb (dry_run e))%bool = false ->
  spawned (trace (recover e step num result w).2) = spawned (trace w) /\
  entered (trace (recover e step num result w).2) = entered (trace w) /\
  stdin (recover e step num result w).2 = stdin w.
Proof.
  intros Hsid Han Hgate. unfold recover. rewrite Hsid, Han.
  destruct analysis as [| | | | |entries]; cbn [analysis_get snd];
    try (by rewrite log_requests_spawned, log_requests_entered,
              log_requests_stdin).
  simpl in Hgate. rewrite Hgate. cbn [snd].
  by rewrite log_requests_spawned, log_requests_entered, log_requests_stdin.
Qed.

(** ** Properties of the engine: deny-list entries with a capital letter *)

Lemma lower_char_idem c : lower_char (lower_char c) = lower_char c.
Proof using Type.
  destruct c as [b0 b1 b2 b3 b4 b5 b6 b7].
  destruct b0, b1, b2, b3, b4, b5, b6, b7; reflexivity.
Qed.

Lemma lower_idem s : lower (lower s) = lower s.
Proof using Type.
  induction s as [|c s IH]; [done|]. simpl. by rewrite lower_char_idem, IH.
Qed.

(** What starts a lower-cased string is in lower case. *)
Lemma prefix_of_lower pat s :
  String.prefix pat (lower s) = true -> lower pat = pat.
Proof using Type.
  revert s. induction pat as [|a pat IH]; intros s; [done|].
  destruct s as [|c s]; [done|]. simpl.
  destruct (ascii_dec a (lower_char c)) as [->|]; [|done].
  intros Hp. by rewrite lower_char_idem, (IH s Hp).
Qed.

(** The command is lower-cased before the test and the patterns are not:
    a pattern that is not in lower case occurs in no command. *)
Lemma capital_never_matches pattern cmd :
  lower pattern <> pattern -> contains pattern (lower cmd) = false.
Proof using Type.
  intros Hcap. induction cmd as [|c cmd IH]; simpl.
  - destruct pattern; [done|reflexivity].
  - destruct (contains pattern (String (lower_char c) (lower cmd))) eqn:Hc;
      [|done].
    simpl in Hc.
    destruct pattern as [|a pattern]; [done|].
    destruct (ascii_dec a (lower_char c)) as [->|].
    + destruct (String.prefix pattern (lower cmd)) eqn:Hp; [|congruence].
      destruct Hcap. simpl. by rewrite lower_char_idem, (prefix_of_lower _ _ Hp).
    + congruence.
Qed.

Lemma run_commands_spawned_extends e sid step number nm timeout cmds last w :
  exists more,
    spawned (trace (run_commands e sid step number nm timeout cmds last w).2)
      = spawned (trace w) ++ more.
Proof.
  destruct (run_commands_spawned e sid step number nm timeout cmds last w)
    as (k & _ & _ & Hsp & _).
  by eexists.
Qed.

(** C6 (the code departs from the claim).  The deny list holds entries with
    a capital letter ('chmod -R 777 /', 'chmod -R 777 /*'), which the
    lower-cased command can never hold.  A command that contains such an
    entry, in whatever case, and none of the entries written in lower
    case, is accepted by [validate_command]; as the first command of a
    step, with a session, outside dry-run and with no confirmation to
    ask for, it is handed to the shell. *)
Theorem execute_step_runs_capital_pattern e step timeout w cmd pattern :
  pattern ∈ DANGEROUS_PATTERNS ->
  lower pattern <> pattern ->
  contains (lower pattern) (lower cmd) = true ->
  strip cmd <> "" ->
  Forall (fun p => lower p = p -> contains p (lower cmd) = false)
    DANGEROUS_PATTERNS ->
  head (commands_of step) = Some cmd ->
  is_Some (truthy_str (session_id e)) ->
  dry_run e = false ->
  (negb (auto_approve e) && requires_sudo step)%bool = false ->
  validate_command cmd = (true, "OK") /\
  exists more,
    spawned (trace (execute_step e step timeout w).2)
      = spawned (trace w) ++ Shell cmd :: more.
Proof.
  intros _ _ _ Hblank Hlow Hhead [sid Hsid] Hdry Hask.
  assert (validate_command cmd = (true, "OK")) as Hv.
  { unfold validate_command. rewrite decide_False.
    2:{ intros [->|Hs]; [by apply Hblank|done]. }
    destruct (filter _ DANGEROUS_PATTERNS) as [|p ps] eqn:Hf; [done|].
    assert (p ∈ filter (fun q => contains q (lower cmd) = true)
              DANGEROUS_PATTERNS) as Hp by (rewrite Hf; left).
    apply list_elem_of_filter in Hp as [Hc Hin].
    rewrite Forall_forall in Hlow.
    destruct (decide (lower p = p)) as [Hl|Hl].
    - by rewrite (Hlow p Hin Hl) in Hc.
    - by rewrite (capital_never_matches p cmd Hl) in Hc. }
  split; [done|].
  unfold execute_step. rewrite Hsid.
  assert (spawned (trace (log (EnterStep step) w)) = spawned (trace w)) as Hlog
    by (simpl; by rewrite spawned_app, app_nil_r).
  destruct (commands_of step) as [|c0 cmds]; [done|].
  injection Hhead as ->.
  set (w0 := log (EnterStep step) w) in *.
  cbn [run_commands]. rewrite Hv, Hask, Hdry. cbn [negb].
  destruct (_run_command_shell cmd timeout w0 Hblank) as (r & w2 & -> & Hsp2).
  rewrite Hlog in Hsp2.
  destruct (success r); cbn [negb].
  2:{ cbn [fst snd record_step set_db trace]. exists []. by rewrite Hsp2. }
  destruct (run_commands_spawned_extends e sid step
    (default 0 (step_number step)) (default "Unknown" (name step)) timeout
    cmds r w2) as [more Hmore].
  rewrite Hsp2 in Hmore.
  destruct (run_commands _ _ _ _ _ _ cmds _ _) as [[ex|[[] r']] w3];
    cbn [fst snd record_step set_db trace] in *;
    try (exists more; by rewrite Hmore, <- app_assoc).
  destruct (truthy_str (check_command step)) as [check|];
    [|exists more; by rewrite Hmore, <- app_assoc].
  destruct (_run_command_spawned_extends (JStr check) 30 w3) as [more' Hmore'].
  exists (more ++ more'). by rewrite Hmore', Hmore, <- !app_assoc.
Qed.

(** ** Properties of the engine: dry run *)

Lemma recover_dry_run e step num result w :
  dry_run e = true ->
  spawned (trace (recover e step num result w).2) = spawned (trace w).
Proof.
  intros Hdry. unfold recover.
  destruct (truthy_str (session_id e)) as [sid|]; [|done].
  destruct (analyze sid step num result) as [[ex|analysis] sent]; cbn [snd].
  - apply log_requests_spawned.
  - destruct analysis as [| | | | |entries]; cbn [analysis_get snd];
      try apply log_requests_spawned.
    rewrite Hdry, andb_false_r. cbn [snd]. apply log_requests_spawned.
Qed.

Lemma execute_step_dry_run e step timeout w :
  dry_run e = true ->
  spawned (trace (execute_step e step timeout w).2) = spawned (trace w).
Proof.
  intros Hdry. unfold execute_step.
  assert (spawned (trace (log (EnterStep step) w)) = spawned (trace w)) as Hlog
    by (simpl; by rewrite spawned_app, app_nil_r).
  destruct (truthy_str (session_id e)) as [sid|]; [|done].
  destruct (commands_of step) as [|c0 cmds]; [done|].
  destruct (run_commands_spawned e sid step (default 0 (step_number step))
    (default "Unknown" (name step)) timeout (c0 :: cmds)
    (result_now true 0 "" "" 0 (log (EnterStep step) w))
    (log (EnterStep step) w)) as (k & _ & _ & Hsp & _).
  rewrite Hdry, app_nil_r, Hlog in Hsp.
  destruct (run_commands _ _ _ _ _ _ _ _ _) as [[ex|[[] r]] w1];
    cbn [fst snd record_step set_db trace] in *; try done.
  destruct (truthy_str (check_command step)) as [check|]; [|done].
  by rewrite Hdry.
Qed.

Lemma run_steps_dry_run e completed resume_from i steps results w :
  dry_run e = true ->
  spawned (trace (run_steps e completed resume_from i steps results w).2)
    = spawned (trace w).
Proof.
  intros Hdry. revert i results w.
  induction steps as [|step rest IH]; intros i results w; [done|].
  cbn [run_steps]. case_decide; [apply IH|].
  destruct (step_num i step <? resume_from); [apply IH|].
  pose proof (execute_step_dry_run e step 300 w Hdry) as Hs.
  destruct (execute_step e step 300 w) as [[ex|result] w1];
    cbn [snd] in *; [done|].
  destruct (success result); [by rewrite IH|].
  pose proof (recover_dry_run e step (step_num i step) result w1 Hdry) as Hr.
  destruct (recover e step (step_num i step) result w1) as [[ex|[again|]] w2];
    cbn [snd] in *; [congruence| |congruence].
  rewrite IH. congruence.
Qed.

(** X18.  In dry-run mode no process is ever started: neither a step's
    commands, nor a verification command, nor a suggested fix, whatever
    the plan, the resume cursor, the store and the classifier. *)
Theorem dry_run_spawns_nothing e steps resume_from w :
  dry_run e = true ->
  spawned (trace (execute_plan e steps resume_from w).2) = spawned (trace w).
Proof.
  intros Hdry. unfold execute_plan.
  pose proof (run_steps_dry_run e
    match truthy_str (session_id e) with
    | Some sid => get_completed_steps sid (db w)
    | None => []
    end resume_from 0 steps [] w Hdry) as Hs.
  destruct (run_steps _ _ _ _ _ _ _) as [[ex|results] w1];
    cbn [snd] in *; [done|].
  by destruct (truthy_str (session_id e)).
Qed.

(** ** Properties of the engine: halting *)

Lemma recover_some_success e step num result w again w' :
  recover e step num result w = (inr (Some again), w') -> success again = true.
Proof.
  unfold recover.
  destruct (truthy_str (session_id e)) as [sid|]; [|done].
  destruct (analyze sid step num result) as [[ex|analysis] sent]; [done|].
  destruct (analysis_get "can_auto_retry" analysis) as [|can];
    destruct (analysis_get "suggested_fix" analysis) as [|sfix]; try done.
  destruct (truthy can && negb (dry_run e))%bool; [|done].
  destruct (input _ _) as [[ex|line] w1]; [done|].
  destruct (_ || _)%bool; [|done].
  destruct (_run_command _ _ _) as [[ex|fix_result] w2]; [done|].
  destruct (success fix_result); [|done].
  destruct (execute_step _ _ _ _) as [[ex|r] w3]; [done|].
  destruct (success r) eqn:Hr; [|done]. by intros [= <- _].
Qed.

Lemma set_last_snoc r results x : set_last r (results ++ [x]) = results ++ [r].
Proof.
  unfold set_last. destruct (results ++ [x]) as [|y l] eqn:Heq.
  { by destruct results. }
  rewrite <- Heq, length_app. cbn [length].
  replace (length results + 1 - 1)%nat with (length results) by lia.
  by rewrite take_app_length.
Qed.

(** Every result but the last is a success. *)
Definition stops_at_failure (results : list ExecutionResult) : Prop :=
  exists done rest,
    results = done ++ rest /\
    Forall (fun r => success r = true) done /\
    (length rest <= 1)%nat.

Lemma run_steps_results e completed resume_from i steps results w out w' :
  Forall (fun r => success r = true) results ->
  run_steps e completed resume_from i steps results w = (inr out, w') ->
  stops_at_failure out.
Proof.
  revert i results w.
  induction steps as [|step rest IH]; intros i results w Hall; cbn [run_steps].
  { intros [= <- _]. exists results, [].
    split; [by rewrite app_nil_r|]. split; [done|simpl; lia]. }
  case_decide; [by apply IH|].
  destruct (step_num i step <? resume_from); [by apply IH|].
  destruct (execute_step e step 300 w) as [[ex|result] w1]; [done|].
  destruct (success result) eqn:Hok.
  { apply IH. apply Forall_app. split; [done|]. by constructor. }
  destruct (recover e step (step_num i step) result w1)
    as [[ex|[again|]] w2] eqn:Hrec; [done| |].
  - apply recover_some_success in Hrec. rewrite set_last_snoc.
    apply IH. apply Forall_app. split; [done|]. by constructor.
  - intros [= <- _]. exists results, [result].
    split; [done|]. split; [done|simpl; lia].
Qed.

Lemma complete_session_status now sid ok d row :
  get_session sid (complete_session now sid ok d) = Some row ->
  s_status row = if ok then "completed" else "failed".
Proof.
  unfold get_session, complete_session. cbn [sessions].
  induction (sessions d) as [|r rows IH]; [done|].
  cbn [map]. rewrite filter_cons.
  destruct (decide (s_session_id r = sid)) as [Hr|Hr].
  - rewrite decide_True by done. by intros [= <-].
  - rewrite decide_False by done. apply IH.
Qed.

(** X19.  The plan halts at the first step that fails and is not repaired: in
    the list [execute_plan] returns, every result but the last is a
    success.  The session is then marked [completed] if every result is
    a success (also when every step was skipped), [failed] otherwise. *)
Theorem execute_plan_stops_at_first_failure e steps resume_from w results w' :
  execute_plan e steps resume_from w = (inr results, w') ->
  stops_at_failure results /\
  forall sid row,
    truthy_str (session_id e) = Some sid ->
    get_session sid (db w') = Some row ->
    s_status row = if forallb success results then "completed" else "failed".
Proof.
  unfold execute_plan.
  destruct (run_steps _ _ _ _ _ _ _) as [[ex|out] w1] eqn:Hrun; [done|].
  apply run_steps_results in Hrun; [|constructor].
  destruct (truthy_str (session_id e)) as [sid|]; intros [= <- <-].
  - split; [done|]. intros sid' row [= <-]. cbn [db set_db].
    apply complete_session_status.
  - split; [done|]. by intros sid' row.
Qed.

(** ** Properties of the engine and the store: the record of steps *)

Lemma get_completed_steps_update_step now sid n nm status r d sid' k :
  k ∈ get_completed_steps sid' (update_step now sid n nm status r d) <->
  k ∈ get_completed_steps sid' d \/
  (sid' = sid /\ status = "completed" /\ k = n).
Proof.
  unfold get_completed_steps, distinct, update_step. cbn [execution_state].
  rewrite !elem_of_reverse, !elem_of_remove_dups, !elem_of_reverse.
  rewrite filter_app, fmap_app, elem_of_app.
  apply or_iff_compat_l.
  rewrite filter_cons. cbn [e_session_id e_status].
  case_decide as Hrow.
  - destruct Hrow as [<- ->]. cbn [fmap list_fmap e_step_number].
    rewrite list_elem_of_singleton. split; [by intros ->|by intros (_ & _ & ->)].
  - rewrite filter_nil. cbn [fmap list_fmap]. rewrite elem_of_nil.
    split; [done|]. intros (-> & -> & _). by destruct Hrow.
Qed.

(** X20.  The store keeps what it is told about steps: after [update_step], a
    step counts as completed for a session exactly if it did before or
    it is the step just recorded as [completed] for that session; steps
    are listed once; [complete_session] and [create_session] leave the
    completed steps of every session as they are. *)
Theorem completed_steps_follow_updates now sid n nm status r d sid' :
  (forall k,
     k ∈ get_completed_steps sid' (update_step now sid n nm status r d) <->
     k ∈ get_completed_steps sid' d \/
     (sid' = sid /\ status = "completed" /\ k = n)) /\
  NoDup (get_completed_steps sid' d) /\
  (forall ok,
     get_completed_steps sid' (complete_session now sid ok d)
       = get_completed_steps sid' d) /\
  (forall hardware requirements plan,
     get_completed_steps sid' (create_session now sid hardware requirements plan d)
       = get_completed_steps sid' d).
Proof.
  split; [intros k; apply get_completed_steps_update_step|].
  split; [|by split].
  unfold get_completed_steps, distinct. rewrite reverse_Permutation.
  apply NoDup_remove_dups.
Qed.

Lemma input_db p w : db (input p w).2 = db w.
Proof. unfold input. by destruct (stdin _). Qed.

Lemma run_process_db c t w : db (run_process c t w).2 = db w.
Proof. unfold run_process. by destruct (subprocess_run _ _ _) as [[] ms]. Qed.

Lemma _run_command_db cmd t w : db (_run_command cmd t w).2 = db w.
Proof.
  unfold _run_command. destruct cmd as [| | |text|items|]; try done.
  - case_decide as Hblank; [done|].
    pose proof (run_process_db (Shell text)
      (if ((t <=? 0) || (3600 <? t))%bool then 300 else t) w) as H.
    by destruct (run_process _ _ _).
  - destruct (strings_of items) as [args|]; [|done].
    pose proof (run_process_db (Argv args)
      (if ((t <=? 0) || (3600 <? t))%bool then 300 else t) w) as H.
    by destruct (run_process _ _ _).
Qed.

(** What the loop over the commands leaves in the store: nothing if it
    runs to its end, one row that is not [completed] if it stops. *)
Lemma run_commands_db e sid step number nm timeout cmds last w :
  success last = true ->
  match run_commands e sid step number nm timeout cmds last w with
  | (inl _, w1) => db w1 = db w
  | (inr (true, r), w1) => db w1 = db w /\ success r = true
  | (inr (false, r), w1) =>
      success r = false /\
      exists now status,
        status <> "completed" /\
        db w1 = update_step now sid number nm status (Some r) (db w)
  end.
Proof.
  revert last w. induction cmds as [|cmd rest IH]; intros last w Hlast;
    cbn [run_commands]; [done|].
  destruct (validate_command cmd) as [[] reason]; cbn [negb].
  2:{ split; [done|]. by exists (clock w), "failed". }
  set (asked := if (negb (auto_approve e) && requires_sudo step)%bool
                then _ else _).
  assert (db asked.2 = db w) as Ha.
  { subst asked.
    destruct (negb (auto_approve e) && requires_sudo step)%bool; [|done].
    pose proof (input_db "This step requires sudo. Execute? [Y/n]: " w) as Hi.
    by destruct (input _ w) as [[ex|line] w1]. }
  destruct asked as [[ex|[]] w1]; cbn [fst snd] in Ha; [done| |].
  { split; [done|]. exists (clock w1), "cancelled". split; [done|].
    cbn [record_step set_db db]. by rewrite Ha. }
  set (ran := if dry_run e then _ else _).
  assert (db ran.2 = db w /\ (dry_run e = true -> exists r, ran.1 = inr r /\
                                 success r = true)) as [Hr Hd].
  { subst ran. destruct (dry_run e).
    - split; [done|]. intros _. by eexists.
    - split; [|done]. by rewrite _run_command_db. }
  destruct ran as [[ex|r] w2]; cbn [fst snd] in Hr; [done|].
  destruct (success r) eqn:Hok; cbn [negb].
  - specialize (IH r w2 Hok). rewrite Hr in IH. exact IH.
  - split; [done|]. exists (clock w2), "failed". split; [done|].
    cbn [record_step set_db db]. by rewrite Hr.
Qed.

(** X21.  A step is recorded as completed exactly when [execute_step] returns
    a success for it, under the number [step.get('step_number', 0)], and
    also in dry-run mode; a failed or cancelled step leaves the completed
    steps as they were. *)
Theorem execute_step_records_outcome e step timeout w sid r w' :
  truthy_str (session_id e) = Some sid ->
  execute_step e step timeout w = (inr r, w') ->
  forall sid' k,
    k ∈ get_completed_steps sid' (db w') <->
    k ∈ get_completed_steps sid' (db w) \/
    (sid' = sid /\ success r = true /\ k = default 0 (step_number step)).
Proof.
  intros Hsid. unfold execute_step. rewrite Hsid.
  destruct (commands_of step) as [|c0 cmds].
  { intros [= <- <-] sid' k. cbn [record_step set_db db log].
    rewrite get_completed_steps_update_step. cbn [success result_now].
    split; (intros [Hk|(Hs & _ & Hn)]; [by left|by right]). }
  pose proof (run_commands_db e sid step (default 0 (step_number step))
    (default "Unknown" (name step)) timeout (c0 :: cmds)
    (result_now true 0 "" "" 0 (log (EnterStep step) w))
    (log (EnterStep step) w) eq_refl) as Hdb.
  destruct (run_commands _ _ _ _ _ _ _ _ _) as [[ex|[[] r']] w1]; [done| |].
  - destruct Hdb as [Hdb Hok].
    set (w2 := match truthy_str (check_command step) with
               | Some check =>
                   if dry_run e then w1 else (_run_command (JStr check) 30 w1).2
               | None => w1
               end).
    assert (db w2 = db w) as Hw2.
    { subst w2. destruct (truthy_str (check_command step)); [|done].
      destruct (dry_run e); [done|]. by rewrite _run_command_db. }
    clearbody w2. intros [= <- <-] sid' k.
    cbn [record_step set_db db].
    rewrite get_completed_steps_update_step, Hw2.
    split; (intros [Hk|(Hs & _ & Hn)]; [by left|by right]).
  - destruct Hdb as (Hfail & now & status & Hst & Hdb).
    intros [= <- <-] sid' k. rewrite Hdb, get_completed_steps_update_step.
    cbn [db log]. split; [|intros [Hk|(_ & Hs & _)]; [by left|congruence]].
    intros [Hk|(_ & Hs & _)]; [by left|done].
Qed.

(** ** Properties of the engine: running one command *)

(** X22.  [_run_command] on a command string never raises.  A blank string is
    refused without starting a process; any other string is started
    once, through the shell, with the given timeout if it lies in
    1..3600 seconds and with 300 seconds otherwise; the result is a
    success exactly when the return code is 0. *)
Theorem _run_command_string text timeout w :
  exists r,
    (_run_command (JStr text) timeout w).1 = inr r /\
    success r = (returncode r =? 0) /\
    if decide (strip text = "") then
      trace (_run_command (JStr text) timeout w).2 = trace w /\
      returncode r = -1 /\
      stderr r = "Empty command provided"
    else
      trace (_run_command (JStr text) timeout w).2
        = trace w
            ++ [Spawn (Shell text)
                  (if decide (1 <= timeout <= 3600) then timeout else 300)].
Proof.
  unfold _run_command. case_decide as Hblank; [by eexists|].
  assert ((if ((timeout <=? 0) || (3600 <? timeout))%bool then 300 else timeout)
          = if decide (1 <= timeout <= 3600) then timeout else 300) as ->.
  { case_decide; destruct (timeout <=? 0) eqn:H0;
      destruct (3600 <? timeout) eqn:H1; cbn [orb]; lia. }
  unfold run_process.
  destruct (subprocess_run _ _ _) as [[code out err| |msg|msg] ms];
    eexists; (split; [done|]); done.
Qed.

(** X23.  A command is accepted exactly if it is not blank and its lower-cased
    text holds none of the deny-list patterns as they are written; the
    reason given for a refusal names the first pattern of the list that
    occurs. *)
Theorem validate_command_accepts cmd :
  ((validate_command cmd).1 = true <->
   strip cmd <> "" /\
   Forall (fun pattern => contains pattern (lower cmd) = false)
     DANGEROUS_PATTERNS) /\
  (forall pattern,
     strip cmd <> "" ->
     head (filter (fun pattern => contains pattern (lower cmd) = true)
             DANGEROUS_PATTERNS) = Some pattern ->
     validate_command cmd
       = (false, "Command contains dangerous pattern: " +:+ pattern)).
Proof using Type.
  assert (cmd = "" -> strip cmd = "") as Hempty by by intros ->.
  unfold validate_command. split.
  - case_decide as Hblank.
    { split; [done|]. intros [Hs _]. destruct Hblank as [H|H]; auto. }
    destruct (filter _ DANGEROUS_PATTERNS) as [|p ps] eqn:Hf; cbn [fst].
    + split; [|done]. intros _. split; [intros H; apply Hblank; by right|].
      apply Forall_forall. intros pattern Hin.
      destruct (contains pattern (lower cmd)) eqn:Hc; [|done].
      by destruct (filter_nil_not_elem_of _ _ pattern Hf Hc).
    + split; [done|]. intros [_ Hall].
      assert (p ∈ filter (fun q => contains q (lower cmd) = true)
                DANGEROUS_PATTERNS) as Hp by (rewrite Hf; left).
      apply list_elem_of_filter in Hp as [Hc Hin].
      rewrite Forall_forall in Hall. by rewrite (Hall p Hin) in Hc.
  - intros pattern Hs Hhead. rewrite decide_False by (intros [H|H]; auto).
    destruct (filter _ DANGEROUS_PATTERNS) as [|p ps]; [done|].
    by injection Hhead as ->.
Qed.

End Engine.

(** ** Concrete runs *)

(** A machine without name resolution: the download fails, [echo] works,
    anything else is not a command. *)
Definition offline : list event -> cmdline -> Z -> proc_outcome * Z :=
  fun _ c _ =>
    match c with
    | Shell "curl -fsSL https://example.invalid/install.sh" =>
        (Completed 6 ""
           "curl: (6) Could not resolve host: example.invalid", 120)
    | Shell "echo hi" => (Completed 0 "hi" "", 1)
    | _ => (Completed 127 "" "sh: 1: not found", 5)
    end.

Definition engine : Engine :=
  {| dry_run := false; auto_approve := true; session_id := Some "s1" |}.

Definition empty_db : DB := {| sessions := []; execution_state := [] |}.

(** A fresh session, and a user who answers "y". *)
Definition world0 : World :=
  {| db := create_session 0 "s1" "{}" "{}" "{}" empty_db;
     clock := 0; stdin := ["y"]; trace := [] |}.

Definition download : Step :=
  {| step_number := Some 1; name := Some "Download installer";
     description := None;
     command := Some "curl -fsSL https://example.invalid/install.sh";
     commands := []; requires_sudo := false; check_command := None |}.

Definition download_failed : ExecutionResult :=
  {| success := false; returncode := 6; stdout := "";
     stderr := "curl: (6) Could not resolve host: example.invalid";
     duration_ms := 120; timestamp := 120 |}.

Definition greet_then_wipe : Step :=
  {| step_number := Some 2; name := Some "Clean up"; description := None;
     command := None; commands := ["echo hi"; "rm -rf /"];
     requires_sudo := false; check_command := None |}.

(** The download fails on name resolution; the fallback classifies it as
    [retry] with [can_auto_retry]; the engine then executes the text of
    the suggestion as a shell command. *)
Lemma recover_runs_fix_of_any_type_witness :
  exists more,
    spawned (trace (recover offline None no_dumps no_loads engine download 1
                      download_failed world0).2)
      = spawned (trace world0)
          ++ Shell "Check internet connection and retry" :: more.
Proof.
  eapply (recover_runs_fix_of_any_type offline None no_dumps no_loads engine
            download 1 download_failed world0 "s1" _ _ "retry"
            "Check internet connection and retry" "y" []).
  - reflexivity.
  - vm_compute. reflexivity.
  - reflexivity.
  - discriminate.
  - reflexivity.
  - reflexivity.
  - discriminate.
  - reflexivity.
  - reflexivity.
  - reflexivity.
Defined.

Example execute_plan_runs_retry_fix :
  field "fix_type"
    (analyze None no_dumps no_loads "s1" download 1 download_failed)
    = Some (JStr "retry") /\
  spawned (trace (execute_plan offline None no_dumps no_loads engine
                    [download] 0 world0).2)
    = [ Shell "curl -fsSL https://example.invalid/install.sh";
        Shell "Check internet connection and retry" ].
Proof. vm_compute. split; reflexivity. Qed.

(** A step whose second command is on the deny list: the first command
    has run by the time the second is rejected. *)
Lemma execute_step_runs_earlier_commands :
  "rm -rf /" ∈ commands_of greet_then_wipe /\
  (validate_command "rm -rf /").1 = false /\
  spawned (trace (execute_step offline engine greet_then_wipe 300 world0).2)
    = [Shell "echo hi"] /\
  (exists r,
     (execute_step offline engine greet_then_wipe 300 world0).1 = inr r /\
     success r = false /\
     stderr r
       = "Validation failed: Command contains dangerous pattern: rm -rf /").
Proof.
  split; [right; left|]. split; [reflexivity|]. split; [reflexivity|].
  eexists. split; [reflexivity|]. split; reflexivity.
Qed.

Lemma execute_step_fail_closed_witness :
  match (execute_step offline engine greet_then_wipe 300 world0).1 with
  | inl ex => ex = EOFError \/ ex = NoActiveSession
  | inr r => success r = false
  end.
Proof.
  refine (proj1 (execute_step_fail_closed offline engine greet_then_wipe 300
                   world0 "rm -rf /" _ _)).
  - right; left.
  - right; right. exists "rm -rf /". split; [left|reflexivity].
Defined.

(** A step that opens the permissions of the whole file system. *)
Definition open_permissions : Step :=
  {| step_number := Some 3; name := Some "Open permissions";
     description := None; command := Some "chmod -R 777 /";
     commands := []; requires_sudo := false; check_command := None |}.

(** The command is an entry of the deny list, letter for letter, and the
    engine hands it to the shell. *)
Lemma execute_step_runs_capital_pattern_witness :
  "chmod -R 777 /" ∈ DANGEROUS_PATTERNS /\
  validate_command "chmod -R 777 /" = (true, "OK") /\
  exists more,
    spawned (trace (execute_step offline engine open_permissions 300
                      world0).2)
      = spawned (trace world0) ++ Shell "chmod -R 777 /" :: more.
Proof.
  assert ("chmod -R 777 /" ∈ DANGEROUS_PATTERNS) as Hin
    by (do 8 right; left).
  split; [exact Hin|].
  apply (execute_step_runs_capital_pattern offline engine open_permissions
           300 world0 "chmod -R 777 /" "chmod -R 777 /" Hin).
  - discriminate.
  - reflexivity.
  - discriminate.
  - unfold DANGEROUS_PATTERNS.
    repeat (apply List.Forall_cons; [intros _; reflexivity|]).
    apply List.Forall_nil.
  - reflexivity.
  - by eexists.
  - reflexivity.
  - reflexivity.
Defined.

Example execute_step_runs_chmod :
  spawned (trace (execute_step offline engine open_permissions 300 world0).2)
  = [Shell "chmod -R 777 /"].
Proof. reflexivity. Qed.

(** The tests of the repository on [validate_command]. *)
Example test_command_validation :
  (validate_command "echo hello").1 = true /\
  (validate_command "docker ps").1 = true /\
  (validate_command "rm -rf /").1 = false /\
  (validate_command "rm -rf /*").1 = false.
Proof. repeat split. Qed.

(** A session that ran one step, recorded it as completed, and failed. *)
Definition stored : DB :=
  complete_session 9 "s1" false
    (update_step 7 "s1" 1 "Download installer" "completed" None
       (create_session 5 "s1" "{}" "{}" "{}" empty_db)).

Lemma create_session_replaces_witness :
  get_session "s1" (create_session 20 "s1" "{}" "{}" "{}" stored)
    = Some {| s_id := 2; s_session_id := "s1"; s_hardware_profile := "{}";
              s_user_requirements := "{}"; s_plan_json := "{}";
              s_current_step := 0; s_status := "in_progress";
              s_created_at := 20; s_updated_at := 20 |} /\
  execution_state (create_session 20 "s1" "{}" "{}" "{}" stored)
    = execution_state stored /\
  get_completed_steps "s1" (create_session 20 "s1" "{}" "{}" "{}" stored)
    = [1].
Proof.
  assert ("s1" ∈ map s_session_id (sessions stored)) as Hin by left.
  destruct (create_session_replaces 20 "s1" "{}" "{}" "{}" stored Hin)
    as (_ & _ & _ & Hstate & Hdone).
  split; [reflexivity|]. split; [exact Hstate|].
  rewrite Hdone. reflexivity.
Defined.

(** The same machine in dry-run mode. *)
Definition dry_engine : Engine :=
  {| dry_run := true; auto_approve := true; session_id := Some "s1" |}.

Definition greet : Step :=
  {| step_number := Some 3; name := Some "Greet"; description := None;
     command := Some "echo hi"; commands := [];
     requires_sudo := false; check_command := Some "echo hi" |}.

(** A step whose command does not exist. *)
Definition missing_tool : Step :=
  {| step_number := Some 4; name := Some "Run tool"; description := None;
     command := Some "frobnicate"; commands := [];
     requires_sudo := false; check_command := None |}.

Definition missing_tool_failed : ExecutionResult :=
  {| success := false; returncode := 127; stdout := "";
     stderr := "sh: 1: frobnicate: command not found";
     duration_ms := 5; timestamp := 5 |}.

Lemma dry_run_spawns_nothing_witness :
  spawned (trace (execute_plan offline None no_dumps no_loads dry_engine
                    [greet; download; greet_then_wipe] 0 world0).2) = [].
Proof.
  apply (dry_run_spawns_nothing offline None no_dumps no_loads dry_engine
           [greet; download; greet_then_wipe] 0 world0).
  reflexivity.
Defined.

(** A plan of three steps whose second step fails beyond repair. *)
Definition halted_run : (exn + list ExecutionResult) * World :=
  execute_plan offline None no_dumps no_loads engine
    [greet; missing_tool; download] 0 world0.

Lemma execute_plan_stops_at_first_failure_witness :
  stops_at_failure match halted_run.1 with inr results => results | inl _ => [] end /\
  map success match halted_run.1 with inr results => results | inl _ => [] end
    = [true; false].
Proof.
  split; [|vm_compute; reflexivity].
  apply (execute_plan_stops_at_first_failure offline None no_dumps no_loads
           engine [greet; missing_tool; download] 0 world0 _ halted_run.2).
  vm_compute. reflexivity.
Defined.

Lemma execute_step_records_outcome_witness :
  3 ∈ get_completed_steps "s1"
        (db (execute_step offline engine greet 300 world0).2).
Proof.
  apply (execute_step_records_outcome offline engine greet 300 world0 "s1"
           (result_now true 0 "hi" "" 1 {| db := db world0; clock := 1;
                                          stdin := []; trace := [] |})
           (execute_step offline engine greet 300 world0).2).
  - reflexivity.
  - vm_compute. reflexivity.
  - right. repeat split.
Defined.

Lemma recover_gated_witness :
  spawned (trace (recover offline None no_dumps no_loads engine missing_tool 4
                    missing_tool_failed world0).2) = spawned (trace world0) /\
  entered (trace (recover offline None no_dumps no_loads engine missing_tool 4
                    missing_tool_failed world0).2) = entered (trace world0) /\
  stdin (recover offline None no_dumps no_loads engine missing_tool 4
           missing_tool_failed world0).2 = stdin world0.
Proof.
  eapply (recover_gated offline None no_dumps no_loads engine missing_tool 4
            missing_tool_failed world0 "s1").
  - reflexivity.
  - vm_compute. reflexivity.
  - reflexivity.
Defined.

End Executor.

(* ===================================================================== *)
(** * rollback_manager.py *)
(* ===================================================================== *)

Module RollbackManager.

Import PyStr.

(** ** The file system *)

(** A file with its content, or a directory with its entries by name. *)
Inductive node :=
| File (content : string)
| Dir (entries : list (string * node)).

(** A path, as its components from the root. *)
Definition path := list string.

(** The entry called [name], if any. *)
Fixpoint entry (name : string) (entries : list (string * node)) : option node :=
  match entries with
  | [] => None
  | (n, x) :: rest => if String.eqb name n then Some x else entry name rest
  end.

(** The entries with [name] bound to [x]. *)
Fixpoint bind_entry (name : string) (x : node) (entries : list (string * node))
    : list (string * node) :=
  match entries with
  | [] => [(name, x)]
  | (n, y) :: rest =>
      if String.eqb name n then (n, x) :: rest
      else (n, y) :: bind_entry name x rest
  end.

(** The entries without [name]. *)
Fixpoint drop_entry (name : string) (entries : list (string * node))
    : list (string * node) :=
  match entries with
  | [] => []
  | (n, y) :: rest =>
      if String.eqb name n then drop_entry name rest
      else (n, y) :: drop_entry name rest
  end.

(** What stands at path [p] below [root]. *)
Fixpoint lookup_path (p : path) (root : node) : option node :=
  match p with
  | [] => Some root
  | name :: rest =>
      match root with
      | Dir entries =>
          match entry name entries with
          | Some x => lookup_path rest x
          | None => None
          end
      | File _ => None
      end
  end.

(** [os.path.exists(p)] *)
Definition path_exists (p : path) (root : node) : bool :=
  bool_decide (is_Some (lookup_path p root)).

(** Put [x] at path [p], making the directories on the way that are
    missing ([os.makedirs]); fails if the way leads through a file. *)
Fixpoint write_path (p : path) (x : node) (root : node) : option node :=
  match p with
  | [] => Some x
  | name :: rest =>
      match root with
      | Dir entries =>
          let below := match entry name entries with
                       | Some y => y
                       | None => Dir []
                       end in
          match write_path rest x below with
          | Some y => Some (Dir (bind_entry name y entries))
          | None => None
          end
      | File _ => None
      end
  end.

(** Take away what stands at path [p]; fails if nothing stands there. *)
Fixpoint remove_path (p : path) (root : node) : option node :=
  match p with
  | [] => None
  | name :: rest =>
      match root with
      | Dir entries =>
          match entry name entries with
          | Some y =>
              match rest with
              | [] => Some (Dir (drop_entry name entries))
              | _ :: _ =>
                  match remove_path rest y with
                  | Some y' => Some (Dir (bind_entry name y' entries))
                  | None => None
                  end
              end
          | None => None
          end
      | File _ => None
      end
  end.


(** ** Properties of the file system *)

Lemma entry_bind_eq name x entries : entry name (bind_entry name x entries) = Some x.
Proof.
  induction entries as [|[n y] rest IH]; simpl.
  - by rewrite String.eqb_refl.
  - destruct (String.eqb name n) eqn:Hn; simpl; rewrite Hn; [done|apply IH].
Qed.










Lemma remove_path_deeper name next rest entries :
  remove_path (name :: next :: rest) (Dir entries)
  = match entry name entries with
    | Some y =>
        match remove_path (next :: rest) y with
        | Some y' => Some (Dir (bind_entry name y' entries))
        | None => None
        end
    | None => None
    end.
Proof. reflexivity. Qed.




Lemma write_path_cons name rest x entries :
  write_path (name :: rest) x (Dir entries)
  = match write_path rest x (match entry name entries with
                             | Some y => y
                             | None => Dir []
                             end) with
    | Some y => Some (Dir (bind_entry name y entries))
    | None => None
    end.
Proof. reflexivity. Qed.

(** What was just removed can be written again. *)
Lemma write_after_remove p x root root' :
  remove_path p root = Some root' -> is_Some (write_path p x root').
Proof.
  revert root root'. induction p as [|name rest IH]; intros root root'; [done|].
  destruct root as [|entries]; [done|].
  destruct rest as [|next rest].
  - simpl. destruct (entry name entries); [|done].
    intros [= <-]. simpl. by eexists.
  - rewrite remove_path_deeper. destruct (entry name entries) as [y|]; [|done].
    destruct (remove_path (next :: rest) y) as [y'|] eqn:Hr; [|done].
    intros [= <-]. rewrite write_path_cons, entry_bind_eq.
    destruct (IH _ _ Hr) as [z Hz]. rewrite Hz. by eexists.
Qed.





(** Where something stands, something else can be written. *)
Lemma write_existing p x root :
  is_Some (lookup_path p root) -> is_Some (write_path p x root).
Proof.
  revert root. induction p as [|name rest IH]; intros root; simpl.
  - intros _. by eexists.
  - destruct root as [|entries]; [by intros [? ?]|].
    destruct (entry name entries) as [y|]; [|by intros [? ?]].
    intros Hl. destruct (IH y Hl) as [z Hz]. rewrite Hz. by eexists.
Qed.

(** Whether a write succeeds does not depend on what is written. *)
Lemma write_path_any p x y root :
  is_Some (write_path p x root) -> is_Some (write_path p y root).
Proof.
  revert root. induction p as [|name rest IH]; intros root; simpl.
  - intros _. by eexists.
  - destruct root as [|entries]; [done|].
    destruct (write_path rest x _) as [z|] eqn:Hz; [|by intros [? ?]].
    intros _. destruct (IH _ (mk_is_Some _ _ Hz)) as [z' Hz'].
    rewrite Hz'. by eexists.
Qed.



(** ** RollbackManager *)

(** A Python dict with string keys, in insertion order. *)
Fixpoint dict_get {A} (k : string) (d : list (string * A)) : option A :=
  match d with
  | [] => None
  | (k', v) :: rest => if String.eqb k k' then Some v else dict_get k rest
  end.

Fixpoint dict_set {A} (k : string) (v : A) (d : list (string * A))
    : list (string * A) :=
  match d with
  | [] => [(k, v)]
  | (k', v') :: rest =>
      if String.eqb k k' then (k', v) :: rest else (k', v') :: dict_set k v rest
  end.

(** A row of [backup_points]. *)
Record BackupRow := {
  b_id : Z;
  b_backup_id : string;
  b_timestamp : Z;
  b_description : string;
  b_services : list string;
  b_config_backup_path : option path;
  b_data_backup_paths : list (string * path);
  b_created_at : Z
}.

(** A row of [rollback_log]; [details] is the pair restored/failed. *)
Record LogRow := {
  l_id : Z;
  l_backup_id : string;
  l_rollback_timestamp : Z;
  l_success : bool;
  l_restored : Z;
  l_failed : list string
}.

Record DB := {
  backup_points : list BackupRow;
  rollback_log : list LogRow
}.

(** The world of the manager: the database, the file system, the clock,
    standard input, and the commands run so far. *)
Record World := {
  db : DB;
  fs : node;
  clock : Z;
  stdin : list string;
  procs : list (list string)
}.

Definition set_fs (root : node) (w : World) : World :=
  {| db := db w; fs := root; clock := clock w; stdin := stdin w;
     procs := procs w |}.

Definition set_db (d : DB) (w : World) : World :=
  {| db := d; fs := fs w; clock := clock w; stdin := stdin w;
     procs := procs w |}.

Inductive exn :=
| FileExistsError
| FileNotFoundError
| NotADirectoryError
| IsADirectoryError
| ShutilError          (* [shutil.Error]: some entries could not be copied *)
| IntegrityError       (* UNIQUE constraint failed: backup_points.backup_id *)
| ProcessError         (* raised by [subprocess.run] *)
| JSONDecodeError      (* [json.loads] of a text that is not JSON *)
| ValueError           (* [json.loads] of an integer literal too long *)
| RecursionError       (* [json.loads] of a text nested too deep *)
| TypeError.           (* [json.loads(None)] *)

Definition next_id (ids : list Z) : Z := 1 + foldr Z.max 0 ids.

(** [str(path)] *)
Definition path_str (p : path) : string := "/" +:+ join "/" p.

Section Manager.

(** [Path.home()], the working directory, and [self.backup_dir]. *)
Variables home cwd backup_dir : path.
(** [strftime('%Y%m%d_%H%M%S')] of an instant. *)
Variable strftime : Z -> string.
(** [subprocess.run] on an argument vector, after the commands run
    before: the exit code, or nothing where it raises (timeout, no such
    program). *)
Variable subprocess_run : list (list string) -> list string -> option Z.
(** [shutil.copytree(src, dst, dirs_exist_ok=True)] onto a directory that
    exists: the merged directory, and whether [shutil.Error] is raised. *)
Variable copytree_merge : node -> node -> node * bool.
(** What [json.loads(text)] raises, if anything: [JSONDecodeError] on a
    text that is not JSON. *)
Variable json_loads_raises : string -> option exn.

(** *** shutil and pathlib *)

(** [shutil.copytree(src, dst, dirs_exist_ok=...)]: what is raised, if
    anything, and the file system it leaves. *)
Definition copytree (src dst : path) (dirs_exist_ok : bool) (root : node)
    : option exn * node :=
  match lookup_path src root with
  | Some (Dir entries) =>
      match lookup_path dst root with
      | None =>
          match write_path dst (Dir entries) root with
          | Some root' => (None, root')
          | None => (Some NotADirectoryError, root)
          end
      | Some (Dir old) =>
          if dirs_exist_ok then
            let '(merged, failed) := copytree_merge (Dir entries) (Dir old) in
            match write_path dst merged root with
            | Some root' =>
                (if failed then Some ShutilError else None, root')
            | None => (Some NotADirectoryError, root)
            end
          else (Some FileExistsError, root)
      | Some (File _) => (Some FileExistsError, root)
      end
  | Some (File _) => (Some NotADirectoryError, root)
  | None => (Some FileNotFoundError, root)
  end.


(** [shutil.copy2(src, dst)]: onto a directory, the file goes inside it
    under its own name. *)
Definition copy2 (src dst : path) (root : node) : option exn * node :=
  match lookup_path src root with
  | Some (File content) =>
      let target :=
        match lookup_path dst root with
        | Some (Dir _) => dst ++ [default "" (last src)]
        | _ => dst
        end in
      match lookup_path target root with
      | Some (Dir _) => (Some IsADirectoryError, root)
      | _ =>
          match write_path target (File content) root with
          | Some root' => (None, root')
          | None => (Some NotADirectoryError, root)
          end
      end
  | Some (Dir _) => (Some IsADirectoryError, root)
  | None => (Some FileNotFoundError, root)
  end.

(** [p.mkdir(parents=True, exist_ok=True)] *)
Definition mkdir_p (p : path) (root : node) : option exn * node :=
  match lookup_path p root with
  | Some (Dir _) => (None, root)
  | Some (File _) => (Some FileExistsError, root)
  | None =>
      match write_path p (Dir []) root with
      | Some root' => (None, root')
      | None => (Some FileExistsError, root)
      end
  end.

(** *** Services *)

(** [_get_service_data_path] *)
Definition _get_service_data_path (service : string) : option path :=
  if String.eqb service "adguard" then Some (home ++ ["adguardhome"])
  else if String.eqb service "jellyfin"
       then Some (home ++ ["home-server-data"; "jellyfin"])
  else if String.eqb service "immich"
       then Some (home ++ ["home-server-data"; "immich"])
  else if String.eqb service "tailscale" then Some ["var"; "lib"; "tailscale"]
  else if String.eqb service "openclaw" then Some (home ++ [".openclaw"])
  else None.

(** [_is_docker_service] *)
Definition _is_docker_service (service : string) : bool :=
  (String.eqb service "adguard" || String.eqb service "jellyfin"
   || String.eqb service "immich")%bool.

(** [container_names.get(service)] *)
Definition container_name (service : string) : option string :=
  if String.eqb service "adguard" then Some "adguardhome"
  else if String.eqb service "jellyfin" then Some "jellyfin"
  else if String.eqb service "immich" then Some "immich_server"
  else None.

(** [subprocess.run(argv, ...)]: whether it raised, and the world after;
    with [check=True] a non-zero exit raises too. *)
Definition run (check : bool) (argv : list string) (w : World) : bool * World :=
  let w' := {| db := db w; fs := fs w; clock := clock w; stdin := stdin w;
               procs := procs w ++ [argv] |} in
  match subprocess_run (procs w) argv with
  | None => (true, w')
  | Some code => ((check && negb (code =? 0))%bool, w')
  end.

(** [_backup_docker_container] *)
Definition _backup_docker_container (service : string) (output_path : path)
    (w : World) : bool * World :=
  match container_name service with
  | Some container =>
      run true ["docker"; "export"; "-o"; path_str output_path; container] w
  | None => (false, w)
  end.

(** *** create_backup *)

(** "Backup service data": the first loop over the services. *)
Fixpoint backup_data (backup_path : path) (services : list string)
    (data_paths : list (string * path)) (w : World)
    : list (string * path) * World :=
  match services with
  | [] => (data_paths, w)
  | service :: rest =>
      match _get_service_data_path service with
      | Some service_data_path =>
          if path_exists service_data_path (fs w) then
            let service_backup_path := backup_path ++ [service +:+ "_data"] in
            match copytree service_data_path service_backup_path true (fs w) with
            | (None, root') =>
                backup_data backup_path rest
                  (dict_set service service_backup_path data_paths)
                  (set_fs root' w)
            | (Some _, root') =>
                backup_data backup_path rest data_paths (set_fs root' w)
            end
          else backup_data backup_path rest data_paths w
      | None => backup_data backup_path rest data_paths w
      end
  end.

(** "Backup Docker containers (export)": the second loop. *)
Fixpoint backup_containers (backup_path : path) (services : list string)
    (data_paths : list (string * path)) (w : World)
    : list (string * path) * World :=
  match services with
  | [] => (data_paths, w)
  | service :: rest =>
      if _is_docker_service service then
        let container_backup := backup_path ++ [service +:+ "_container.tar"] in
        match _backup_docker_container service container_backup w with
        | (false, w') =>
            backup_containers backup_path rest
              (dict_set (service +:+ "_container") container_backup data_paths)
              w'
        | (true, w') => backup_containers backup_path rest data_paths w'
        end
      else backup_containers backup_path rest data_paths w
  end.

(** [create_backup] *)
Definition create_backup (services : list string) (description : string)
    (w : World) : (exn + string) * World :=
  let backup_id := "backup_" +:+ strftime (clock w) in
  let backup_path := backup_dir ++ [backup_id] in
  match mkdir_p backup_path (fs w) with
  | (Some ex, root) => (inl ex, set_fs root w)
  | (None, root) =>
      let w := set_fs root w in
      let timestamp := clock w in
      let config := cwd ++ ["config.json"] in
      let configured :=
        if path_exists config (fs w) then
          match copy2 config (backup_path ++ ["config.json"]) (fs w) with
          | (Some ex, root') => (inl ex, set_fs root' w)
          | (None, root') =>
              (inr (Some (backup_path ++ ["config.json"])), set_fs root' w)
          end
        else (inr None, w) in
      match configured with
      | (inl ex, w) => (inl ex, w)
      | (inr config_backup, w) =>
          let '(data_paths, w) := backup_data backup_path services [] w in
          let '(data_paths, w) :=
            backup_containers backup_path services data_paths w in
          if bool_decide (backup_id ∈ map b_backup_id (backup_points (db w)))
          then (inl IntegrityError, w)
          else
            let row := {| b_id := next_id (map b_id (backup_points (db w)));
                          b_backup_id := backup_id;
                          b_timestamp := timestamp;
                          b_description := description;
                          b_services := services;
                          b_config_backup_path := config_backup;
                          b_data_backup_paths := data_paths;
                          b_created_at := timestamp |} in
            (inr backup_id,
             set_db {| backup_points := backup_points (db w) ++ [row];
                       rollback_log := rollback_log (db w) |} w)
      end
  end.

(** *** rollback *)

(** [rollback].  [SELECT *] gives the columns in the order of the table:
    id, backup_id, timestamp, description, services, config_backup_path,
    data_backup_paths, created_at.  So [row[3]], which the code decodes
    for the services, is the description, and [row[5]], which it decodes
    for the data paths, is the path of the configuration backup: NULL,
    or [str] of a path, which starts with "/" as no JSON text does.
    [json.loads] raises on either, and the call never gets past line 166:
    the prompt, the restore and "Log rollback" are not reached, whatever
    row of the table it has read ([confirm] is not looked at). *)
Definition rollback (backup_id : string) (confirm : bool) (w : World)
    : (exn + bool * string) * World :=
  match filter (fun r => b_backup_id r = backup_id) (backup_points (db w)) with
  | [] => (inr (false, "Backup " +:+ backup_id +:+ " not found"), w)
  | row :: _ =>
      (* services = json.loads(row[3]) *)
      match json_loads_raises (b_description row) with
      | Some ex => (inl ex, w)
      | None =>
          (* config_path = row[4]; data_paths = json.loads(row[5]) *)
          match b_config_backup_path row with
          | None => (inl TypeError, w)
          | Some config_backup_path => (inl JSONDecodeError, w)
          end
      end
  end.

(** *** list_backups and delete_backup *)

(** What [list_backups] tells about a backup. *)
Record BackupInfo := {
  i_backup_id : string;
  i_timestamp : Z;
  i_description : string;
  i_services : list string;
  i_created_at : Z
}.

Definition info (r : BackupRow) : BackupInfo :=
  {| i_backup_id := b_backup_id r; i_timestamp := b_timestamp r;
     i_description := b_description r; i_services := b_services r;
     i_created_at := b_created_at r |}.

(** ORDER BY created_at DESC *)
Definition later_first (r1 r2 : BackupRow) : Prop :=
  b_created_at r2 <= b_created_at r1.

#[local] Instance later_first_dec r1 r2 : Decision (later_first r1 r2).
Proof. unfold later_first. apply _. Defined.

(** [list_backups]: the rows, the latest first.  Among rows created at
    the same instant SQL fixes no order; the one of the table is kept. *)
Definition list_backups (w : World) : list BackupInfo :=
  info <$> merge_sort later_first (backup_points (db w)).


(** ** Properties of the manager: the rollback log *)

(** The backup is in [backup_points]. *)
Definition known (backup_id : string) (w : World) : bool :=
  bool_decide (backup_id ∈ map b_backup_id (backup_points (db w))).


Lemma run_db check argv w : db (run check argv w).2 = db w.
Proof. unfold run. by destruct (subprocess_run _ _). Qed.

Lemma filter_known backup_id (rows : list BackupRow) :
  backup_id ∈ map b_backup_id rows <->
  filter (fun r => b_backup_id r = backup_id) rows <> [].
Proof.
  induction rows as [|r rows IH]; simpl.
  - split; [by intros ?%elem_of_nil|done].
  - rewrite filter_cons. case_decide as Hr.
    + split; [done|]. intros _. rewrite <- Hr. left.
    + rewrite <- IH. split.
      * intros [?|?]%elem_of_cons; [congruence|done].
      * by right.
Qed.

Lemma filter_fresh backup_id (rows : list BackupRow) :
  backup_id ∉ map b_backup_id rows ->
  filter (fun r => b_backup_id r = backup_id) rows = [].
Proof.
  intros Hnew.
  destruct (filter _ rows) as [|r rs] eqn:Hf; [done|].
  destruct Hnew. apply filter_known. by rewrite Hf.
Qed.

(** What [rollback] does with the row it has read: it raises, on the
    description or on the path of the configuration backup. *)
Lemma rollback_row backup_id confirm w row rows :
  filter (fun r => b_backup_id r = backup_id) (backup_points (db w))
    = row :: rows ->
  rollback backup_id confirm w
  = (inl (match json_loads_raises (b_description row) with
          | Some ex => ex
          | None =>
              match b_config_backup_path row with
              | None => TypeError
              | Some _ => JSONDecodeError
              end
          end), w).
Proof.
  intros Hrows. unfold rollback. rewrite Hrows.
  destruct (json_loads_raises _); [done|].
  by destruct (b_config_backup_path row).
Qed.

(** C7 (the code departs from the claim).  No invocation of [rollback]
    appends an entry to the rollback log.  On a backup that is recorded
    the call raises while it decodes the row, before it restores anything
    and before "Log rollback"; on a backup that is not recorded it
    returns its "not found" answer, which comes before "Log rollback"
    too.  Either way the world is left as it was. *)
Theorem rollback_never_logs backup_id confirm w :
  let run := rollback backup_id confirm w in
  rollback_log (db run.2) = rollback_log (db w) /\
  run.2 = w /\
  (if known backup_id w
   then exists ex, run.1 = inl ex
   else run.1 = inr (false, "Backup " +:+ backup_id +:+ " not found")).
Proof.
  intros run. subst run. unfold known.
  destruct (filter (fun r => b_backup_id r = backup_id) (backup_points (db w)))
    as [|row rows] eqn:Hrows.
  - rewrite bool_decide_eq_false_2
      by (intros Hk%filter_known; by rewrite Hrows in Hk).
    unfold rollback. by rewrite Hrows.
  - rewrite bool_decide_eq_true_2 by (apply filter_known; by rewrite Hrows).
    rewrite (rollback_row _ _ _ _ _ Hrows). cbn [fst snd].
    split; [done|]. split; [done|]. by eexists.
Qed.

(** ** Properties of the manager: the snapshot a backup takes *)

Lemma run_fs check argv w : fs (run check argv w).2 = fs w.
Proof. unfold run. by destruct (subprocess_run _ _). Qed.

Lemma data_paths_set_other {A} k k' (v : A) d :
  k <> k' -> dict_get k' (dict_set k v d) = dict_get k' d.
Proof.
  intros Hne. induction d as [|[k0 v0] rest IH]; simpl.
  - destruct (String.eqb k' k) eqn:Hk; [|done].
    apply String.eqb_eq in Hk. congruence.
  - destruct (String.eqb k k0) eqn:Hk; simpl; [|by rewrite IH].
    apply String.eqb_eq in Hk. subst k0.
    destruct (String.eqb k' k) eqn:Hk'; [|done].
    apply String.eqb_eq in Hk'. congruence.
Qed.


(** The export of containers touches neither the file system of the
    model nor the database, and only adds keys that end in
    "_container". *)
Lemma backup_containers_keeps backup_path services data_paths w :
  fs (backup_containers backup_path services data_paths w).2 = fs w /\
  db (backup_containers backup_path services data_paths w).2 = db w /\
  forall k, (forall s, s ∈ services -> s +:+ "_container" <> k) ->
    dict_get k (backup_containers backup_path services data_paths w).1
    = dict_get k data_paths.
Proof.
  revert data_paths w. induction services as [|service rest IH];
    intros data_paths w; [done|].
  simpl. destruct (_is_docker_service service).
  2:{ destruct (IH data_paths w) as (Hf & Hd & Hk). split; [done|].
      split; [done|]. intros k Hne. apply Hk. intros s Hs. apply Hne.
      by right. }
  unfold _backup_docker_container.
  destruct (container_name service) as [container|].
  - pose proof (run_fs true ["docker"; "export"; "-o";
      path_str (backup_path ++ [service +:+ "_container.tar"]); container] w)
      as Hf0.
    pose proof (run_db true ["docker"; "export"; "-o";
      path_str (backup_path ++ [service +:+ "_container.tar"]); container] w)
      as Hd0.
    destruct (run true _ w) as [[] w']; cbn [snd] in Hf0, Hd0.
    + destruct (IH data_paths w') as (Hf & Hd & Hk).
      split; [congruence|]. split; [congruence|].
      intros k Hne. apply Hk. intros s Hs. apply Hne. by right.
    + destruct (IH (dict_set (service +:+ "_container")
                      (backup_path ++ [service +:+ "_container.tar"])
                      data_paths) w') as (Hf & Hd & Hk).
      split; [congruence|]. split; [congruence|].
      intros k Hne. rewrite Hk.
      * apply data_paths_set_other. apply Hne. left.
      * intros s Hs. apply Hne. by right.
  - destruct (IH (dict_set (service +:+ "_container")
                    (backup_path ++ [service +:+ "_container.tar"])
                    data_paths) w) as (Hf & Hd & Hk).
    split; [done|]. split; [done|].
    intros k Hne. rewrite Hk.
    + apply data_paths_set_other. apply Hne. left.
    + intros s Hs. apply Hne. by right.
Qed.





(** ** Properties of the manager: what a rollback leaves alone *)


(** ** Properties of the manager: create_backup *)

Lemma backup_data_db backup_path services data_paths w :
  db (backup_data backup_path services data_paths w).2 = db w /\
  clock (backup_data backup_path services data_paths w).2 = clock w.
Proof.
  revert data_paths w. induction services as [|service rest IH];
    intros data_paths w; [done|].
  cbn [backup_data]. destruct (_get_service_data_path service); [|apply IH].
  destruct (path_exists _ _); [|apply IH].
  destruct (copytree _ _ _ _) as [[ex|] root'];
    by destruct (IH data_paths (set_fs root' w)),
               (IH (dict_set service (backup_path ++ [service +:+ "_data"])
                      data_paths) (set_fs root' w)).
Qed.

(** What [create_backup] does to the database: nothing when it raises,
    one new backup point when it returns. *)
Lemma create_backup_db services description w :
  match create_backup services description w with
  | (inl _, w') => db w' = db w
  | (inr backup_id, w') =>
      backup_id = "backup_" +:+ strftime (clock w) /\
      (backup_id ∉ map b_backup_id (backup_points (db w))) /\
      rollback_log (db w') = rollback_log (db w) /\
      exists row,
        backup_points (db w') = backup_points (db w) ++ [row] /\
        b_backup_id row = backup_id /\
        b_services row = services /\
        b_description row = description /\
        b_timestamp row = clock w
  end.
Proof.
  unfold create_backup.
  destruct (mkdir_p _ (fs w)) as [[ex|] root]; [done|].
  set (w0 := set_fs root w).
  assert (forall config_backup w1, db w1 = db w ->
    match
      (let '(data_paths, w2) :=
         backup_data (backup_dir ++ ["backup_" +:+ strftime (clock w)])
           services [] w1 in
       let '(data_paths0, w3) :=
         backup_containers (backup_dir ++ ["backup_" +:+ strftime (clock w)])
           services data_paths w2 in
       if bool_decide ("backup_" +:+ strftime (clock w)
                         ∈ map b_backup_id (backup_points (db w3)))
       then (inl IntegrityError, w3)
       else
         (inr ("backup_" +:+ strftime (clock w)),
          set_db {| backup_points := backup_points (db w3) ++
                      [{| b_id := next_id (map b_id (backup_points (db w3)));
                          b_backup_id := "backup_" +:+ strftime (clock w);
                          b_timestamp := clock w0;
                          b_description := description;
                          b_services := services;
                          b_config_backup_path := config_backup;
                          b_data_backup_paths := data_paths0;
                          b_created_at := clock w0 |}];
                    rollback_log := rollback_log (db w3) |} w3))
    with
    | (inl _, w') => db w' = db w
    | (inr backup_id, w') =>
        backup_id = "backup_" +:+ strftime (clock w) /\
        (backup_id ∉ map b_backup_id (backup_points (db w))) /\
        rollback_log (db w') = rollback_log (db w) /\
        exists row,
          backup_points (db w') = backup_points (db w) ++ [row] /\
          b_backup_id row = backup_id /\
          b_services row = services /\
          b_description row = description /\
          b_timestamp row = clock w
    end) as Hrest.
  { intros config_backup w1 Hw1.
    destruct (backup_data_db (backup_dir ++ ["backup_" +:+ strftime (clock w)])
                services [] w1) as [Hd _].
    destruct (backup_data _ _ _ w1) as [data_paths w2]. cbn [snd] in Hd.
    destruct (backup_containers_keeps
                (backup_dir ++ ["backup_" +:+ strftime (clock w)])
                services data_paths w2) as (_ & Hd' & _).
    destruct (backup_containers _ _ _ w2) as [data_paths0 w3].
    cbn [snd] in Hd'. rewrite Hd', Hd, Hw1.
    case_bool_decide as Hin; [congruence|].
    split; [done|]. split; [done|]. cbn [db set_db rollback_log backup_points].
    split; [done|]. by eexists. }
  cbn [fs clock]. fold w0.
  destruct (path_exists _ (fs w0)); [|by apply Hrest].
  destruct (copy2 _ _ (fs w0)) as [[ex|] root']; [done|by apply Hrest].
Qed.

(** X25.  A backup that is created gets the id "backup_" followed by the time
    stamp of the clock, an id no earlier backup has, and is recorded as
    one new backup point that names the services and the description it
    was asked for; the rollback log is left alone. *)
Theorem create_backup_records services description w backup_id w' :
  create_backup services description w = (inr backup_id, w') ->
  backup_id = "backup_" +:+ strftime (clock w) /\
  known backup_id w = false /\
  known backup_id w' = true /\
  rollback_log (db w') = rollback_log (db w) /\
  exists row,
    backup_points (db w') = backup_points (db w) ++ [row] /\
    b_backup_id row = backup_id /\
    b_services row = services /\
    b_description row = description /\
    b_timestamp row = clock w.
Proof.
  intros Hrun. pose proof (create_backup_db services description w) as H.
  rewrite Hrun in H. destruct H as (Hid & Hnew & Hlog & row & Hrows & Hrow).
  split; [done|]. unfold known.
  split; [by apply bool_decide_eq_false|].
  split; [|split; [done|by exists row]].
  apply bool_decide_eq_true. rewrite Hrows, map_app, elem_of_app. right.
  destruct Hrow as [<- _]. left.
Qed.

(** X26.  Two backups within the same second of the clock get the same id:
    the second call raises (the UNIQUE constraint, if nothing earlier),
    returns no id and records nothing. *)
Theorem create_backup_same_id_raises services description w :
  known ("backup_" +:+ strftime (clock w)) w = true ->
  exists ex w',
    create_backup services description w = (inl ex, w') /\ db w' = db w.
Proof.
  intros Hk. pose proof (create_backup_db services description w) as H.
  destruct (create_backup services description w) as [[ex|backup_id] w'].
  - by exists ex, w'.
  - destruct H as (-> & Hnew & _). unfold known in Hk.
    by apply bool_decide_eq_true in Hk.
Qed.

(** ** Properties of the manager: a backup, then a rollback to it *)

(** C8 (the code departs from the claim).  A rollback to a backup that
    [create_backup] has just recorded, whatever was backed up and
    whatever has happened to the files since, raises while it decodes the
    row: with what [json.loads] raises on the description; or, if the
    description is a JSON text, with [TypeError] or [JSONDecodeError] on
    the path of the configuration backup.  It leaves the world as it
    found it: a data directory that has changed since the backup stays
    changed. *)
Theorem rollback_after_backup_raises services description w0 backup_id w1 w2
    confirm :
  create_backup services description w0 = (inr backup_id, w1) ->
  db w2 = db w1 ->
  let run := rollback backup_id confirm w2 in
  match json_loads_raises description with
  | Some ex => run.1 = inl ex
  | None => run.1 = inl TypeError \/ run.1 = inl JSONDecodeError
  end /\
  run.2 = w2.
Proof.
  intros Hbackup Hdb run. subst run.
  pose proof (create_backup_db services description w0) as H.
  rewrite Hbackup in H.
  destruct H as (_ & Hnew & _ & row & Hrows & Hid & _ & Hdesc & _).
  assert (filter (fun r => b_backup_id r = backup_id) (backup_points (db w2))
          = [row]) as Hrow.
  { rewrite Hdb, Hrows, filter_app, (filter_fresh _ _ Hnew).
    rewrite filter_cons, decide_True by done. done. }
  rewrite (rollback_row _ _ _ _ _ Hrow), Hdesc. cbn [fst snd].
  split; [|done].
  destruct (json_loads_raises description); [done|].
  destruct (b_config_backup_path row); [by right|by left].
Qed.

(** ** Properties of the manager: listing and deleting backups *)


(** X28.  [list_backups] lists every backup point once, the latest first. *)
Theorem list_backups_latest_first w :
  i_backup_id <$> list_backups w ≡ₚ b_backup_id <$> backup_points (db w) /\
  Sorted (fun i1 i2 => i_created_at i2 <= i_created_at i1) (list_backups w).
Proof.
  unfold list_backups. split.
  - rewrite <- list_fmap_compose.
    by rewrite (merge_sort_Permutation later_first (backup_points (db w))).
  - apply (Sorted_fmap info later_first); [done|].
    apply Sorted_merge_sort. intros r1 r2. unfold later_first. lia.
Qed.


End Manager.

(** ** A machine with one service *)

Definition home : path := ["home"; "user"].
Definition cwd : path := ["home"; "user"; "home-server-agent"].
Definition backup_dir : path := home ++ [".home-server"; "backups"].

(** Time stamps are the clock reading in decimal. *)
Definition strftime (t : Z) : string := pretty t.

(** Every command exits with status 0. *)
Definition all_succeed : list (list string) -> list string -> option Z :=
  fun _ _ => Some 0.

(** Merging copies over the entries of the source. *)
Definition overlay (src dst : node) : node * bool :=
  match src, dst with
  | Dir entries, Dir old =>
      (Dir (foldl (fun acc '(name, x) => bind_entry name x acc) old entries),
       false)
  | _, _ => (src, false)
  end.

Definition adguard_data : list (string * node) :=
  [("AdGuardHome.yaml", File "upstream_dns: 9.9.9.9");
   ("data", Dir [("querylog.json", File "[]")])].

Definition disk : node :=
  Dir [("home",
        Dir [("user",
              Dir [("adguardhome", Dir adguard_data);
                   ("home-server-agent",
                    Dir [("config.json", File "{}")])])])].

Definition empty_db : DB := {| backup_points := []; rollback_log := [] |}.

Definition world0 : World :=
  {| db := empty_db; fs := disk; clock := 20260101; stdin := []; procs := [] |}.

(** Of the descriptions given on this machine, "[]" is the one that is a
    JSON text. *)
Definition json_loads_raises (text : string) : option exn :=
  if String.eqb text "[]" then None else Some JSONDecodeError.

(** After [create_backup(['adguard'], 'before upgrade')]. *)
Definition backed_up : World :=
  (create_backup home cwd backup_dir strftime all_succeed overlay
     ["adguard"] "before upgrade" world0).2.

(** Later the data directory holds something else. *)
Definition upgraded : World :=
  {| db := db backed_up;
     fs := default (fs backed_up)
             (write_path (home ++ ["adguardhome"])
                (Dir [("AdGuardHome.yaml", File "upstream_dns: 1.1.1.1")])
                (fs backed_up));
     clock := 20260102;
     stdin := [];
     procs := procs backed_up |}.

(** The backup holds the data directory as it was, and the rollback to
    it raises on the description: the data directory stays as the
    upgrade left it, and the rollback log stays empty. *)
Lemma rollback_after_backup_raises_witness :
  rollback json_loads_raises "backup_20260101" false upgraded
    = (inl JSONDecodeError, upgraded) /\
  lookup_path (backup_dir ++ ["backup_20260101"; "adguard_data"]) (fs upgraded)
    = Some (Dir adguard_data) /\
  lookup_path (home ++ ["adguardhome"]) (fs upgraded)
    = Some (Dir [("AdGuardHome.yaml", File "upstream_dns: 1.1.1.1")]) /\
  rollback_log (db upgraded) = [].
Proof.
  destruct (rollback_after_backup_raises home cwd backup_dir strftime
              all_succeed overlay json_loads_raises ["adguard"]
              "before upgrade" world0 "backup_20260101" backed_up upgraded
              false) as (Hraises & Hworld); [reflexivity|reflexivity|].
  split; [|by repeat split].
  cbn in Hraises. rewrite <- Hworld at 2. rewrite <- Hraises.
  by destruct (rollback _ _ _ _).
Defined.

(** With a description that is a JSON text the call gets one line
    further, and raises on the path of the configuration backup. *)
Example rollback_raises_on_config_backup_path :
  let w := (create_backup home cwd backup_dir strftime all_succeed overlay
              ["adguard"] "[]" world0).2 in
  rollback json_loads_raises "backup_20260101" false w
    = (inl JSONDecodeError, w) /\
  b_config_backup_path <$> backup_points (db w)
    = [Some (backup_dir ++ ["backup_20260101"; "config.json"])].
Proof. split; reflexivity. Qed.


Lemma create_backup_records_witness :
  known "backup_20260101" world0 = false /\
  known "backup_20260101" backed_up = true /\
  rollback_log (db backed_up) = rollback_log (db world0).
Proof.
  destruct (create_backup_records home cwd backup_dir strftime all_succeed
              overlay ["adguard"] "before upgrade" world0 "backup_20260101"
              backed_up) as (_ & Hnew & Hknown & Hlog & _).
  - vm_compute. reflexivity.
  - by repeat split.
Defined.

(** A second backup before the clock moves on. *)
Lemma create_backup_same_id_raises_witness :
  exists ex w',
    create_backup home cwd backup_dir strftime all_succeed overlay
      ["adguard"] "once more" backed_up = (inl ex, w') /\
    db w' = db backed_up.
Proof.
  apply (create_backup_same_id_raises home cwd backup_dir strftime all_succeed
           overlay ["adguard"] "once more" backed_up).
  vm_compute. reflexivity.
Defined.

End RollbackManager.
